(** * persist: a wear-levelled, power-loss tolerant record store

    Shallow embedding of [src/inc/crc16.h] and [src/persist.h] and the
    properties of the specification established over it.

    Conventions.  Fixed-width C++ integers are [Z] with the wrap-around of
    every operation written out ([u8], [u16], [u32]).  A byte is a [Z] in
    [0, 256).  The NVMem driver is an interface (a type class); the
    persistence layer threads the driver state explicitly. *)

From Stdlib Require Import ZArith List Bool Lia.
Import ListNotations.
Local Open Scope Z_scope.

(** ** Fixed-width arithmetic *)

Definition u8 (x : Z) : Z := x mod 256.
Definition u16 (x : Z) : Z := x mod 65536.
Definition u32 (x : Z) : Z := x mod 4294967296.

Definition is_byte (b : Z) : Prop := 0 <= b < 256.

(** [range n] is the index list [0; 1; ...; n-1] of a counted loop. *)
Definition range (n : nat) : list Z := map Z.of_nat (seq 0 n).

(** ** CRC-16 engine ([src/inc/crc16.h]) *)

Module Crc16.

Definition kPolynomial : Z := 0x1021.

(** The body of the [for (j = 0; j < 8; j++)] loop of [ComputeTableEntry]:
    [x] is a [uint16_t], so each shift and xor is truncated to 16 bits. *)
Definition shift_step (x : Z) : Z :=
  if negb (Z.land x 0x8000 =? 0)
  then u16 (Z.lxor (u16 (Z.shiftl x 1)) kPolynomial)
  else u16 (Z.shiftl x 1).

Fixpoint shift_loop (j : nat) (x : Z) : Z :=
  match j with
  | O => x
  | S j' => shift_loop j' (shift_step x)
  end.

Definition ComputeTableEntry (x : Z) : Z :=
  let x := u16 (Z.shiftl x 8) in
  shift_loop 8 x.

(** The engine.  [initialized_], [ltable_] and [htable_] are static members
    of the class (one copy per process); [crc_] is the running register. *)
Record t : Type := mk {
  initialized_ : bool;
  ltable_ : list Z;
  htable_ : list Z;
  crc_ : Z
}.

(** Static storage is zero-initialised. *)
Definition static_init : t :=
  mk false (repeat 0 16) (repeat 0 16) 0.

Definition Init (c : t) : t :=
  let c1 :=
    if negb (initialized_ c)
    then mk true
            (map (fun i => ComputeTableEntry i) (range 16))
            (map (fun i => ComputeTableEntry (Z.shiftl i 4)) (range 16))
            (crc_ c)
    else c in
  mk (initialized_ c1) (ltable_ c1) (htable_ c1) 0.

Definition Seed (c : t) (crc : Z) : t :=
  mk (initialized_ c) (ltable_ c) (htable_ c) crc.

(** One iteration of the [while (length--)] loop of [Process]. *)
Definition process_byte (lt ht : list Z) (crc byte : Z) : Z :=
  let index := u8 (Z.lxor (Z.shiftr crc 8) byte) in
  u16 (Z.lxor (Z.lxor (Z.shiftl crc 8) (nth (Z.to_nat (Z.land index 0xF)) lt 0))
              (nth (Z.to_nat (Z.shiftr index 4)) ht 0)).

Definition process_bytes (lt ht : list Z) (crc : Z) (data : list Z) : Z :=
  fold_left (process_byte lt ht) data crc.

(** [Process(data, length)]: the new engine and the returned [crc()]. *)
Definition Process (c : t) (data : list Z) : t * Z :=
  let r := process_bytes (ltable_ c) (htable_ c) (crc_ c) data in
  (mk (initialized_ c) (ltable_ c) (htable_ c) r, r).

(** The tables as [Init] builds them. *)
Definition the_ltable : list Z :=
  Eval vm_compute in map (fun i => ComputeTableEntry i) (range 16).
Definition the_htable : list Z :=
  Eval vm_compute in map (fun i => ComputeTableEntry (Z.shiftl i 4)) (range 16).

(** An engine is [ready] when its tables are populated. *)
Definition ready (c : t) : Prop :=
  ltable_ c = the_ltable /\ htable_ c = the_htable.

(** Static storage either is still untouched or holds the tables. *)
Definition tables_consistent (c : t) : Prop :=
  initialized_ c = true -> ready c.

(** *** Reference CRC, following the words of the specification

    CRC-16, polynomial 0x1021, most significant bit first, no reflection
    of input or output, no final xor: the byte is xored into the high half
    of the register, then the register is shifted left eight times, the
    polynomial being xored in whenever a one is shifted out. *)
Definition spec_shift_bit (crc : Z) : Z :=
  if Z.testbit crc 15
  then Z.lxor ((2 * crc) mod 2 ^ 16) 0x1021
  else (2 * crc) mod 2 ^ 16.

Definition spec_update (crc byte : Z) : Z :=
  Nat.iter 8 spec_shift_bit (Z.lxor crc (byte * 2 ^ 8)).

Definition spec_crc16 (seed : Z) (data : list Z) : Z :=
  fold_left spec_update data seed.

End Crc16.

(** ** Result codes ([enum Result]) *)

Inductive Result : Type :=
| RESULT_SUCCESS
| RESULT_FAIL_NO_DATA
| RESULT_FAIL_ERASE
| RESULT_FAIL_WRITE
| RESULT_FAIL_READ.

(** ** The NVMem driver interface ([src/inc/nvmem_template.h])

    The four member functions are not [const]: each may change the driver
    state [M].  [Read] also yields the bytes the destination buffer holds
    afterwards (whatever the driver left there when it reports failure). *)

Class NVMem (M : Type) : Type := {
  Read : M -> Z -> Z -> M * (bool * list Z);
  Writable : M -> Z -> Z -> M * bool;
  Write : M -> Z -> list Z -> Z -> M * bool;
  Erase : M -> Z -> Z -> M * bool
}.

(** ** Template parameters

    The static constants of the [NVMem] type, [sizeof(TData)], the
    [datatype_version] tag and the [assert_fault_tolerant] flag. *)

Record Config : Type := mkConfig {
  kSize : Z;
  kEraseGranularity : Z;
  kWriteGranularity : Z;
  kFillByte : Z;
  sizeof_TData : Z;
  datatype_version : Z;
  assert_fault_tolerant : bool
}.

(** A record of type [TData] is its byte image. *)
Definition TData : Type := list Z.

Fixpoint bytes_eqb (a b : list Z) : bool :=
  match a, b with
  | [], [] => true
  | x :: a', y :: b' => (x =? y) && bytes_eqb a' b'
  | _, _ => false
  end.

(** The acceptance test of the recovery scanner on two sequence numbers:
    the operands are [uint16_t] promoted to [int], so the differences do
    not wrap. *)
Definition seq_accept (num_blocks sn sequence : Z) : bool :=
  ((sn >? sequence) && (sn - sequence <? num_blocks)) ||
  ((sn <? sequence) && (sequence - sn >=? num_blocks)).

(** [struct Block], packed. *)
Record Block : Type := mkBlock {
  data : list Z;
  sequence_n : Z;
  crc : Z;
  padding : list Z
}.

(** The 16-bit fields are stored in host byte order, little-endian. *)
Definition le16_bytes (x : Z) : list Z := [x mod 256; (x / 256) mod 256].
Definition le16_value (lo hi : Z) : Z := lo + 256 * hi.

Section Geometry.

Variable cfg : Config.

Definition PadSize (unpadded_size granularity : Z) : Z :=
  let rem := unpadded_size mod granularity in
  u32 (granularity - rem) mod granularity.

Definition kBlockPaddingSize : Z :=
  PadSize (u32 (sizeof_TData cfg + 2 + 2)) (kWriteGranularity cfg).

(** [sizeof(Block)] *)
Definition kBlockSize : Z :=
  u32 (sizeof_TData cfg + 2 + 2 + kBlockPaddingSize).

Definition kPageSize : Z :=
  u32 (kBlockSize + PadSize kBlockSize (kEraseGranularity cfg)).

Definition kBlocksPerPage : Z := kPageSize / kBlockSize.

Definition kNumBlocks : Z :=
  Z.min (u32 ((kSize cfg / kPageSize) * kBlocksPerPage)) (65535 / 2 + 1).

Definition kNumPages : Z :=
  u32 (kNumBlocks + kBlocksPerPage - 1) / kBlocksPerPage.

(** The [static_assert]s of the class, together with what a constant
    expression needs to be evaluated at all (no division by zero) and the
    ranges of the parameter types. *)
Definition static_asserts : Prop :=
  0 <= kSize cfg < 2 ^ 32 /\
  0 < kEraseGranularity cfg <= kSize cfg /\
  0 < kWriteGranularity cfg <= kSize cfg /\
  0 < sizeof_TData cfg /\
  sizeof_TData cfg + 2 + 2 + kBlockPaddingSize < 2 ^ 32 /\
  0 < kPageSize /\
  kBlocksPerPage > 0 /\
  kNumPages > 0 /\
  kNumBlocks > 0 /\
  (assert_fault_tolerant cfg = false \/ kNumPages >= 2).

Definition BlockLocation (block_n : Z) : Z :=
  let block_n := u32 block_n in
  let page_n := block_n / kBlocksPerPage in
  let block_n := u32 (block_n - u32 (page_n * kBlocksPerPage)) in
  u32 (u32 (page_n * kPageSize) + u32 (block_n * kBlockSize)).

(** The byte image of a block, and a block read back from bytes. *)
Definition Block_bytes (b : Block) : list Z :=
  data b ++ le16_bytes (sequence_n b) ++ le16_bytes (crc b) ++ padding b.

Definition Block_of_bytes (bs : list Z) : Block :=
  let n := Z.to_nat (sizeof_TData cfg) in
  mkBlock (firstn n bs)
          (le16_value (nth n bs 0) (nth (n + 1) bs 0))
          (le16_value (nth (n + 2) bs 0) (nth (n + 3) bs 0))
          (skipn (n + 4) bs).

(** [GetCRC]: the engine is seeded from the version tag and run over the
    first [sizeof(TData) + sizeof(TSequenceNum)] bytes of the block. *)
Definition crc_seed : Z :=
  let seed := u8 (datatype_version cfg) in
  u16 (Z.lor seed (Z.shiftl (Z.lnot seed) 8)).

Definition GetCRC (c : Crc16.t) (block : Block) : Crc16.t * Z :=
  Crc16.Process (Crc16.Seed c crc_seed)
                (data block ++ le16_bytes (sequence_n block)).

(** Instance state. *)
Record Persist : Type := mkPersist {
  block_ : Block;
  active_block_n_ : Z;
  sequence_ : Z;
  crc_ : Crc16.t
}.

Definition set_block (p : Persist) (b : Block) : Persist :=
  mkPersist b (active_block_n_ p) (sequence_ p) (crc_ p).
Definition set_active (p : Persist) (n : Z) : Persist :=
  mkPersist (block_ p) n (sequence_ p) (crc_ p).
Definition set_sequence (p : Persist) (s : Z) : Persist :=
  mkPersist (block_ p) (active_block_n_ p) s (crc_ p).
Definition set_crc (p : Persist) (c : Crc16.t) : Persist :=
  mkPersist (block_ p) (active_block_n_ p) (sequence_ p) c.

Definition Load (p : Persist) (out : TData) : TData * Result :=
  if active_block_n_ p =? -1
  then (out, RESULT_FAIL_NO_DATA)
  else (data (block_ p), RESULT_SUCCESS).

Definition DataIsSame (p : Persist) (d : TData) : bool :=
  negb (active_block_n_ p =? -1) && bytes_eqb (data (block_ p)) d.

Section Driver.

Context {M : Type} {nvmem_ : NVMem M}.

(** One iteration of the scan loop of [Reset]; the boolean is [false]
    when the iteration returned [RESULT_FAIL_READ]. *)
Definition Reset_iteration (i : Z) (m : M) (p : Persist) : M * Persist * bool :=
  let location := BlockLocation i in
  let '(m1, (ok, bytes)) := Read m location kBlockSize in
  let p1 := set_block p (Block_of_bytes bytes) in
  if negb ok then (m1, set_active p1 (-1), false)
  else
    let '(c, v) := GetCRC (crc_ p1) (block_ p1) in
    let p2 := set_crc p1 c in
    if crc (block_ p2) =? v then
      let sn := sequence_n (block_ p2) in
      let num_blocks := kNumBlocks in
      if (active_block_n_ p2 =? -1) || seq_accept num_blocks sn (sequence_ p2)
      then (m1, set_sequence (set_active p2 i) sn, true)
      else (m1, p2, true)
    else (m1, p2, true).

Fixpoint Reset_scan (blocks : list Z) (m : M) (p : Persist) : M * Persist * bool :=
  match blocks with
  | [] => (m, p, true)
  | i :: rest =>
      let '(m1, p1, ok) := Reset_iteration i m p in
      if ok then Reset_scan rest m1 p1 else (m1, p1, false)
  end.

Definition Reset (m : M) (p : Persist) : M * Persist * Result :=
  let p := set_active (set_sequence p 0) (-1) in
  let '(m1, p1, ok) := Reset_scan (range (Z.to_nat kNumBlocks)) m p in
  if negb ok then (m1, p1, RESULT_FAIL_READ)
  else if negb (active_block_n_ p1 =? -1) then
    let location := BlockLocation (active_block_n_ p1) in
    let '(m2, (ok, bytes)) := Read m1 location kBlockSize in
    let p2 := set_block p1 (Block_of_bytes bytes) in
    if negb ok then (m2, set_active p2 (-1), RESULT_FAIL_READ)
    else (m2, p2, RESULT_SUCCESS)
  else (m1, p1, RESULT_SUCCESS).

Definition Init (m : M) (p : Persist) : M * Persist * Result :=
  Reset m (set_crc p (Crc16.Init (crc_ p))).

(** The [do ... while] loop of [NextWritableBlock].  The loop has no bound
    of its own; [fuel] counts the iterations allowed, and [None] says that
    they did not suffice. *)
Fixpoint NextWritableBlock_loop (fuel : nat) (m : M) (current_block_n next_block_n : Z)
  : option (M * Z) :=
  match fuel with
  | O => None
  | S fuel' =>
      let next_block_n := u32 (next_block_n + 1) mod kNumBlocks in
      let '(m1, w) := Writable m (BlockLocation next_block_n) kBlockSize in
      if w then Some (m1, next_block_n)
      else if negb (next_block_n =? current_block_n)
           then NextWritableBlock_loop fuel' m1 current_block_n next_block_n
           else Some (m1, next_block_n)
  end.

(** [NextWritableBlock] with [kNumBlocks] iterations allowed: with
    [-1 <= current_block_n < kNumBlocks] the loop never needs more. *)
Definition NextWritableBlock (m : M) (current_block_n : Z) : option (M * Z) :=
  let current_block_n :=
    if current_block_n =? -1 then kNumBlocks - 1 else current_block_n in
  match NextWritableBlock_loop (Z.to_nat kNumBlocks) m current_block_n current_block_n with
  | None => None
  | Some (m1, next_block_n) =>
      Some (m1, if next_block_n =? current_block_n then -1 else next_block_n)
  end.

(** The tail of [Save], from [active_block_n_ = next_block] on. *)
Definition Save_commit (m : M) (p : Persist) (next_block : Z) (d : TData)
  : M * Persist * Result :=
  let p := set_active p next_block in
  let location := BlockLocation (active_block_n_ p) in
  let b := mkBlock d (sequence_ p) (crc (block_ p))
                   (repeat (kFillByte cfg) (Z.to_nat kBlockPaddingSize)) in
  let '(c, v) := GetCRC (crc_ p) b in
  let p := set_crc (set_block p (mkBlock (data b) (sequence_n b) v (padding b))) c in
  let '(m1, ok) := Write m location (Block_bytes (block_ p)) kBlockSize in
  if negb ok then
    let '(m2, p2, _) := Reset m1 p in
    (m2, p2, RESULT_FAIL_WRITE)
  else (m1, p, RESULT_SUCCESS).

(** [Save]; [None] only when [NextWritableBlock] did not finish. *)
Definition Save (m : M) (p : Persist) (d : TData) : option (M * Persist * Result) :=
  if DataIsSame p d then Some (m, p, RESULT_SUCCESS)
  else
    match NextWritableBlock m (active_block_n_ p) with
    | None => None
    | Some (m1, next_block) =>
        if next_block =? -1 then
          if active_block_n_ p =? -1 then
            let '(m2, ok) := Erase m1 0 (u32 (kNumPages * kPageSize)) in
            if negb ok then Some (m2, p, RESULT_FAIL_ERASE)
            else Some (Save_commit m2 (set_sequence p 0) 0 d)
          else
            let current_page := u32 (active_block_n_ p) / kBlocksPerPage in
            let next_page := u32 (current_page + 1) mod kNumPages in
            let '(m2, ok) := Erase m1 (u32 (next_page * kPageSize)) kPageSize in
            if negb ok then Some (m2, p, RESULT_FAIL_ERASE)
            else Some (Save_commit m2 (set_sequence p (u16 (sequence_ p + 1)))
                                   (u32 (next_page * kBlocksPerPage)) d)
        else Some (Save_commit m1 (set_sequence p (u16 (sequence_ p + 1))) next_block d)
    end.

End Driver.

End Geometry.

Arguments Read {M _} _ _ _.
Arguments Writable {M _} _ _ _.
Arguments Write {M _} _ _ _ _.
Arguments Erase {M _} _ _ _.

(** ** Devices *)

(** *** An ideal flash device *)

(** Modelled from the spec: the NVMem driver, an external collaborator of
    which the repository has the interface only ([nvmem_template.h]).
    This one is a flash device in which nothing fails: the cells by byte
    offset; [Erase] sets every cell of the range to [0xFF], [Write] stores
    the source bytes, [Read] returns the cells, and a range is [Writable]
    when every cell of it is erased. *)
Definition Flash : Type := Z -> Z.

Definition kErased : Z := 0xFF.

Definition addresses (location size : Z) : list Z :=
  map (fun k => location + k) (range (Z.to_nat size)).

Definition in_range (location size a : Z) : bool :=
  (location <=? a) && (a <? location + size).

Definition Flash_read (m : Flash) (location size : Z) : list Z :=
  map m (addresses location size).

Definition Flash_writable (m : Flash) (location size : Z) : bool :=
  forallb (fun a => m a =? kErased) (addresses location size).

Definition Flash_write (m : Flash) (location : Z) (src : list Z) (size : Z) : Flash :=
  fun a => if in_range location size a
           then nth (Z.to_nat (a - location)) src 0
           else m a.

Definition Flash_erase (m : Flash) (location size : Z) : Flash :=
  fun a => if in_range location size a then kErased else m a.

#[export] Instance Flash_NVMem : NVMem Flash := {|
  Read m location size := (m, (true, Flash_read m location size));
  Writable m location size := (m, Flash_writable m location size);
  Write m location src size := (Flash_write m location src size, true);
  Erase m location size := (Flash_erase m location size, true)
|}.

(** A device fresh from the factory. *)
Definition Flash_virgin : Flash := fun _ => kErased.

(** *** A device that counts the calls it receives *)

Record Counted (M : Type) : Type := mkCounted {
  device : M;
  n_read : nat;
  n_writable : nat;
  n_write : nat;
  n_erase : nat
}.
Arguments mkCounted {M} _ _ _ _ _.
Arguments device {M} _.
Arguments n_read {M} _.
Arguments n_writable {M} _.
Arguments n_write {M} _.
Arguments n_erase {M} _.

#[export] Instance Counted_NVMem {M : Type} {nv : NVMem M} : NVMem (Counted M) := {|
  Read c location size :=
    let '(m, r) := Read (device c) location size in
    (mkCounted m (S (n_read c)) (n_writable c) (n_write c) (n_erase c), r);
  Writable c location size :=
    let '(m, r) := Writable (device c) location size in
    (mkCounted m (n_read c) (S (n_writable c)) (n_write c) (n_erase c), r);
  Write c location src size :=
    let '(m, r) := Write (device c) location src size in
    (mkCounted m (n_read c) (n_writable c) (S (n_write c)) (n_erase c), r);
  Erase c location size :=
    let '(m, r) := Erase (device c) location size in
    (mkCounted m (n_read c) (n_writable c) (n_write c) (S (n_erase c)), r)
|}.

Definition counted {M : Type} (m : M) : Counted M := mkCounted m 0 0 0 0.

(** *** A device whose reads, writes or erases fail

    A failing call leaves the device as it is and reports failure; a
    failing [Read] leaves zeros in the destination. *)

Record Faulty (M : Type) : Type := mkFaulty {
  healthy : M;
  read_ok : bool;
  write_ok : bool;
  erase_ok : bool
}.
Arguments mkFaulty {M} _ _ _ _.
Arguments healthy {M} _.
Arguments read_ok {M} _.
Arguments write_ok {M} _.
Arguments erase_ok {M} _.

#[export] Instance Faulty_NVMem {M : Type} {nv : NVMem M} : NVMem (Faulty M) := {|
  Read f location size :=
    if read_ok f then
      let '(m, r) := Read (healthy f) location size in
      (mkFaulty m (read_ok f) (write_ok f) (erase_ok f), r)
    else (f, (false, repeat 0 (Z.to_nat size)));
  Writable f location size :=
    let '(m, r) := Writable (healthy f) location size in
    (mkFaulty m (read_ok f) (write_ok f) (erase_ok f), r);
  Write f location src size :=
    if write_ok f then
      let '(m, r) := Write (healthy f) location src size in
      (mkFaulty m (read_ok f) (write_ok f) (erase_ok f), r)
    else (f, false);
  Erase f location size :=
    if erase_ok f then
      let '(m, r) := Erase (healthy f) location size in
      (mkFaulty m (read_ok f) (write_ok f) (erase_ok f), r)
    else (f, false)
|}.

(** ** Running several calls *)

Inductive Call : Type :=
| Call_Init
| Call_Save (d : TData).

(** The calls in turn, on one instance; [None] as soon as one does not
    return [RESULT_SUCCESS]. *)
Fixpoint run (cfg : Config) {M : Type} {nv : NVMem M}
         (m : M) (p : Persist) (calls : list Call) : option (M * Persist) :=
  match calls with
  | [] => Some (m, p)
  | Call_Init :: rest =>
      match Init cfg m p with
      | (m1, p1, RESULT_SUCCESS) => run cfg m1 p1 rest
      | _ => None
      end
  | Call_Save d :: rest =>
      match Save cfg m p d with
      | Some (m1, p1, RESULT_SUCCESS) => run cfg m1 p1 rest
      | _ => None
      end
  end.

(** The records of the calls have the size of [TData]. *)
Definition well_sized (cfg : Config) (c : Call) : Prop :=
  match c with
  | Call_Init => True
  | Call_Save d => Z.of_nat (length d) = sizeof_TData cfg
  end.

(** ** Concrete configurations *)

(** Two pages of one block: 16 bytes, erased by 8, written by 4, a record
    of 4 bytes. *)
Definition cfg_2x1 : Config := mkConfig 16 8 4 0xFF 4 1 true.

(** Two pages of two blocks. *)
Definition cfg_2x2 : Config := mkConfig 32 16 4 0xFF 4 1 true.

(** A region so large that the cap on the number of blocks applies, with
    three blocks to the page. *)
Definition cfg_capped : Config := mkConfig 480000 24 4 0xFF 4 1 true.

(** An instance before [Init]: static storage untouched, members
    arbitrary. *)
Definition Persist_raw : Persist :=
  mkPersist (mkBlock [] 0 0 []) 0 0 Crc16.static_init.

(** ** Vocabulary of the properties *)

(** The CRC of a block as an engine with tables [ltable_ c], [htable_ c]
    computes it, and as a populated engine computes it. *)
Definition engine_crc (cfg : Config) (c : Crc16.t) (b : Block) : Z :=
  Crc16.process_bytes (Crc16.ltable_ c) (Crc16.htable_ c) (crc_seed cfg)
                      (data b ++ le16_bytes (sequence_n b)).

Definition Block_crc (cfg : Config) (b : Block) : Z :=
  Crc16.process_bytes Crc16.the_ltable Crc16.the_htable (crc_seed cfg)
                      (data b ++ le16_bytes (sequence_n b)).

(** A block passes CRC verification. *)
Definition block_valid (cfg : Config) (b : Block) : bool :=
  crc b =? Block_crc cfg b.

Definition same_tables (c c' : Crc16.t) : Prop :=
  Crc16.ltable_ c = Crc16.ltable_ c' /\ Crc16.htable_ c = Crc16.htable_ c'.

(** The entry of the byte-wide table which the two nibble tables stand
    for. *)
Definition table_entry (idx : Z) : Z :=
  Z.lxor (nth (Z.to_nat (Z.land idx 0xF)) Crc16.the_ltable 0)
         (nth (Z.to_nat (Z.shiftr idx 4)) Crc16.the_htable 0).

Definition split_check (x : Z) : bool :=
  (Nat.iter 8 Crc16.spec_shift_bit x
     =? Z.lxor (table_entry (Z.shiftr x 8)) (Z.shiftl (Z.land x 255) 8))
  && (0 <=? table_entry (Z.shiftr x 8)) && (table_entry (Z.shiftr x 8) <? 65536).

(** How many iterations the allocation loop still needs before
    [next_block_n] comes back to [current_block_n]. *)
Definition laps_left (cfg : Config) (current next : Z) : Z :=
  if next <? current then current - next else current - next + kNumBlocks cfg.

(** What the scanner knows about its best candidate so far, on a device
    [m] whose reads leave it as it is. *)
Definition candidate_ok (cfg : Config) {M : Type} {nv : NVMem M} (m : M)
           (seen : list Z) (p : Persist) : Prop :=
  active_block_n_ p = -1 \/
  (In (active_block_n_ p) seen /\
   exists bytes,
     Read m (BlockLocation cfg (active_block_n_ p)) (kBlockSize cfg) = (m, (true, bytes)) /\
     crc (Block_of_bytes cfg bytes) = engine_crc cfg (crc_ p) (Block_of_bytes cfg bytes) /\
     sequence_n (Block_of_bytes cfg bytes) = sequence_ p).

(** Every block of the region can be read and fails CRC verification. *)
Definition no_valid_block (cfg : Config) {M : Type} {nv : NVMem M} (m : M) : Prop :=
  forall i, 0 <= i < kNumBlocks cfg ->
  exists bytes,
    Read m (BlockLocation cfg i) (kBlockSize cfg) = (m, (true, bytes)) /\
    block_valid cfg (Block_of_bytes cfg bytes) = false.

(** *** On the flash device *)

(** The block at index [i]. *)
Definition stored (cfg : Config) (m : Flash) (i : Z) : Block :=
  Block_of_bytes cfg (Flash_read m (BlockLocation cfg i) (kBlockSize cfg)).

Definition valid_at (cfg : Config) (m : Flash) (i : Z) : Prop :=
  block_valid cfg (stored cfg m i) = true.

Definition writable_at (cfg : Config) (m : Flash) (i : Z) : Prop :=
  Flash_writable m (BlockLocation cfg i) (kBlockSize cfg) = true.

(** Circular distance from block [x] forward to block [y]. *)
Definition fwd (cfg : Config) (x y : Z) : Z := (y - x) mod kNumBlocks cfg.

(** How many saves ago sequence number [t] was current, at [s]. *)
Definition age (s t : Z) : Z := (s - t) mod 65536.

(** An erased block does not pass CRC verification. *)
Definition erased_block_invalid (cfg : Config) : Prop :=
  block_valid cfg (Block_of_bytes cfg (repeat kErased (Z.to_nat (kBlockSize cfg)))) = false.

(** What the allocation loop, started at block [c], returns on the flash
    device: the first writable block after [c], or [c] itself when no
    other block is writable. *)
Definition allocated (cfg : Config) (m : Flash) (c n : Z) : Prop :=
  0 <= n < kNumBlocks cfg /\
  ((n <> c /\ writable_at cfg m n /\
    forall j, 0 <= j < kNumBlocks cfg -> 0 < fwd cfg c j < fwd cfg c n ->
              ~ writable_at cfg m j) \/
   (n = c /\ forall j, 0 <= j < kNumBlocks cfg -> j <> c -> ~ writable_at cfg m j)).

(** The block that [Save_commit] builds for record [d] at sequence [s]. *)
Definition new_block (cfg : Config) (d : TData) (s : Z) : Block :=
  mkBlock d s (Block_crc cfg (mkBlock d s 0 []))
          (repeat (kFillByte cfg) (Z.to_nat (kBlockPaddingSize cfg))).

(** The instance and the device agree, and the layout of the region is
    the one that saves produce: the cache holds the active block, which is
    valid; every other valid block is older than the active one, by at
    most its distance to it; no writable block lies between a valid block
    and the active one; within a page, valid blocks come before writable
    ones, and before the active one. *)
Record consistent (cfg : Config) (m : Flash) (p : Persist) : Prop := {
  c_ready : Crc16.ready (crc_ p);
  c_active : 0 <= active_block_n_ p < kNumBlocks cfg;
  c_cache : stored cfg m (active_block_n_ p) = block_ p;
  c_valid : valid_at cfg m (active_block_n_ p);
  c_sequence : sequence_n (block_ p) = sequence_ p;
  c_range : forall k, 0 <= k < kNumBlocks cfg -> valid_at cfg m k ->
      0 <= sequence_n (stored cfg m k) < 65536;
  c_age : forall k, 0 <= k < kNumBlocks cfg -> k <> active_block_n_ p ->
      valid_at cfg m k ->
      1 <= age (sequence_ p) (sequence_n (stored cfg m k)) <= fwd cfg k (active_block_n_ p);
  c_gap : forall k j, 0 <= k < kNumBlocks cfg -> 0 <= j < kNumBlocks cfg ->
      k <> active_block_n_ p -> valid_at cfg m k -> writable_at cfg m j ->
      ~ (0 < fwd cfg k j < fwd cfg k (active_block_n_ p));
  c_page : forall j k, 0 <= j < kNumBlocks cfg -> 0 <= k < kNumBlocks cfg ->
      writable_at cfg m j -> valid_at cfg m k ->
      j / kBlocksPerPage cfg = k / kBlocksPerPage cfg -> k < j;
  c_page_active : forall k, 0 <= k < kNumBlocks cfg -> k <> active_block_n_ p ->
      valid_at cfg m k ->
      k / kBlocksPerPage cfg = active_block_n_ p / kBlocksPerPage cfg ->
      k < active_block_n_ p
}.

(** No block is active and the region holds no valid block. *)
Record blank (cfg : Config) (m : Flash) (p : Persist) : Prop := {
  b_ready : Crc16.ready (crc_ p);
  b_active : active_block_n_ p = -1;
  b_none : forall k, 0 <= k < kNumBlocks cfg -> ~ valid_at cfg m k
}.

(** What must hold of the device just before the new block is written at
    [a], with sequence number [s], for the result to be [consistent]. *)
Record ready_for (cfg : Config) (m1 : Flash) (a s : Z) : Prop := {
  r_range : forall k, 0 <= k < kNumBlocks cfg -> k <> a -> valid_at cfg m1 k ->
      0 <= sequence_n (stored cfg m1 k) < 65536;
  r_age : forall k, 0 <= k < kNumBlocks cfg -> k <> a -> valid_at cfg m1 k ->
      1 <= age s (sequence_n (stored cfg m1 k)) <= fwd cfg k a;
  r_gap : forall k j, 0 <= k < kNumBlocks cfg -> 0 <= j < kNumBlocks cfg ->
      k <> a -> j <> a -> valid_at cfg m1 k -> writable_at cfg m1 j ->
      ~ (0 < fwd cfg k j < fwd cfg k a);
  r_page : forall j k, 0 <= j < kNumBlocks cfg -> 0 <= k < kNumBlocks cfg ->
      j <> a -> k <> a -> writable_at cfg m1 j -> valid_at cfg m1 k ->
      j / kBlocksPerPage cfg = k / kBlocksPerPage cfg -> k < j;
  r_page_new : forall j, 0 <= j < kNumBlocks cfg -> j <> a -> writable_at cfg m1 j ->
      j / kBlocksPerPage cfg = a / kBlocksPerPage cfg -> a < j;
  r_page_active : forall k, 0 <= k < kNumBlocks cfg -> k <> a -> valid_at cfg m1 k ->
      k / kBlocksPerPage cfg = a / kBlocksPerPage cfg -> k < a
}.

(** The state of the scan of [Reset] on the flash device when the blocks
    before index [i] have been visited, [s] being the sequence number of
    the newest block of the region: the candidate, if any, is a valid
    block, and no valid block visited is newer. *)
Definition scanned (cfg : Config) (m : Flash) (s i : Z) (p : Persist) : Prop :=
  Crc16.ready (crc_ p) /\
  ((active_block_n_ p = -1 /\ forall k, 0 <= k < i -> ~ valid_at cfg m k) \/
   (0 <= active_block_n_ p < i /\
    valid_at cfg m (active_block_n_ p) /\
    sequence_ p = sequence_n (stored cfg m (active_block_n_ p)) /\
    forall k, 0 <= k < i -> valid_at cfg m k ->
      age s (sequence_ p) <= age s (sequence_n (stored cfg m k)))).

(** ** Concrete inputs *)

(** An instance on which no block is active. *)
Definition Persist_none : Persist :=
  mkPersist (mkBlock [] 0 0 []) (-1) 0 Crc16.static_init.

(** A device on which writes and reads fail. *)
Definition broken_device : Faulty Flash :=
  mkFaulty Flash_virgin false false true.

(** A full device on which erases fail. *)
Definition unerasable_device : Counted (Faulty Flash) :=
  counted (mkFaulty (fun _ => 0) true true false).

(** The state after [Init; Save; Save] on a counting flash device of two
    pages of one block: the region is full. *)
Definition full_2x1 : option (Counted Flash * Persist) :=
  run cfg_2x1 (counted Flash_virgin) Persist_raw
      [Call_Init; Call_Save [1; 1; 1; 1]; Call_Save [2; 2; 2; 2]].

(** A flash device that holds one block, written by a [Save]. *)
Definition one_block_2x2 : Flash :=
  Flash_write Flash_virgin 0 [1; 2; 3; 4; 1; 0; 64; 206] 8.

(** ** The legacy chain ([LoadLegacy]) *)

(** Two instances see the same static members of the CRC engine: [to]
    with the static part of the engine of [from]. *)
Definition share_statics (from to : Persist) : Persist :=
  mkPersist (block_ to) (active_block_n_ to) (sequence_ to)
            (Crc16.mk (Crc16.initialized_ (crc_ from)) (Crc16.ltable_ (crc_ from))
                      (Crc16.htable_ (crc_ from)) (Crc16.crc_ (crc_ to))).

(** One prior generation [First] of the type list: its template
    parameters, the indeterminate values that the members of
    [l_persist] and the local [l_data] hold before they are assigned, and
    the conversion [static_cast<TData>] from its record to the record of
    the caller. *)
Record Legacy : Type := mkLegacy {
  legacy_config : Config;
  legacy_members : Persist;
  legacy_data : TData;
  legacy_cast : TData -> TData
}.

(** [LoadLegacy<First, Rest...>]; with an empty list it is [Load].  The
    instance comes back too: its view of the static members of the CRC
    engine follows what the prior instances did to them. *)
Fixpoint LoadLegacy {M : Type} {nv : NVMem M} (legacy : list Legacy)
         (m : M) (p : Persist) (out : TData) : M * Persist * TData * Result :=
  match legacy with
  | [] => let '(o, result) := Load p out in (m, p, o, result)
  | First :: Rest =>
      let '(o, result) := Load p out in
      match result with
      | RESULT_FAIL_NO_DATA =>
          let l_persist := share_statics p (legacy_members First) in
          let '(m1, l_persist, result) := Init (legacy_config First) m l_persist in
          match result with
          | RESULT_SUCCESS =>
              let '(m2, l_persist, l_data, result) :=
                LoadLegacy Rest m1 l_persist (legacy_data First) in
              match result with
              | RESULT_SUCCESS =>
                  (m2, share_statics l_persist p, legacy_cast First l_data, result)
              | _ => (m2, share_statics l_persist p, o, result)
              end
          | _ => (m1, share_statics l_persist p, o, result)
          end
      | _ => (m, p, o, result)
      end
  end.

(** ** A device that records the calls it receives *)

Inductive Access : Type :=
| Access_Read (location size : Z)
| Access_Writable (location size : Z)
| Access_Write (location size : Z)
| Access_Erase (location size : Z).

(** The calls, the latest first. *)
Record Logged (M : Type) : Type := mkLogged {
  logged : M;
  accesses : list Access
}.
Arguments mkLogged {M} _ _.
Arguments logged {M} _.
Arguments accesses {M} _.

#[export] Instance Logged_NVMem {M : Type} {nv : NVMem M} : NVMem (Logged M) := {|
  Read c location size :=
    let '(m, r) := Read (logged c) location size in
    (mkLogged m (Access_Read location size :: accesses c), r);
  Writable c location size :=
    let '(m, r) := Writable (logged c) location size in
    (mkLogged m (Access_Writable location size :: accesses c), r);
  Write c location src size :=
    let '(m, r) := Write (logged c) location src size in
    (mkLogged m (Access_Write location size :: accesses c), r);
  Erase c location size :=
    let '(m, r) := Erase (logged c) location size in
    (mkLogged m (Access_Erase location size :: accesses c), r)
|}.

(** A call that stays inside the region: a read, probe or write of one
    whole block of the region; an erase of a range that lies in the region
    and starts and ends on the erase granularity. *)
Definition block_access (cfg : Config) (location size : Z) : Prop :=
  exists n, 0 <= n < kNumBlocks cfg /\
            location = BlockLocation cfg n /\ size = kBlockSize cfg.

Definition access_ok (cfg : Config) (a : Access) : Prop :=
  match a with
  | Access_Read location size => block_access cfg location size
  | Access_Writable location size => block_access cfg location size
  | Access_Write location size => block_access cfg location size
  | Access_Erase location size =>
      0 <= location /\ 0 < size /\ location + size <= kSize cfg /\
      location mod kEraseGranularity cfg = 0 /\
      size mod kEraseGranularity cfg = 0
  end.

Definition is_read (a : Access) : Prop :=
  match a with
  | Access_Read _ _ => True
  | _ => False
  end.

(** The calls made between two states of the recording device. *)
Definition since {M : Type} (m m' : Logged M) (new : list Access) : Prop :=
  accesses m' = new ++ accesses m.

Definition is_probe (a : Access) : Prop :=
  match a with
  | Access_Writable _ _ => True
  | _ => False
  end.

(** ** Vocabulary of the CRC properties *)

(** [GetCRC]'s seed as a function of the version byte. *)
Definition seed_of_version (v : Z) : Z :=
  u16 (Z.lor v (Z.shiftl (Z.lnot v) 8)).

Definition table_entries_check : bool :=
  forallb (fun i => (table_entry i =? Crc16.ComputeTableEntry i)
                    && (0 <=? table_entry i) && (table_entry i <? 65536))
          (range 256).

(** The fault injector around another state of the wrapped device. *)
Definition with_flags {M : Type} (f : Faulty M) (m : M) : Faulty M :=
  mkFaulty m (read_ok f) (write_ok f) (erase_ok f).

(** The conversions of the generations [pre], the oldest applied first. *)
Definition cast_chain (pre : list Legacy) (d : TData) : TData :=
  fold_right (fun l acc => legacy_cast l acc) d pre.

(** ** Concrete inputs of the further properties *)

(** A recording flash device fresh from the factory. *)
Definition blank_log : Logged Flash := mkLogged Flash_virgin [].

(** The device and the instance that a sequence of calls leaves. *)
Definition device_of (s : option (Flash * Persist)) : Flash :=
  match s with Some (m, _) => m | None => Flash_virgin end.

Definition instance_of (s : option (Flash * Persist)) : Persist :=
  match s with Some (_, p) => p | None => Persist_raw end.

(** One record saved on two pages of two blocks. *)
Definition saved_2x2 : option (Flash * Persist) :=
  run cfg_2x2 Flash_virgin Persist_raw [Call_Init; Call_Save [1; 2; 3; 4]].

(** Two pages of one block, both written. *)
Definition full_flash_2x1 : option (Flash * Persist) :=
  run cfg_2x1 Flash_virgin Persist_raw
      [Call_Init; Call_Save [1; 1; 1; 1]; Call_Save [2; 2; 2; 2]].

(** The full device when its writes fail. *)
Definition worn_2x1 : Faulty Flash :=
  mkFaulty (device_of full_flash_2x1) true false true.

(** The region of [cfg_2x2] for the next two versions of the record. *)
Definition cfg_2x2_v2 : Config := mkConfig 32 16 4 0xFF 4 2 true.
Definition cfg_2x2_v3 : Config := mkConfig 32 16 4 0xFF 4 3 true.

(** Version 1 as a prior generation, whose record is read back to
    front, and version 2, whose record is taken as it is. *)
Definition legacy_v1 : Legacy := mkLegacy cfg_2x2 Persist_raw [] (@rev Z).
Definition legacy_v2 : Legacy := mkLegacy cfg_2x2_v2 Persist_raw [] (fun d => d).

(** A valid block of version 1, and the same with one byte of the record
    changed. *)
Definition block_v1 : Block := mkBlock [1; 2; 3; 4] 1 52800 [].
Definition block_v1_corrupt : Block := mkBlock [1; 2; 9; 4] 1 52800 [].

Definition is_erase (a : Access) : Prop :=
  match a with
  | Access_Erase _ _ => True
  | _ => False
  end.

(** ** A device that records the calls and their answers *)

(** The calls, the latest first, each with the value it returned. *)
Record Traced (M : Type) : Type := mkTraced {
  traced : M;
  answers : list (Access * bool)
}.
Arguments mkTraced {M} _ _.
Arguments traced {M} _.
Arguments answers {M} _.

#[export] Instance Traced_NVMem {M : Type} {nv : NVMem M} : NVMem (Traced M) := {|
  Read c location size :=
    let '(m, (ok, bytes)) := Read (traced c) location size in
    (mkTraced m ((Access_Read location size, ok) :: answers c), (ok, bytes));
  Writable c location size :=
    let '(m, w) := Writable (traced c) location size in
    (mkTraced m ((Access_Writable location size, w) :: answers c), w);
  Write c location src size :=
    let '(m, ok) := Write (traced c) location src size in
    (mkTraced m ((Access_Write location size, ok) :: answers c), ok);
  Erase c location size :=
    let '(m, ok) := Erase (traced c) location size in
    (mkTraced m ((Access_Erase location size, ok) :: answers c), ok)
|}.

(** The answered calls of one kind. *)
Definition of_kind (kind : Access -> Prop) (e : Access * bool) : Prop :=
  kind (fst e).

(** ** Concrete inputs: a full region, and an erased block that verifies *)

(** The full region of two pages of one block, under observation. *)
Definition full_log_2x1 : Logged Flash :=
  mkLogged (device_of full_flash_2x1) [].

(** A geometry that the class accepts and on which an erased block passes
    CRC verification: two pages of two blocks of 200 bytes, a record of
    196 bytes, version 207. *)
Definition cfg_erased_valid : Config := mkConfig 800 400 1 0xFF 196 207 true.

(** Block [n] of that region as a save writes it: the record of 196
    bytes [x] with sequence number [s]. *)
Definition put_block (m : Flash) (n s x : Z) : Flash :=
  Flash_write m (BlockLocation cfg_erased_valid n)
    (Block_bytes (new_block cfg_erased_valid (repeat x 196) s))
    (kBlockSize cfg_erased_valid).

(** The region as the saves numbered 65529 to 65532 leave it, save [n]
    writing the record of 196 bytes [n mod 256] with sequence number
    [n - 1]: blocks 2, 3, 0 and 1 in the order of writing. *)
Definition late_device : Flash :=
  put_block (put_block (put_block (put_block Flash_virgin 2 65528 249) 3 65529 250)
                       0 65530 251) 1 65531 252.

(** The region two saves later: blocks 2 and 3 written again. *)
Definition later_device : Flash :=
  put_block (put_block late_device 2 65532 253) 3 65533 254.


(** * Properties *)

(** ** The CRC-16 engine *)

Lemma split_check_all :
  forallb (fun h => forallb (fun l => split_check (256 * h + l)) (range 256)) (range 256) = true.
Proof. vm_compute. reflexivity. Qed.

Lemma range_In n x : 0 <= x < Z.of_nat n -> In x (range n).
Proof.
  intros H. unfold range. apply in_map_iff. exists (Z.to_nat x). split; [lia|].
  apply in_seq. lia.
Qed.

Lemma spec_update_split x : 0 <= x < 65536 ->
  Nat.iter 8 Crc16.spec_shift_bit x = Z.lxor (table_entry (Z.shiftr x 8)) (Z.shiftl (Z.land x 255) 8)
  /\ 0 <= table_entry (Z.shiftr x 8) < 65536.
Proof.
  intros H. pose proof split_check_all as A.
  rewrite forallb_forall in A. assert (R1 : 0 <= x / 256 < Z.of_nat 256).
  { change (Z.of_nat 256) with 256. split; [apply Z.div_pos; lia | apply Z.div_lt_upper_bound; lia]. }
  assert (R2 : 0 <= x mod 256 < Z.of_nat 256).
  { change (Z.of_nat 256) with 256. apply Z.mod_pos_bound; lia. }
  specialize (A (x / 256) (range_In 256 _ R1)).
  cbv beta in A.
  rewrite forallb_forall in A. specialize (A (x mod 256) (range_In 256 _ R2)).
  replace (256 * (x / 256) + x mod 256) with x in A by (rewrite <- Z.div_mod; lia).
  unfold split_check in A. rewrite !andb_true_iff in A. destruct A as [[A B] C].
  split; [apply Z.eqb_eq; exact A | lia].
Qed.

Lemma lxor_range n a b : 0 <= n -> 0 <= a < 2 ^ n -> 0 <= b < 2 ^ n -> 0 <= Z.lxor a b < 2 ^ n.
Proof.
  intros Hn Ha Hb.
  assert (N : 0 <= Z.lxor a b) by (apply Z.lxor_nonneg; lia).
  split; [exact N|].
  destruct (Z.eq_dec (Z.lxor a b) 0) as [E|E]; [rewrite E; lia|].
  assert (P : 0 < n).
  { destruct (Z.eq_dec n 0) as [->|]; [|lia].
    assert (a = 0) by lia. assert (b = 0) by lia. subst. simpl in E. congruence. }
  apply Z.log2_lt_pow2; [lia|].
  eapply Z.le_lt_trans; [apply Z.log2_lxor; lia|].
  apply Z.max_lub_lt.
  - destruct (Z.eq_dec a 0) as [->|]; [simpl; lia|]. apply Z.log2_lt_pow2; lia.
  - destruct (Z.eq_dec b 0) as [->|]; [simpl; lia|]. apply Z.log2_lt_pow2; lia.
Qed.

Lemma land_lxor_distr a b c : Z.land (Z.lxor a b) c = Z.lxor (Z.land a c) (Z.land b c).
Proof.
  apply Z.bits_inj'. intros n _.
  rewrite Z.lxor_spec, !Z.land_spec, Z.lxor_spec.
  destruct (Z.testbit a n), (Z.testbit b n), (Z.testbit c n); reflexivity.
Qed.

Lemma u16_land x : u16 x = Z.land x (Z.ones 16).
Proof. unfold u16. rewrite Z.land_ones by lia. reflexivity. Qed.

Lemma process_byte_spec crc b :
  0 <= crc < 65536 -> is_byte b ->
  Crc16.process_byte Crc16.the_ltable Crc16.the_htable crc b = Crc16.spec_update crc b
  /\ 0 <= Crc16.spec_update crc b < 65536.
Proof.
  intros Hc Hb. unfold is_byte in Hb.
  assert (Hx : 0 <= Z.lxor crc (b * 2 ^ 8) < 2 ^ 16) by (apply lxor_range; lia).
  assert (Hi : 0 <= Z.lxor (Z.shiftr crc 8) b < 2 ^ 8).
  { apply lxor_range; try lia. rewrite Z.shiftr_div_pow2 by lia.
    split; [apply Z.div_pos; lia | apply Z.div_lt_upper_bound; lia]. }
  assert (Hs : Z.shiftr (Z.lxor crc (b * 2 ^ 8)) 8 = Z.lxor (Z.shiftr crc 8) b).
  { rewrite Z.shiftr_lxor. f_equal. rewrite <- Z.shiftl_mul_pow2 by lia.
    rewrite Z.shiftr_shiftl_l by lia. reflexivity. }
  assert (Hl : Z.land (Z.lxor crc (b * 2 ^ 8)) 255 = Z.land crc 255).
  { change 255 with (Z.ones 8). rewrite !Z.land_ones by lia.
    rewrite <- (Z.lxor_0_r (crc mod 2 ^ 8)).
    rewrite <- !Z.land_ones by lia. rewrite land_lxor_distr. f_equal.
    rewrite Z.land_ones by lia. apply Z.mod_mul. lia. }
  destruct (spec_update_split (Z.lxor crc (b * 2 ^ 8)) ltac:(lia)) as [E R].
  unfold Crc16.spec_update. rewrite E. rewrite Hs in *. rewrite Hl.
  assert (Hu : u16 (Z.shiftl crc 8) = Z.shiftl (Z.land crc 255) 8).
  { unfold u16. rewrite !Z.shiftl_mul_pow2 by lia. change 255 with (Z.ones 8).
    rewrite Z.land_ones by lia. change 65536 with (2 ^ 8 * 2 ^ 8).
    rewrite Zmult_mod_distr_r. reflexivity. }
  split.
  - unfold Crc16.process_byte. unfold u8. rewrite (Z.mod_small (Z.lxor (Z.shiftr crc 8) b)) by lia.
    rewrite Z.lxor_assoc. fold (table_entry (Z.lxor (Z.shiftr crc 8) b)).
    rewrite u16_land, land_lxor_distr, <- !u16_land, Hu.
    unfold u16 at 1. rewrite Z.mod_small by lia. apply Z.lxor_comm.
  - rewrite <- Hu. apply (lxor_range 16); try lia. unfold u16. apply Z.mod_pos_bound. lia.
Qed.

Lemma process_bytes_spec data : forall crc,
  0 <= crc < 65536 -> Forall is_byte data ->
  Crc16.process_bytes Crc16.the_ltable Crc16.the_htable crc data = Crc16.spec_crc16 crc data.
Proof.
  unfold Crc16.process_bytes, Crc16.spec_crc16.
  induction data as [|b data IH]; intros crc Hc Hd; [reflexivity|].
  inversion Hd; subst. simpl.
  destruct (process_byte_spec crc b Hc) as [E R]; [assumption|].
  rewrite E. apply IH; assumption.
Qed.

Lemma Init_ready c : Crc16.tables_consistent c -> Crc16.ready (Crc16.Init c).
Proof.
  intros H. unfold Crc16.Init. destruct (Crc16.initialized_ c) eqn:E; simpl.
  - apply H. exact E.
  - split; reflexivity.
Qed.

(** C9: on an engine whose tables [Init] has populated, seeded with any
    16-bit value, [Process] over any sequence of bytes returns the
    reference CRC-16 (polynomial 0x1021, most significant bit first, no
    reflection, no final xor) of the sequence from that seed. *)
Theorem Process_is_reference_crc16 (c : Crc16.t) (seed : Z) (data : list Z) :
  Crc16.tables_consistent c -> 0 <= seed < 65536 -> Forall is_byte data ->
  snd (Crc16.Process (Crc16.Seed (Crc16.Init c) seed) data) = Crc16.spec_crc16 seed data.
Proof.
  intros Hc Hs Hd. destruct (Init_ready c Hc) as [L H].
  unfold Crc16.Process, Crc16.Seed. cbn [snd Crc16.ltable_ Crc16.htable_ Crc16.crc_].
  rewrite L, H. apply process_bytes_spec; assumption.
Qed.

(** ** Region geometry and the sequence comparator *)

Lemma u32_small x : 0 <= x < 2 ^ 32 -> u32 x = x.
Proof. intros H. unfold u32. apply Z.mod_small. lia. Qed.

Lemma u16_small x : 0 <= x < 65536 -> u16 x = x.
Proof. intros H. unfold u16. apply Z.mod_small. lia. Qed.

Lemma u32_nonneg x : 0 <= u32 x.
Proof. unfold u32. apply Z.mod_pos_bound. lia. Qed.

Lemma u16_range x : 0 <= u16 x < 65536.
Proof. unfold u16. apply Z.mod_pos_bound. lia. Qed.

Lemma kNumBlocks_le cfg : kNumBlocks cfg <= 32768.
Proof. unfold kNumBlocks. change (65535 / 2 + 1) with 32768. apply Z.le_min_r. Qed.

Lemma kNumBlocks_nonneg cfg : 0 <= kNumBlocks cfg.
Proof.
  unfold kNumBlocks. change (65535 / 2 + 1) with 32768.
  apply Z.min_glb; [apply u32_nonneg | lia].
Qed.

Section GeometryFacts.

Variable cfg : Config.
Hypothesis OK : static_asserts cfg.

Local Abbreviation BS := (kBlockSize cfg).
Local Abbreviation PS := (kPageSize cfg).
Local Abbreviation B := (kBlocksPerPage cfg).
Local Abbreviation N := (kNumBlocks cfg).
Local Abbreviation P := (kNumPages cfg).

Lemma PadSize_range u g : 0 < g < 2 ^ 32 -> 0 <= PadSize u g < g.
Proof. intros H. unfold PadSize. apply Z.mod_pos_bound. lia. Qed.

Lemma kBlockSize_eq : BS = sizeof_TData cfg + 4 + kBlockPaddingSize cfg.
Proof.
  destruct OK as (_ & _ & Hw & Hs & Hb & _).
  unfold kBlockSize. rewrite u32_small; [lia|].
  assert (0 <= kBlockPaddingSize cfg) by (apply PadSize_range; destruct OK; lia).
  lia.
Qed.

Lemma kBlockSize_pos : 4 < BS.
Proof.
  rewrite kBlockSize_eq. destruct OK as (? & _ & Hw & Hs & _).
  assert (0 <= kBlockPaddingSize cfg) by (apply PadSize_range; lia). lia.
Qed.

Lemma kBlocksPerPage_pos : 0 < B.
Proof. destruct OK as (_ & _ & _ & _ & _ & _ & H & _). lia. Qed.

Lemma kPageSize_range : 0 < PS < 2 ^ 32.
Proof.
  destruct OK as (_ & _ & _ & _ & _ & H & _).   split; [exact H|]. unfold kPageSize, u32. apply Z.mod_pos_bound. lia.
Qed.

Lemma page_holds_blocks : B * BS <= PS.
Proof.
  unfold kBlocksPerPage. pose proof kBlockSize_pos.
  rewrite Z.mul_comm. apply Z.mul_div_le. lia.
Qed.

Lemma region_pages_bound : (kSize cfg / PS) * B < 2 ^ 32.
Proof.
  pose proof kPageSize_range. pose proof page_holds_blocks. pose proof kBlockSize_pos.
  pose proof kBlocksPerPage_pos. destruct OK as (Hk & _).
  assert (0 <= kSize cfg / PS) by (apply Z.div_pos; lia).
  assert (kSize cfg / PS * PS <= kSize cfg) by (rewrite Z.mul_comm; apply Z.mul_div_le; lia).
  nia.
Qed.

Lemma kNumBlocks_eq : N = Z.min ((kSize cfg / PS) * B) 32768.
Proof.
  unfold kNumBlocks. rewrite u32_small; [reflexivity|].
  pose proof region_pages_bound. pose proof kPageSize_range. pose proof kBlocksPerPage_pos.
  destruct OK as (Hk & _).
  assert (0 <= kSize cfg / PS) by (apply Z.div_pos; lia). nia.
Qed.

Lemma kNumBlocks_range : 0 < N <= 32768.
Proof.
  split.
  - destruct OK as (_ & _ & _ & _ & _ & _ & _ & _ & H & _). lia.
  - rewrite kNumBlocks_eq. lia.
Qed.

Lemma kNumPages_eq : P = (N + B - 1) / B.
Proof.
  unfold kNumPages. rewrite u32_small; [reflexivity|].
  pose proof kNumBlocks_range. pose proof kBlocksPerPage_pos.
  pose proof kPageSize_range. pose proof kBlockSize_pos.
  pose proof page_holds_blocks. nia.
Qed.

Lemma kNumPages_pos : 0 < P.
Proof. destruct OK as (_ & _ & _ & _ & _ & _ & _ & H & _). lia. Qed.

(** Every block index lies in a page of the region. *)
Lemma blocks_fit_pages : N <= P * B.
Proof.
  rewrite kNumPages_eq. pose proof kBlocksPerPage_pos.
  pose proof (Z.div_mod (N + B - 1) B ltac:(lia)).
  pose proof (Z.mod_pos_bound (N + B - 1) B ltac:(lia)). nia.
Qed.

Lemma pages_fit_region : P * PS <= kSize cfg.
Proof.
  pose proof kBlocksPerPage_pos. pose proof kPageSize_range. destruct OK as (Hk & _).
  assert (Q : P <= kSize cfg / PS).
  { assert (0 <= kSize cfg / PS) by (apply Z.div_pos; lia).
    cut (P < kSize cfg / PS + 1); [lia|].
    rewrite kNumPages_eq. apply Z.div_lt_upper_bound; [lia|].
    rewrite kNumBlocks_eq. nia. }
  assert (kSize cfg / PS * PS <= kSize cfg) by (rewrite Z.mul_comm; apply Z.mul_div_le; lia).
  nia.
Qed.

Lemma page_of_block n : 0 <= n < N -> 0 <= n / B < P.
Proof.
  intros H. pose proof kBlocksPerPage_pos. pose proof blocks_fit_pages.
  split; [apply Z.div_pos; lia|]. apply Z.div_lt_upper_bound; nia.
Qed.

Lemma BlockLocation_eq n : 0 <= n < N ->
  BlockLocation cfg n = (n / B) * PS + (n mod B) * BS.
Proof.
  intros H. unfold BlockLocation.
  pose proof kBlocksPerPage_pos. pose proof kPageSize_range. pose proof kBlockSize_pos.
  pose proof (page_of_block n H). pose proof pages_fit_region. pose proof page_holds_blocks.
  pose proof kNumBlocks_range. destruct OK as (Hk & _).
  pose proof (Z.mod_pos_bound n B ltac:(lia)).
  assert (E : n - n / B * B = n mod B) by (rewrite Z.mod_eq by lia; lia).
  rewrite (u32_small n) by lia.
  rewrite (u32_small (n / B * B)) by nia.
  rewrite E. rewrite (u32_small (n mod B)) by lia.
  rewrite (u32_small (n / B * PS)) by nia.
  rewrite (u32_small (n mod B * BS)) by nia.
  apply u32_small. nia.
Qed.

(** A block lies inside its page. *)
Lemma block_in_page n : 0 <= n < N ->
  (n / B) * PS <= BlockLocation cfg n /\
  BlockLocation cfg n + BS <= (n / B) * PS + PS.
Proof.
  intros H. rewrite BlockLocation_eq by assumption.
  pose proof kBlocksPerPage_pos. pose proof kBlockSize_pos. pose proof page_holds_blocks.
  pose proof (Z.mod_pos_bound n B ltac:(lia)). nia.
Qed.

(** Distinct blocks do not overlap. *)
Lemma blocks_disjoint i j : 0 <= i < N -> 0 <= j < N -> i <> j ->
  BlockLocation cfg i + BS <= BlockLocation cfg j \/
  BlockLocation cfg j + BS <= BlockLocation cfg i.
Proof.
  intros Hi Hj D. 
  pose proof (block_in_page i Hi). pose proof (block_in_page j Hj).
  rewrite !BlockLocation_eq in * by assumption.
  pose proof kBlocksPerPage_pos. pose proof kBlockSize_pos. pose proof page_holds_blocks.
  pose proof kPageSize_range.
  pose proof (Z.mod_pos_bound i B ltac:(lia)). pose proof (Z.mod_pos_bound j B ltac:(lia)).
  pose proof (Z.div_mod i B ltac:(lia)). pose proof (Z.div_mod j B ltac:(lia)).
  destruct (Z.lt_trichotomy (i / B) (j / B)) as [L|[E|L]].
  - left. nia.
  - rewrite E in *. destruct (Z.lt_trichotomy (i mod B) (j mod B)) as [L|[E'|L]].
    + left. nia.
    + exfalso. apply D. lia.
    + right. nia.
  - right. nia.
Qed.

End GeometryFacts.

Lemma in_range_iff l s a : in_range l s a = true <-> l <= a < l + s.
Proof. unfold in_range. rewrite andb_true_iff, Z.leb_le, Z.ltb_lt. tauto. Qed.

Lemma In_addresses l s a : In a (addresses l s) <-> l <= a < l + s.
Proof.
  unfold addresses, range. rewrite in_map_iff. split.
  - intros (k & <- & Hk). apply in_map_iff in Hk. destruct Hk as (n & <- & Hn).
    apply in_seq in Hn. lia.
  - intros H. exists (a - l). split; [lia|]. apply in_map_iff.
    exists (Z.to_nat (a - l)). split; [lia|]. apply in_seq. lia.
Qed.

Lemma Flash_read_ext (m m' : Flash) l s :
  (forall a, l <= a < l + s -> m' a = m a) -> Flash_read m' l s = Flash_read m l s.
Proof.
  intros H. unfold Flash_read. apply map_ext_in. intros a Ha.
  apply H. apply In_addresses. exact Ha.
Qed.

Lemma Flash_erase_outside m l s a : ~ (l <= a < l + s) -> Flash_erase m l s a = m a.
Proof.
  intros H. unfold Flash_erase. destruct (in_range l s a) eqn:E; [|reflexivity].
  apply in_range_iff in E. contradiction.
Qed.

Lemma Flash_write_outside m l src s a : ~ (l <= a < l + s) -> Flash_write m l src s a = m a.
Proof.
  intros H. unfold Flash_write. destruct (in_range l s a) eqn:E; [|reflexivity].
  apply in_range_iff in E. contradiction.
Qed.

(** The first block of a page, as [Save] computes it after an erase. *)
Lemma next_page_block cfg (OK : static_asserts cfg) a :
  0 <= a < kNumBlocks cfg ->
  let next_page := u32 (a / kBlocksPerPage cfg + 1) mod kNumPages cfg in
  0 <= next_page < kNumPages cfg /\
  u32 (next_page * kPageSize cfg) = next_page * kPageSize cfg /\
  u32 (next_page * kBlocksPerPage cfg) = next_page * kBlocksPerPage cfg /\
  0 <= next_page * kBlocksPerPage cfg < kNumBlocks cfg /\
  BlockLocation cfg (next_page * kBlocksPerPage cfg) = next_page * kPageSize cfg.
Proof.
  intros Ha next_page.
  pose proof (kNumPages_pos cfg OK) as HP. pose proof (kBlocksPerPage_pos cfg OK) as HB.
  pose proof (kPageSize_range cfg OK) as HPS. pose proof (pages_fit_region cfg OK) as HR.
  pose proof (kNumBlocks_range cfg OK) as HN. pose proof (kNumPages_eq cfg OK) as EP.
  pose proof (page_holds_blocks cfg OK) as HH. pose proof (kBlockSize_pos cfg OK) as HBS.
  assert (Hk : 0 <= kSize cfg < 2 ^ 32) by (destruct OK; assumption).
  assert (R : 0 <= next_page < kNumPages cfg) by (apply Z.mod_pos_bound; lia).
  assert (L : next_page * kBlocksPerPage cfg < kNumBlocks cfg).
  { assert (Q : kNumPages cfg - 1 < (kNumBlocks cfg + kBlocksPerPage cfg - 1) / kBlocksPerPage cfg) by lia.
    pose proof (Z.div_mod (kNumBlocks cfg + kBlocksPerPage cfg - 1) (kBlocksPerPage cfg) ltac:(lia)).
    pose proof (Z.mod_pos_bound (kNumBlocks cfg + kBlocksPerPage cfg - 1) (kBlocksPerPage cfg) ltac:(lia)).
    nia. }
  split; [exact R|]. split; [apply u32_small; nia|]. split; [apply u32_small; nia|].
  split; [nia|].
  rewrite BlockLocation_eq by (try assumption; nia).
  rewrite Z.div_mul, Z.mod_mul by lia. lia.
Qed.

(** With at least two pages, the page after the page of block [a], modulo
    [kNumPages], shares no byte with block [a]; on the flash device its
    erase, and the write of its first block, leave the bytes of block [a]
    as they were. *)
Lemma next_page_spares_block cfg a :
  static_asserts cfg -> kNumPages cfg >= 2 -> 0 <= a < kNumBlocks cfg ->
  let current_page := u32 a / kBlocksPerPage cfg in
  let next_page := u32 (current_page + 1) mod kNumPages cfg in
  let erased := u32 (next_page * kPageSize cfg) in
  let next_block := u32 (next_page * kBlocksPerPage cfg) in
  (forall x, in_range erased (kPageSize cfg) x = true ->
             in_range (BlockLocation cfg a) (kBlockSize cfg) x = true -> False) /\
  (forall (m : Flash) (src : list Z),
     let m1 := Flash_erase m erased (kPageSize cfg) in
     let m2 := Flash_write m1 (BlockLocation cfg next_block) src (kBlockSize cfg) in
     Flash_read m1 (BlockLocation cfg a) (kBlockSize cfg)
       = Flash_read m (BlockLocation cfg a) (kBlockSize cfg) /\
     Flash_read m2 (BlockLocation cfg a) (kBlockSize cfg)
       = Flash_read m (BlockLocation cfg a) (kBlockSize cfg)).
Proof.
  intros OK HP Ha. pose proof (kNumBlocks_le cfg) as HNle.
  cbv zeta. rewrite (u32_small a) by lia.
  set (next_page := u32 (a / kBlocksPerPage cfg + 1) mod kNumPages cfg).
  set (erased := u32 (next_page * kPageSize cfg)).
  set (next_block := u32 (next_page * kBlocksPerPage cfg)).
  destruct (next_page_block cfg OK a Ha) as (R & E1 & E2 & R2 & E3).
  fold next_page in R, E1, E2, R2, E3.
  pose proof (block_in_page cfg OK a Ha) as [I1 I2].
  pose proof (page_of_block cfg OK a Ha) as Pg.
  pose proof (kPageSize_range cfg OK) as HPS.
  pose proof (kBlockSize_pos cfg OK) as HBS.
  assert (HPb : kNumPages cfg < 2 ^ 32).
  { pose proof (pages_fit_region cfg OK). destruct OK as (? & _). nia. }
  assert (D : next_page <> a / kBlocksPerPage cfg).
  { unfold next_page. rewrite u32_small by lia.
    destruct (Z.eq_dec (a / kBlocksPerPage cfg + 1) (kNumPages cfg)) as [E|E].
    - rewrite E, Z.mod_same by lia. lia.
    - rewrite Z.mod_small by lia. lia. }
  assert (S : forall x, erased <= x < erased + kPageSize cfg ->
                        BlockLocation cfg a <= x < BlockLocation cfg a + kBlockSize cfg -> False).
  { unfold erased. rewrite E1. intros x H1 H2.
    destruct (Z.lt_trichotomy next_page (a / kBlocksPerPage cfg)) as [L|[L|L]]; [|lia|].
    - assert ((next_page + 1) * kPageSize cfg <= a / kBlocksPerPage cfg * kPageSize cfg)
        by (apply Z.mul_le_mono_nonneg_r; lia). lia.
    - assert ((a / kBlocksPerPage cfg + 1) * kPageSize cfg <= next_page * kPageSize cfg)
        by (apply Z.mul_le_mono_nonneg_r; lia). lia. }
  split.
  - intros x H1 H2. apply in_range_iff in H1, H2. eauto.
  - intros m src. set (m1 := Flash_erase m erased (kPageSize cfg)).
    assert (F1 : forall x, BlockLocation cfg a <= x < BlockLocation cfg a + kBlockSize cfg ->
                           m1 x = m x).
    { intros x Hx. apply Flash_erase_outside. intros Hy. eauto. }
    split; [apply Flash_read_ext; exact F1|].
    apply Flash_read_ext. intros x Hx. rewrite <- F1 by exact Hx.
    apply Flash_write_outside. unfold next_block. rewrite E2, E3. fold erased in E1.
    intros Hy. apply (S x); [|exact Hx]. rewrite <- E1 in Hy.
    pose proof (block_in_page cfg OK _ R2) as [J1 J2].
    rewrite E3 in J1, J2. rewrite Z.div_mul in J2 by (pose proof (kBlocksPerPage_pos cfg OK); lia).
    lia.
Qed.

Lemma static_asserts_2x1 : static_asserts cfg_2x1.
Proof. unfold static_asserts. vm_compute. intuition congruence. Qed.

Lemma static_asserts_2x2 : static_asserts cfg_2x2.
Proof. unfold static_asserts. vm_compute. intuition congruence. Qed.

Lemma static_asserts_capped : static_asserts cfg_capped.
Proof. unfold static_asserts. vm_compute. intuition congruence. Qed.

(** C8 as the code has it: [kNumBlocks] is the smaller of
    [(kSize / kPageSize) * kBlocksPerPage] and [2^15], and [kNumPages] is
    [kNumBlocks / kBlocksPerPage] rounded up; when the cap does not apply,
    [kNumPages = kSize / kPageSize] and
    [kNumBlocks = kNumPages * kBlocksPerPage]. *)
Theorem region_constants cfg :
  static_asserts cfg ->
  kNumBlocks cfg = Z.min (kSize cfg / kPageSize cfg * kBlocksPerPage cfg) (2 ^ 15) /\
  kNumPages cfg = (kNumBlocks cfg + kBlocksPerPage cfg - 1) / kBlocksPerPage cfg /\
  kNumBlocks cfg <= 2 ^ 15 /\
  (kSize cfg / kPageSize cfg * kBlocksPerPage cfg <= 2 ^ 15 ->
   kNumPages cfg = kSize cfg / kPageSize cfg /\
   kNumBlocks cfg = kNumPages cfg * kBlocksPerPage cfg).
Proof.
  intros OK.
  pose proof (kNumBlocks_eq cfg OK) as EN. pose proof (kNumPages_eq cfg OK) as EP.
  pose proof (kBlocksPerPage_pos cfg OK) as HB.
  change (2 ^ 15) with 32768.
  split; [exact EN|]. split; [exact EP|]. split; [lia|].
  intros U. rewrite Z.min_l in EN by exact U.
  assert (E : kNumPages cfg = kSize cfg / kPageSize cfg).
  { rewrite EP, EN.
    replace (kSize cfg / kPageSize cfg * kBlocksPerPage cfg + kBlocksPerPage cfg - 1)
      with (kBlocksPerPage cfg - 1 + kSize cfg / kPageSize cfg * kBlocksPerPage cfg) by lia.
    rewrite Z.div_add by lia. rewrite Z.div_small by lia. lia. }
  split; [exact E|]. rewrite E. exact EN.
Qed.

Lemma region_constants_witness :
  static_asserts cfg_2x2 /\
  kNumPages cfg_2x2 = (kNumBlocks cfg_2x2 + kBlocksPerPage cfg_2x2 - 1) / kBlocksPerPage cfg_2x2.
Proof.
  split; [exact static_asserts_2x2|].
  exact (proj1 (proj2 (region_constants cfg_2x2 static_asserts_2x2))).
Defined.

(** C8 as stated fails where the cap applies: the geometry is accepted,
    [kNumPages] (10923) is not [kSize / kPageSize] (20000), and
    [kNumBlocks] (32768) is not [kNumPages * kBlocksPerPage] (32769). *)
Lemma region_constants_counterexample :
  static_asserts cfg_capped /\
  kNumPages cfg_capped <> kSize cfg_capped / kPageSize cfg_capped /\
  kNumBlocks cfg_capped <> kNumPages cfg_capped * kBlocksPerPage cfg_capped.
Proof.
  split; [exact static_asserts_capped|]. split; vm_compute; discriminate.
Qed.

(** C2 as the code has it: on 16-bit sequence numbers [a] (candidate) and
    [b] (current best) the scanner accepts [a] exactly when [a > b] and
    [(a - b) mod 2^16] lies in (0, kNumBlocks), or [a < b] and
    [(a - b) mod 2^16] lies in (0, 2^16 - kNumBlocks]; every [a] with
    [(a - b) mod 2^16] in (0, kNumBlocks) is accepted. *)
Theorem seq_accept_modular cfg a b :
  static_asserts cfg -> 0 <= a < 2 ^ 16 -> 0 <= b < 2 ^ 16 ->
  (seq_accept (kNumBlocks cfg) a b = true <->
     (a > b /\ 0 < (a - b) mod 2 ^ 16 < kNumBlocks cfg) \/
     (a < b /\ 0 < (a - b) mod 2 ^ 16 <= 2 ^ 16 - kNumBlocks cfg)) /\
  (0 < (a - b) mod 2 ^ 16 < kNumBlocks cfg -> seq_accept (kNumBlocks cfg) a b = true).
Proof.
  intros OK Ha Hb. pose proof (kNumBlocks_range cfg OK) as HN.
  change (2 ^ 16) with 65536 in *.
  unfold seq_accept.
  rewrite orb_true_iff, !andb_true_iff, Z.gtb_ltb, !Z.ltb_lt, Z.geb_le.
  destruct (Z.lt_trichotomy a b) as [L|[E|L]].
  - assert (M : (a - b) mod 65536 = a - b + 65536).
    { symmetry. apply (Z.mod_unique_pos _ _ (-1)); lia. }
    rewrite M. split; [split|]; lia.
  - subst. rewrite Z.sub_diag, Z.mod_0_l by lia. split; [split|]; lia.
  - rewrite (Z.mod_small (a - b)) by lia. split; [split|]; lia.
Qed.

Lemma seq_accept_modular_witness :
  static_asserts cfg_2x2 /\ 0 <= 2 < 2 ^ 16 /\ 0 <= 65535 < 2 ^ 16 /\
  seq_accept (kNumBlocks cfg_2x2) 2 65535 = true.
Proof.
  assert (H1 : 0 <= 2 < 2 ^ 16) by (vm_compute; intuition congruence).
  assert (H2 : 0 <= 65535 < 2 ^ 16) by (vm_compute; intuition congruence).
  assert (H3 : 0 < (2 - 65535) mod 2 ^ 16 < kNumBlocks cfg_2x2)
    by (vm_compute; intuition congruence).
  split; [exact static_asserts_2x2|]. split; [exact H1|]. split; [exact H2|].
  exact (proj2 (seq_accept_modular cfg_2x2 2 65535 static_asserts_2x2 H1 H2) H3).
Defined.

(** C2 as stated fails with four blocks: the scanner accepts 0 over 10
    although [(0 - 10) mod 2^16 = 65526] is not in (0, 4], and rejects 4
    over 0 although [(4 - 0) mod 2^16 = 4] is in (0, 4]. *)
Lemma seq_accept_counterexample :
  static_asserts cfg_2x2 /\ kNumBlocks cfg_2x2 = 4 /\
  ~ (seq_accept (kNumBlocks cfg_2x2) 0 10 = true <->
     0 < (0 - 10) mod 2 ^ 16 <= kNumBlocks cfg_2x2) /\
  ~ (seq_accept (kNumBlocks cfg_2x2) 4 0 = true <->
     0 < (4 - 0) mod 2 ^ 16 <= kNumBlocks cfg_2x2).
Proof.
  split; [exact static_asserts_2x2|]. split; [reflexivity|].
  split; vm_compute; intros [H1 H2].
  - destruct (H1 eq_refl) as [_ H]. apply H. reflexivity.
  - assert (H : false = true) by (apply H2; split; [reflexivity | discriminate]).
    discriminate H.
Qed.

(** ** The allocation loop and the commit step, on any device *)

Lemma bytes_eqb_eq a : forall b, bytes_eqb a b = true <-> a = b.
Proof.
  induction a as [|x a IH]; intros [|y b]; simpl; try (split; congruence).
  rewrite andb_true_iff, Z.eqb_eq, IH. split; [intros [-> ->]; reflexivity|].
  intros E. inversion E. auto.
Qed.

Section DriverFacts.

Variable cfg : Config.
Context {M : Type} {nv : NVMem M}.

Local Abbreviation N := (kNumBlocks cfg).


Lemma NextWritableBlock_loop_total fuel : forall (m : M) current next,
  0 <= current < N -> 0 <= next < N ->
  laps_left cfg current next <= Z.of_nat fuel ->
  exists m1 n1, NextWritableBlock_loop cfg fuel m current next = Some (m1, n1)
                /\ 0 <= n1 < N.
Proof.
  induction fuel as [|fuel IH]; intros m current next Hc Hn Hl.
  - exfalso. unfold laps_left in Hl. destruct (next <? current) eqn:E;
      [apply Z.ltb_lt in E | apply Z.ltb_ge in E]; lia.
  - pose proof (kNumBlocks_le cfg) as HN.
    cbn [NextWritableBlock_loop]. rewrite (u32_small (next + 1)) by lia.
    assert (R : 0 <= (next + 1) mod N < N) by (apply Z.mod_pos_bound; lia).
    destruct (Writable m (BlockLocation cfg ((next + 1) mod N)) (kBlockSize cfg)) as [m1 w].
    destruct w; [eauto|].
    destruct ((next + 1) mod N =? current) eqn:E; cbn [negb]; [eauto|].
    apply Z.eqb_neq in E. apply IH; [assumption..|].
    unfold laps_left in *.
    destruct (Z.eq_dec (next + 1) N) as [F|F].
    + rewrite F, Z.mod_same in * by lia.
      destruct (next <? current) eqn:E1; [apply Z.ltb_lt in E1; lia|].
      destruct (0 <? current) eqn:E2; [lia | apply Z.ltb_ge in E2; lia].
    + rewrite Z.mod_small in * by lia.
      destruct (next <? current) eqn:E1; [apply Z.ltb_lt in E1 | apply Z.ltb_ge in E1];
        (destruct (next + 1 <? current) eqn:E2;
         [apply Z.ltb_lt in E2 | apply Z.ltb_ge in E2]); lia.
Qed.

(** The result of the loop is never negative. *)
Lemma NextWritableBlock_loop_nonneg fuel : forall (m : M) current next m1 n1,
  NextWritableBlock_loop cfg fuel m current next = Some (m1, n1) -> 0 <= n1.
Proof.
  induction fuel as [|fuel IH]; intros m current next m1 n1; cbn [NextWritableBlock_loop].
  - discriminate.
  - assert (R : 0 <= u32 (next + 1) mod N).
    { pose proof (u32_nonneg (next + 1)).
      destruct (Z.eq_dec N 0) as [->|D]; [rewrite Z.mod_0_r; assumption|].
      pose proof (kNumBlocks_nonneg cfg).
      apply Z.mod_pos_bound. lia. }
    destruct (Writable m _ _) as [m' w]. destruct w.
    + intros E. inversion E. subst. exact R.
    + destruct (negb _).
      * apply IH.
      * intros E. inversion E. subst. exact R.
Qed.

Lemma NextWritableBlock_total (m : M) current :
  0 < N -> -1 <= current < N ->
  exists m1 n1, NextWritableBlock cfg m current = Some (m1, n1) /\ -1 <= n1 < N.
Proof.
  intros HN Hc. unfold NextWritableBlock.
  set (c := if current =? -1 then N - 1 else current).
  assert (Rc : 0 <= c < N).
  { unfold c. destruct (current =? -1) eqn:E; [lia|]. apply Z.eqb_neq in E. lia. }
  destruct (NextWritableBlock_loop_total (Z.to_nat N) m c c Rc Rc) as (m1 & n1 & E & R).
  { unfold laps_left. rewrite Z.ltb_irrefl. lia. }
  rewrite E. exists m1. eexists. split; [reflexivity|].
  destruct (n1 =? c); lia.
Qed.

Lemma NextWritableBlock_result (m : M) current m1 n1 :
  NextWritableBlock cfg m current = Some (m1, n1) -> n1 = -1 \/ 0 <= n1.
Proof.
  unfold NextWritableBlock.
  destruct (NextWritableBlock_loop _ _ _ _ _) as [[m' n']|] eqn:E; [|discriminate].
  intros F. inversion F. subst. apply NextWritableBlock_loop_nonneg in E.
  destruct (n' =? _); [left; reflexivity | right; exact E].
Qed.

(** What [Save_commit] leaves behind when it succeeds. *)
Lemma Save_commit_result (m : M) p nb d :
  let '(m1, p1, r) := Save_commit cfg m p nb d in
  (r = RESULT_SUCCESS /\ active_block_n_ p1 = nb /\ data (block_ p1) = d
   /\ sequence_ p1 = sequence_ p) \/
  r = RESULT_FAIL_WRITE.
Proof.
  unfold Save_commit.
  destruct (GetCRC cfg _ _) as [c v].
  destruct (Write m _ _ _) as [m1 ok]. destruct ok; cbn [negb].
  - left. repeat split.
  - destruct (Reset cfg m1 _) as [[m2 p2] r]. right. reflexivity.
Qed.

End DriverFacts.

(** ** Results and effects of [Save], on any device *)

Lemma bytes_eqb_refl a : bytes_eqb a a = true.
Proof. apply bytes_eqb_eq. reflexivity. Qed.

Section SaveFacts.

Variable cfg : Config.
Context {M : Type} {nv : NVMem M}.

(** [Save] returns, and returns [RESULT_SUCCESS], [RESULT_FAIL_ERASE] or
    [RESULT_FAIL_WRITE], whatever the driver does (the result of the
    [Reset] that follows a failed write is dropped). *)
Lemma Save_returns (m : M) (p : Persist) (d : TData) :
  kNumBlocks cfg > 0 -> -1 <= active_block_n_ p < kNumBlocks cfg ->
  exists m' p' r,
    Save cfg m p d = Some (m', p', r) /\
    (r = RESULT_SUCCESS \/ r = RESULT_FAIL_ERASE \/ r = RESULT_FAIL_WRITE).
Proof.
  intros HN Ha. unfold Save.
  destruct (DataIsSame p d); [eauto 6|].
  destruct (NextWritableBlock_total cfg m (active_block_n_ p) ltac:(lia) Ha)
    as (m1 & n1 & E & _).
  rewrite E.
  assert (C : forall m2 p2 nb, exists m' p' r,
             Some (Save_commit cfg m2 p2 nb d) = Some (m', p', r) /\
             (r = RESULT_SUCCESS \/ r = RESULT_FAIL_ERASE \/ r = RESULT_FAIL_WRITE)).
  { intros m2 p2 nb. pose proof (Save_commit_result cfg m2 p2 nb d) as R.
    destruct (Save_commit cfg m2 p2 nb d) as [[m' p'] r].
    exists m', p', r. split; [reflexivity|]. intuition. }
  destruct (n1 =? -1); [|apply C].
  destruct (active_block_n_ p =? -1).
  - destruct (Erase m1 _ _) as [m2 ok]. destruct ok; cbn [negb]; [apply C | eauto 7].
  - destruct (Erase m1 _ _) as [m2 ok]. destruct ok; cbn [negb]; [apply C | eauto 7].
Qed.


End SaveFacts.

Section CountedFacts.

Variable cfg : Config.
Context {M : Type} {nv : NVMem M}.

Lemma NextWritableBlock_loop_counts fuel : forall (m : Counted M) current next m1 n1,
  NextWritableBlock_loop cfg fuel m current next = Some (m1, n1) ->
  n_write m1 = n_write m /\ n_erase m1 = n_erase m.
Proof.
  induction fuel as [|fuel IH]; intros m current next m1 n1; cbn [NextWritableBlock_loop].
  - discriminate.
  - cbn [Writable Counted_NVMem].
    destruct (Writable (device m) _ _) as [m' w].
    destruct w; [intros E; inversion E; subst; split; reflexivity|].
    destruct (negb _).
    + intros E. apply IH in E. cbn in E. exact E.
    + intros E; inversion E; subst; split; reflexivity.
Qed.

Lemma NextWritableBlock_counts (m : Counted M) current m1 n1 :
  NextWritableBlock cfg m current = Some (m1, n1) ->
  n_write m1 = n_write m /\ n_erase m1 = n_erase m.
Proof.
  unfold NextWritableBlock.
  destruct (NextWritableBlock_loop _ _ _ _ _) as [[m' n']|] eqn:E; [|discriminate].
  intros F. inversion F. subst. eapply NextWritableBlock_loop_counts. exact E.
Qed.

Lemma Erase_counts (m : Counted M) l s :
  n_write (fst (Erase m l s)) = n_write m /\
  n_erase (fst (Erase m l s)) = S (n_erase m).
Proof.
  cbn [Erase Counted_NVMem]. destruct (Erase (device m) l s). split; reflexivity.
Qed.

(** A successful [Save_commit] issued one [Write] and no [Erase]. *)
Lemma Save_commit_counts (m : Counted M) p nb d m1 p1 :
  Save_commit cfg m p nb d = (m1, p1, RESULT_SUCCESS) ->
  n_write m1 = S (n_write m) /\ n_erase m1 = n_erase m.
Proof.
  unfold Save_commit. destruct (GetCRC cfg _ _) as [c v].
  cbn [Write Counted_NVMem].
  destruct (Write (device m) _ _ _) as [m' ok]. destruct ok; cbn [negb].
  - intros E. inversion E. subst. split; reflexivity.
  - destruct (Reset cfg _ _) as [[m2 p2] r]. discriminate.
Qed.

Lemma Save_commit_not_FAIL_ERASE (m : Counted M) p nb d m1 p1 :
  Save_commit cfg m p nb d <> (m1, p1, RESULT_FAIL_ERASE).
Proof.
  intros E. pose proof (Save_commit_result cfg m p nb d) as R. rewrite E in R.
  destruct R as [(R & _)|R]; discriminate.
Qed.

(** C10: a [Save] that returns [RESULT_FAIL_ERASE] leaves the instance as
    it was (cached block, active block, sequence number, CRC engine) and
    has issued no [Write]. *)
Theorem Save_FAIL_ERASE_atomic (m : Counted M) (p : Persist) (d : TData) m' p' :
  Save cfg m p d = Some (m', p', RESULT_FAIL_ERASE) ->
  p' = p /\ n_write m' = n_write m.
Proof.
  unfold Save. destruct (DataIsSame p d); [discriminate|].
  destruct (NextWritableBlock cfg m (active_block_n_ p)) as [[m1 n1]|] eqn:E;
    [|discriminate].
  apply NextWritableBlock_counts in E. destruct E as [W _].
  assert (C : forall m2 p2 nb,
             Some (Save_commit cfg m2 p2 nb d) = Some (m', p', RESULT_FAIL_ERASE) -> False).
  { intros m2 p2 nb F.
    assert (G : Save_commit cfg m2 p2 nb d = (m', p', RESULT_FAIL_ERASE)) by congruence.
    eapply Save_commit_not_FAIL_ERASE. exact G. }
  destruct (n1 =? -1); [|intros F; destruct (C _ _ _ F)].
  destruct (active_block_n_ p =? -1).
  - pose proof (Erase_counts m1 0 (u32 (kNumPages cfg * kPageSize cfg))) as [W1 _].
    destruct (Erase m1 _ _) as [m2 ok]. destruct ok; cbn [negb].
    + intros F; destruct (C _ _ _ F).
    + intros F. inversion F. subst. cbn [fst] in W1. split; [reflexivity | congruence].
  - match goal with |- context [Erase m1 ?l ?s] => pose proof (Erase_counts m1 l s) as [W1 _];
      destruct (Erase m1 l s) as [m2 ok] end.
    destruct ok; cbn [negb].
    + intros F; destruct (C _ _ _ F).
    + intros F. inversion F. subst. cbn [fst] in W1. split; [reflexivity | congruence].
Qed.

(** C7 as the code has it: with a block active whose cached data equal
    [d], [Save(d)] returns [RESULT_SUCCESS] and calls no driver function;
    so once a [Save(d)] has returned [RESULT_SUCCESS], a second [Save(d)]
    calls no driver function, and the pair has issued at most one [Write]
    and at most one [Erase]. *)
Theorem Save_same_data (m : Counted M) (p : Persist) (d : TData) :
  (active_block_n_ p <> -1 -> data (block_ p) = d ->
   Save cfg m p d = Some (m, p, RESULT_SUCCESS)) /\
  (forall m1 p1,
     Save cfg m p d = Some (m1, p1, RESULT_SUCCESS) ->
     Save cfg m1 p1 d = Some (m1, p1, RESULT_SUCCESS) /\
     (n_write m1 <= S (n_write m))%nat /\ (n_erase m1 <= S (n_erase m))%nat).
Proof.
  assert (Short : forall (m0 : Counted M) p0, active_block_n_ p0 <> -1 -> data (block_ p0) = d ->
                  Save cfg m0 p0 d = Some (m0, p0, RESULT_SUCCESS)).
  { intros m0 p0 Ha Hd. unfold Save, DataIsSame.
    apply Z.eqb_neq in Ha. rewrite Ha, Hd, bytes_eqb_refl. reflexivity. }
  split; [apply Short|].
  intros m1 p1. unfold Save at 1. destruct (DataIsSame p d) eqn:Same.
  - intros E. inversion E. subst. split; [|split; lia].
    unfold DataIsSame in Same. apply andb_true_iff in Same. destruct Same as [S1 S2].
    apply Short; [|apply bytes_eqb_eq; exact S2].
    apply negb_true_iff, Z.eqb_neq in S1. exact S1.
  - destruct (NextWritableBlock cfg m (active_block_n_ p)) as [[m2 n2]|] eqn:E;
      [|discriminate].
    pose proof (NextWritableBlock_result cfg _ _ _ _ E) as Rn.
    apply NextWritableBlock_counts in E. destruct E as [W0 E0].
    assert (C : forall (m3 : Counted M) p3 nb, 0 <= nb ->
               Some (Save_commit cfg m3 p3 nb d) = Some (m1, p1, RESULT_SUCCESS) ->
               Save cfg m1 p1 d = Some (m1, p1, RESULT_SUCCESS) /\
               n_write m1 = S (n_write m3) /\ n_erase m1 = n_erase m3).
    { intros m3 p3 nb Hnb F.
      assert (G : Save_commit cfg m3 p3 nb d = (m1, p1, RESULT_SUCCESS)) by congruence.
      clear F. pose proof (Save_commit_result cfg m3 p3 nb d) as R. rewrite G in R.
      destruct R as [(_ & Ra & Rd & _)|R]; [|discriminate].
      split; [apply Short; [lia | exact Rd]|].
      eapply Save_commit_counts. exact G. }
    destruct (n2 =? -1) eqn:En.
    + destruct (active_block_n_ p =? -1).
      * pose proof (Erase_counts m2 0 (u32 (kNumPages cfg * kPageSize cfg))) as [W1 E1].
        destruct (Erase m2 _ _) as [m3 ok]. destruct ok; cbn [negb]; [|discriminate].
        intros F. apply C in F; [|lia]. cbn [fst] in *. destruct F as (F1 & F2 & F3).
        split; [exact F1|]. lia.
      * match goal with |- context [Erase m2 ?l ?s] =>
          pose proof (Erase_counts m2 l s) as [W1 E1];
          destruct (Erase m2 l s) as [m3 ok] end.
        destruct ok; cbn [negb]; [|discriminate].
        intros F. apply C in F; [|apply u32_nonneg]. cbn [fst] in *.
        destruct F as (F1 & F2 & F3). split; [exact F1|]. lia.
    + apply Z.eqb_neq in En. intros F. apply C in F; [|lia].
      destruct F as (F1 & F2 & F3). split; [exact F1|]. lia.
Qed.

End CountedFacts.

(** ** The recovery scanner, on any device *)

Lemma In_range_iff n x : In x (range n) <-> 0 <= x < Z.of_nat n.
Proof.
  unfold range. rewrite in_map_iff. split.
  - intros (k & <- & Hk). apply in_seq in Hk. lia.
  - intros H. exists (Z.to_nat x). split; [lia|]. apply in_seq. lia.
Qed.

Lemma GetCRC_eq cfg c b :
  GetCRC cfg c b =
  (Crc16.mk (Crc16.initialized_ c) (Crc16.ltable_ c) (Crc16.htable_ c) (engine_crc cfg c b),
   engine_crc cfg c b).
Proof. reflexivity. Qed.

Lemma engine_crc_same_tables cfg c c' b :
  same_tables c c' -> engine_crc cfg c b = engine_crc cfg c' b.
Proof. intros [L H]. unfold engine_crc. rewrite L, H. reflexivity. Qed.

Lemma engine_crc_ready cfg c b : Crc16.ready c -> engine_crc cfg c b = Block_crc cfg b.
Proof. intros [L H]. unfold engine_crc, Block_crc. rewrite L, H. reflexivity. Qed.

Section ResetFacts.

Variable cfg : Config.
Context {M : Type} {nv : NVMem M}.
Variable m : M.

(** Reads leave the device as it is. *)
Hypothesis Read_pure : forall location, fst (Read m location (kBlockSize cfg)) = m.


Lemma candidate_ok_more seen seen' p :
  (forall x, In x seen -> In x seen') -> candidate_ok cfg m seen p -> candidate_ok cfg m seen' p.
Proof. intros H [A|(A & B)]; [left; exact A | right; split; auto]. Qed.


Lemma candidate_ok_same_tables seen p c :
  same_tables c (crc_ p) ->
  candidate_ok cfg m seen p ->
  candidate_ok cfg m seen (mkPersist (block_ p) (active_block_n_ p) (sequence_ p) c).
Proof.
  intros T [A|(A & bs & B1 & B2 & B3)]; [left; exact A|]. right. split; [exact A|].
  exists bs. cbn [active_block_n_ sequence_ crc_]. split; [exact B1|]. split; [|exact B3].
  rewrite B2. symmetry. apply engine_crc_same_tables. exact T.
Qed.



End ResetFacts.

Section VirginFacts.

Variable cfg : Config.
Context {M : Type} {nv : NVMem M}.
Variable m : M.


Hypothesis Hno : no_valid_block cfg m.

Lemma Reset_scan_no_valid blocks : forall p,
  (forall i, In i blocks -> 0 <= i < kNumBlocks cfg) ->
  Crc16.ready (crc_ p) -> active_block_n_ p = -1 ->
  exists p1, Reset_scan cfg blocks m p = (m, p1, true) /\
             Crc16.ready (crc_ p1) /\ active_block_n_ p1 = -1.
Proof.
  induction blocks as [|i blocks IH]; intros p Hin Hr Ha; cbn [Reset_scan].
  - exists p. auto.
  - destruct (Hno i (Hin i (or_introl eq_refl))) as (bs & ER & EV).
    unfold Reset_iteration. rewrite ER. cbn [negb]. rewrite GetCRC_eq.
    cbn [set_block set_crc block_ crc_ active_block_n_ sequence_].
    rewrite (engine_crc_ready cfg _ _ Hr). unfold block_valid in EV. rewrite EV.
    apply IH.
    + intros j Hj. apply Hin. right. exact Hj.
    + destruct Hr as [L H]. split; assumption.
    + exact Ha.
Qed.

Lemma Init_no_valid (p : Persist) :
  Crc16.tables_consistent (crc_ p) ->
  exists p',
    Init cfg m p = (m, p', RESULT_SUCCESS) /\
    active_block_n_ p' = -1 /\ Crc16.ready (crc_ p').
Proof.
  intros Hc. unfold Init, Reset.
  set (p0 := set_active (set_sequence (set_crc p (Crc16.Init (crc_ p))) 0) (-1)).
  destruct (Reset_scan_no_valid (range (Z.to_nat (kNumBlocks cfg))) p0) as (p1 & E & R & A).
  - intros i Hi. apply In_range_iff in Hi. lia.
  - apply Init_ready. exact Hc.
  - reflexivity.
  - rewrite E. cbn [negb]. rewrite A. cbn [Z.eqb negb].
    exists p1. auto.
Qed.

(** C6: on a region in which every block can be read and none passes CRC
    verification, [Init] returns [RESULT_SUCCESS] and leaves no block
    active; the [Load] that follows returns [RESULT_FAIL_NO_DATA] and
    leaves its argument as it was.  ([Load] is a function of the instance
    alone: it has no access to the device.) *)
Theorem Init_Load_no_data (p : Persist) :
  Crc16.tables_consistent (crc_ p) ->
  exists p',
    Init cfg m p = (m, p', RESULT_SUCCESS) /\
    active_block_n_ p' = -1 /\
    forall out, Load p' out = (out, RESULT_FAIL_NO_DATA).
Proof.
  intros Hc. destruct (Init_no_valid p Hc) as (p' & E & A & _).
  exists p'. split; [exact E|]. split; [exact A|].
  intros out. unfold Load. rewrite A. reflexivity.
Qed.

End VirginFacts.

(** ** The flash device and the block codec *)

Lemma length_range n : length (range n) = n.
Proof. unfold range. rewrite length_map, length_seq. reflexivity. Qed.

Lemma length_addresses l s : length (addresses l s) = Z.to_nat s.
Proof. unfold addresses. rewrite length_map, length_range. reflexivity. Qed.

Lemma length_Flash_read m l s : length (Flash_read m l s) = Z.to_nat s.
Proof. unfold Flash_read. rewrite length_map, length_addresses. reflexivity. Qed.

Lemma map_nth_seq (A : Type) (d : A) (l : list A) :
  map (fun i => nth i l d) (seq 0 (length l)) = l.
Proof.
  induction l as [|x l IH]; [reflexivity|].
  cbn [length seq map nth]. f_equal.
  rewrite <- seq_shift, map_map. exact IH.
Qed.

Lemma Flash_read_write_same m l src s :
  length src = Z.to_nat s ->
  Flash_read (Flash_write m l src s) l s = src.
Proof.
  intros H. unfold Flash_read, addresses, range. rewrite !map_map. rewrite <- H.
  rewrite <- (map_nth_seq Z 0 src) at 2. apply map_ext_in. intros i Hi.
  apply in_seq in Hi. unfold Flash_write.
  assert (E : in_range l s (l + Z.of_nat i) = true) by (apply in_range_iff; lia).
  rewrite E. f_equal. lia.
Qed.

Lemma Flash_read_write_other m l src s l' s' :
  l' + s' <= l \/ l + s <= l' ->
  Flash_read (Flash_write m l src s) l' s' = Flash_read m l' s'.
Proof.
  intros H. apply Flash_read_ext. intros a Ha. apply Flash_write_outside. lia.
Qed.

Lemma Flash_read_erase_other m l s l' s' :
  l' + s' <= l \/ l + s <= l' ->
  Flash_read (Flash_erase m l s) l' s' = Flash_read m l' s'.
Proof.
  intros H. apply Flash_read_ext. intros a Ha. apply Flash_erase_outside. lia.
Qed.

Lemma map_const (A B : Type) (c : B) (f : A -> B) (l : list A) :
  (forall x, In x l -> f x = c) -> map f l = repeat c (length l).
Proof.
  induction l as [|x l IH]; intros H; [reflexivity|].
  cbn [map length repeat]. f_equal; [apply H; left; reflexivity|].
  apply IH. intros y Hy. apply H. right. exact Hy.
Qed.

Lemma Flash_read_erase_inside m l s l' s' :
  l <= l' -> l' + s' <= l + s ->
  Flash_read (Flash_erase m l s) l' s' = repeat kErased (Z.to_nat s').
Proof.
  intros H1 H2. unfold Flash_read. rewrite <- (length_addresses l' s').
  apply map_const. intros a Ha. apply In_addresses in Ha.
  unfold Flash_erase. assert (E : in_range l s a = true) by (apply in_range_iff; lia).
  rewrite E. reflexivity.
Qed.

Lemma Flash_writable_iff m l s :
  Flash_writable m l s = true <-> Flash_read m l s = repeat kErased (Z.to_nat s).
Proof.
  unfold Flash_writable, Flash_read. rewrite <- (length_addresses l s).
  generalize (addresses l s) as al. induction al as [|a al IH]; cbn [forallb map length repeat].
  - split; reflexivity.
  - rewrite andb_true_iff, Z.eqb_eq, IH. split.
    + intros [-> ->]. reflexivity.
    + intros E. inversion E as [[E1 E2]]. rewrite E1, E2. split; reflexivity.
Qed.

(** Decoding the image of a block gives the block back. *)
Lemma le16_value_bytes x : 0 <= x < 65536 ->
  le16_value (x mod 256) ((x / 256) mod 256) = x.
Proof.
  intros H. unfold le16_value.
  assert (0 <= x / 256 < 256) by (split; [apply Z.div_pos | apply Z.div_lt_upper_bound]; lia).
  rewrite (Z.mod_small (x / 256)) by lia.
  pose proof (Z.div_mod x 256 ltac:(lia)). lia.
Qed.

Lemma Block_of_bytes_bytes cfg b :
  length (data b) = Z.to_nat (sizeof_TData cfg) ->
  0 <= sequence_n b < 65536 -> 0 <= crc b < 65536 ->
  Block_of_bytes cfg (Block_bytes b) = b.
Proof.
  intros HL Hs Hc. destruct b as [dt sn cr pad]. cbn [data sequence_n crc padding] in *.
  unfold Block_of_bytes, Block_bytes. cbn [data sequence_n crc padding].
  rewrite <- HL. unfold le16_bytes. cbn [app].
  rewrite firstn_app, Nat.sub_diag, firstn_all. cbn [firstn]. rewrite app_nil_r.
  assert (E0 : forall l', nth (length dt) (dt ++ l') 0 = nth 0 l' 0).
  { intros l'. rewrite <- (Nat.add_0_r (length dt)) at 1. apply app_nth2_plus. }
  rewrite E0, !app_nth2_plus. cbn [nth].
  rewrite skipn_app, skipn_all2 by lia.
  replace (length dt + 4 - length dt)%nat with 4%nat by lia. cbn [skipn app].
  rewrite !le16_value_bytes by assumption. reflexivity.
Qed.

Lemma length_Block_bytes b :
  length (Block_bytes b) = (length (data b) + 4 + length (padding b))%nat.
Proof.
  unfold Block_bytes, le16_bytes. rewrite !length_app. cbn [length]. lia.
Qed.

(** ** Allocation on the flash device *)

Section Allocation.

Variable cfg : Config.
Hypothesis OK : static_asserts cfg.
Variable m : Flash.

Local Abbreviation N := (kNumBlocks cfg).

Lemma fwd_cases x y : 0 <= x < N -> 0 <= y < N ->
  (x <= y /\ fwd cfg x y = y - x) \/ (y < x /\ fwd cfg x y = y - x + N).
Proof.
  intros Hx Hy. unfold fwd. destruct (Z_le_gt_dec x y) as [L|L].
  - left. split; [exact L|]. apply Z.mod_small. lia.
  - right. split; [lia|]. symmetry. apply (Z.mod_unique_pos _ _ (-1)); lia.
Qed.

Lemma fwd_succ c next : 0 <= c < N -> 0 <= next < N ->
  0 <= (next + 1) mod N < N /\
  ((fwd cfg c next + 1 < N /\ fwd cfg c ((next + 1) mod N) = fwd cfg c next + 1
    /\ (next + 1) mod N <> c) \/
   (fwd cfg c next + 1 = N /\ (next + 1) mod N = c)).
Proof.
  intros Hc Hn.
  assert (R : 0 <= (next + 1) mod N < N) by (apply Z.mod_pos_bound; lia).
  split; [exact R|].
  destruct (Z.eq_dec (next + 1) N) as [E|E].
  - rewrite E, Z.mod_same in * by lia.
    destruct (fwd_cases c next Hc Hn) as [[? F]|[? F]];
      destruct (fwd_cases c 0 Hc ltac:(lia)) as [[? F0]|[? F0]]; lia.
  - rewrite Z.mod_small in * by lia.
    destruct (fwd_cases c next Hc Hn) as [[? F]|[? F]];
      destruct (fwd_cases c (next + 1) Hc ltac:(lia)) as [[? F0]|[? F0]]; lia.
Qed.

Lemma fwd_inj c j j' : 0 <= c < N -> 0 <= j < N -> 0 <= j' < N ->
  fwd cfg c j = fwd cfg c j' -> j = j'.
Proof.
  intros Hc Hj Hj' E.
  destruct (fwd_cases c j Hc Hj) as [[? F]|[? F]];
    destruct (fwd_cases c j' Hc Hj') as [[? F']|[? F']]; lia.
Qed.

Lemma fwd_range c j : 0 <= c < N -> 0 <= j < N -> 0 <= fwd cfg c j < N.
Proof. intros Hc Hj. unfold fwd. apply Z.mod_pos_bound. lia. Qed.

Lemma fwd_zero c j : 0 <= c < N -> 0 <= j < N -> (fwd cfg c j = 0 <-> j = c).
Proof.
  intros Hc Hj. destruct (fwd_cases c j Hc Hj) as [[? F]|[? F]]; lia.
Qed.


Lemma NextWritableBlock_loop_Flash fuel : forall c next,
  0 <= c < N -> 0 <= next < N ->
  N - fwd cfg c next <= Z.of_nat fuel ->
  (forall j, 0 <= j < N -> 0 < fwd cfg c j <= fwd cfg c next -> ~ writable_at cfg m j) ->
  exists n, NextWritableBlock_loop cfg fuel m c next = Some (m, n) /\ allocated cfg m c n.
Proof.
  induction fuel as [|fuel IH]; intros c next Hc Hn Hf Hw.
  - pose proof (fwd_range c next Hc Hn). lia.
  - pose proof (kNumBlocks_le cfg) as HN.
    cbn [NextWritableBlock_loop]. rewrite (u32_small (next + 1)) by lia.
    destruct (fwd_succ c next Hc Hn) as (R & S).
    set (next' := (next + 1) mod N) in *.
    cbn [Writable Flash_NVMem].
    assert (Back : next' = c -> allocated cfg m c c).
    { intros E. split; [exact Hc|]. right. split; [reflexivity|].
      intros j Hj D. apply Hw; [exact Hj|].
      pose proof (fwd_range c j Hc Hj). pose proof (fwd_zero c j Hc Hj).
      destruct S as [(_ & _ & S)|(S & _)]; [contradiction|]. lia. }
    destruct (Flash_writable m (BlockLocation cfg next') (kBlockSize cfg)) eqn:W.
    + exists next'. split; [reflexivity|].
      destruct (Z.eq_dec next' c) as [E|E]; [rewrite E; apply Back; exact E|].
      split; [exact R|]. left. split; [exact E|]. split; [exact W|].
      intros j Hj D. apply Hw; [exact Hj|].
      destruct S as [(_ & S & _)|(_ & S)]; [lia | contradiction].
    + destruct (next' =? c) eqn:E; cbn [negb].
      * apply Z.eqb_eq in E. exists next'. split; [reflexivity|]. rewrite E. apply Back. exact E.
      * apply Z.eqb_neq in E.
        destruct S as [(S1 & S2 & _)|(_ & S)]; [|contradiction].
        apply IH; [exact Hc | exact R | lia |].
        intros j Hj D.
        destruct (Z.eq_dec (fwd cfg c j) (fwd cfg c next')) as [F|F].
        -- apply fwd_inj in F; [|assumption..]. subst j. unfold writable_at. rewrite W. discriminate.
        -- apply Hw; [exact Hj | lia].
Qed.

Lemma NextWritableBlock_Flash current :
  -1 <= current < N ->
  let c := if current =? -1 then N - 1 else current in
  exists n, allocated cfg m c n /\
    NextWritableBlock cfg m current = Some (m, if n =? c then -1 else n).
Proof.
  intros Hc c. pose proof (kNumBlocks_range cfg OK) as HN.
  assert (Rc : 0 <= c < N).
  { unfold c. destruct (current =? -1) eqn:E; [lia|]. apply Z.eqb_neq in E. lia. }
  destruct (NextWritableBlock_loop_Flash (Z.to_nat N) c c Rc Rc) as (n & E & A).
  - pose proof (fwd_range c c Rc Rc). lia.
  - intros j Hj D. pose proof (fwd_zero c c Rc Rc). lia.
  - exists n. split; [exact A|]. unfold NextWritableBlock. fold c. rewrite E. reflexivity.
Qed.

End Allocation.

(** ** The commit step on the flash device *)

Section Commit.

Variable cfg : Config.
Hypothesis OK : static_asserts cfg.
Hypothesis Herased : erased_block_invalid cfg.

Local Abbreviation N := (kNumBlocks cfg).
Local Abbreviation BS := (kBlockSize cfg).

Lemma writable_not_valid m k : writable_at cfg m k -> ~ valid_at cfg m k.
Proof.
  unfold writable_at, valid_at, stored. intros W V.
  apply Flash_writable_iff in W. rewrite W in V.
  unfold erased_block_invalid in Herased. congruence.
Qed.

Lemma process_bytes_range lt ht c l : l <> [] ->
  0 <= Crc16.process_bytes lt ht c l < 65536.
Proof.
  intros H. destruct (exists_last H) as (l' & x & ->).
  unfold Crc16.process_bytes. rewrite fold_left_app. cbn [fold_left].
  unfold Crc16.process_byte. apply u16_range.
Qed.

Lemma Block_crc_range b : 0 <= Block_crc cfg b < 65536.
Proof.
  unfold Block_crc. apply process_bytes_range. unfold le16_bytes.
  destruct (data b); discriminate.
Qed.


Lemma length_new_block d s :
  Z.of_nat (length d) = sizeof_TData cfg ->
  length (Block_bytes (new_block cfg d s)) = Z.to_nat BS.
Proof.
  intros H. rewrite length_Block_bytes. cbn [new_block data padding].
  rewrite repeat_length. rewrite (kBlockSize_eq cfg OK).
  assert (0 <= kBlockPaddingSize cfg).
  { apply PadSize_range. destruct OK as (? & ? & ? & _). lia. }
  lia.
Qed.

Lemma new_block_valid d s : block_valid cfg (new_block cfg d s) = true.
Proof. unfold block_valid. cbn [new_block crc]. apply Z.eqb_eq. reflexivity. Qed.

Lemma Save_commit_Flash (m1 : Flash) p1 a d :
  Crc16.ready (crc_ p1) -> 0 <= sequence_ p1 < 65536 -> 0 <= a < N ->
  Z.of_nat (length d) = sizeof_TData cfg ->
  let b := new_block cfg d (sequence_ p1) in
  let m' := Flash_write m1 (BlockLocation cfg a) (Block_bytes b) BS in
  exists p',
    Save_commit cfg m1 p1 a d = (m', p', RESULT_SUCCESS) /\
    block_ p' = b /\ active_block_n_ p' = a /\ sequence_ p' = sequence_ p1 /\
    Crc16.ready (crc_ p') /\
    stored cfg m' a = b /\
    (forall k, 0 <= k < N -> k <> a ->
       Flash_read m' (BlockLocation cfg k) BS = Flash_read m1 (BlockLocation cfg k) BS).
Proof.
  intros Hr Hs Ha Hd b m'.
  unfold Save_commit. rewrite GetCRC_eq.
  cbn [set_active set_block set_crc block_ crc_ active_block_n_ sequence_
       data sequence_n padding crc].
  rewrite (engine_crc_ready cfg _ _ Hr).
  change (Block_crc cfg _) with (Block_crc cfg (mkBlock d (sequence_ p1) 0 [])).
  fold (new_block cfg d (sequence_ p1)). fold b. cbn [Write Flash_NVMem negb]. fold m'.
  eexists. split; [reflexivity|].
  cbn [block_ active_block_n_ sequence_ crc_].
  split; [reflexivity|]. split; [reflexivity|]. split; [reflexivity|].
  split; [destruct Hr; split; assumption|].
  split.
  - unfold stored, m'. rewrite Flash_read_write_same by (apply length_new_block; exact Hd).
    apply Block_of_bytes_bytes.
    + cbn [b new_block data]. lia.
    + exact Hs.
    + cbn [b new_block crc]. apply Block_crc_range.
  - intros k Hk D. unfold m'. apply Flash_read_write_other.
    destruct (blocks_disjoint cfg OK k a Hk Ha D); lia.
Qed.


Lemma Save_commit_consistent (m1 : Flash) p1 a d :
  Crc16.ready (crc_ p1) -> 0 <= sequence_ p1 < 65536 -> 0 <= a < N ->
  Z.of_nat (length d) = sizeof_TData cfg ->
  ready_for cfg m1 a (sequence_ p1) ->
  exists m' p',
    Save_commit cfg m1 p1 a d = (m', p', RESULT_SUCCESS) /\
    consistent cfg m' p' /\ data (block_ p') = d.
Proof.
  intros Hr Hs Ha Hd R.
  destruct (Save_commit_Flash m1 p1 a d Hr Hs Ha Hd) as (p' & E & Eb & Ea & Es & Er & St & Fr).
  set (m' := Flash_write m1 (BlockLocation cfg a) (Block_bytes (new_block cfg d (sequence_ p1))) BS) in *.
  assert (Sto : forall k, 0 <= k < N -> k <> a -> stored cfg m' k = stored cfg m1 k).
  { intros k Hk D. unfold stored. f_equal. apply Fr; assumption. }
  assert (V : forall k, 0 <= k < N -> k <> a -> valid_at cfg m' k -> valid_at cfg m1 k).
  { intros k Hk D. unfold valid_at. rewrite Sto by assumption. auto. }
  assert (W : forall k, 0 <= k < N -> k <> a -> writable_at cfg m' k -> writable_at cfg m1 k).
  { intros k Hk D Wk. unfold writable_at in *. pose proof (Fr k Hk D) as Fk.
    apply Flash_writable_iff. apply Flash_writable_iff in Wk. congruence. }
  assert (Va : valid_at cfg m' a).
  { unfold valid_at. rewrite St. apply new_block_valid. }
  assert (Wa : forall j, writable_at cfg m' j -> j <> a).
  { intros j Wj ->. exact (writable_not_valid m' a Wj Va). }
  exists m', p'. split; [exact E|]. split; [|rewrite Eb; reflexivity].
  destruct R as [R1 R2 R3 R4 R5 R6].
  constructor; rewrite ?Ea, ?Es, ?Eb.
  - exact Er.
  - exact Ha.
  - exact St.
  - exact Va.
  - reflexivity.
  - intros k Hk Vk. destruct (Z.eq_dec k a) as [->|D].
    + rewrite St. exact Hs.
    + rewrite Sto by assumption. apply R1; auto.
  - intros k Hk D Vk. rewrite Sto by assumption. apply R2; auto.
  - intros k j Hk Hj D Vk Wj. apply R3; auto.
  - intros j k Hj Hk Wj Vk Pg. pose proof (Wa j Wj) as Dj.
    destruct (Z.eq_dec k a) as [->|D].
    + apply R5; auto.
    + apply R4; auto.
  - intros k Hk D Vk Pg. apply R6; auto.
Qed.

End Commit.

(** ** [Save] keeps the region consistent *)

Lemma age_same s : age s s = 0.
Proof. unfold age. rewrite Z.sub_diag. reflexivity. Qed.

Lemma age_succ s t : age (u16 (s + 1)) t = (age s t + 1) mod 65536.
Proof.
  unfold age, u16. rewrite Zminus_mod_idemp_l, Zplus_mod_idemp_l.
  f_equal. lia.
Qed.

Lemma page_bounds B k : 0 < B -> k / B * B <= k < (k / B + 1) * B.
Proof.
  intros H. pose proof (Z.div_mod k B ltac:(lia)). pose proof (Z.mod_pos_bound k B H). nia.
Qed.

Lemma page_unique B k q : 0 < B -> q * B <= k < (q + 1) * B -> k / B = q.
Proof.
  intros H R. symmetry. apply (Z.div_unique_pos k B q (k - q * B)); lia.
Qed.

Section SaveCases.

Variable cfg : Config.
Hypothesis OK : static_asserts cfg.
Hypothesis Herased : erased_block_invalid cfg.

Local Abbreviation N := (kNumBlocks cfg).
Local Abbreviation BS := (kBlockSize cfg).
Local Abbreviation PS := (kPageSize cfg).
Local Abbreviation B := (kBlocksPerPage cfg).
Local Abbreviation P := (kNumPages cfg).

Lemma fwd_sub k a j : 0 <= k < N -> 0 <= a < N -> 0 <= j < N ->
  fwd cfg k a <= fwd cfg k j -> fwd cfg a j = fwd cfg k j - fwd cfg k a.
Proof.
  intros Hk Ha Hj L.
  destruct (fwd_cases cfg k a Hk Ha) as [[? F1]|[? F1]];
    destruct (fwd_cases cfg k j Hk Hj) as [[? F2]|[? F2]];
    destruct (fwd_cases cfg a j Ha Hj) as [[? F3]|[? F3]]; lia.
Qed.

(** The erased image of a block. *)
Lemma erased_not_valid m k :
  Flash_read m (BlockLocation cfg k) BS = repeat kErased (Z.to_nat BS) ->
  writable_at cfg m k /\ ~ valid_at cfg m k.
Proof.
  intros E. assert (W : writable_at cfg m k) by (apply Flash_writable_iff; exact E).
  split; [exact W|]. apply (writable_not_valid cfg Herased). exact W.
Qed.

(** No block of the region is valid, the first writable block is [n]. *)
Lemma ready_for_first m n s :
  (forall k, 0 <= k < N -> ~ valid_at cfg m k) ->
  allocated cfg m (N - 1) n -> n <> N - 1 ->
  ready_for cfg m n s.
Proof.
  intros Hb (Hn & [(_ & _ & First)|(E & _)]) D; [|contradiction].
  pose proof (kNumBlocks_range cfg OK) as HN.
  constructor; try (intros k Hk Dk Vk; exfalso; exact (Hb k Hk Vk)).
  - intros k j Hk Hj Dk Dj Vk. exfalso. exact (Hb k Hk Vk).
  - intros j k Hj Hk Dj Dk Wj Vk. exfalso. exact (Hb k Hk Vk).
  - intros j Hj Dj Wj _.
    destruct (Z_lt_ge_dec n j) as [L|L]; [exact L|]. exfalso.
    apply (First j Hj); [|exact Wj].
    destruct (fwd_cases cfg (N - 1) j ltac:(lia) Hj) as [[? F1]|[? F1]];
      destruct (fwd_cases cfg (N - 1) n ltac:(lia) Hn) as [[? F2]|[? F2]]; lia.
Qed.

(** The whole region has just been erased. *)
Lemma ready_for_erased m s :
  ready_for cfg (Flash_erase m 0 (P * PS)) 0 s.
Proof.
  pose proof (kBlocksPerPage_pos cfg OK) as HB. pose proof (kPageSize_range cfg OK) as HPS.
  assert (E : forall k, 0 <= k < N -> ~ valid_at cfg (Flash_erase m 0 (P * PS)) k).
  { intros k Hk. apply erased_not_valid. 
    pose proof (block_in_page cfg OK k Hk) as [I1 I2].
    pose proof (page_of_block cfg OK k Hk) as Pg.
    apply Flash_read_erase_inside; nia. }
  constructor; try (intros k Hk Dk Vk; exfalso; exact (E k Hk Vk)).
  - intros k j Hk Hj Dk Dj Vk. exfalso. exact (E k Hk Vk).
  - intros j k Hj Hk Dj Dk Wj Vk. exfalso. exact (E k Hk Vk).
  - intros j Hj Dj _ _. lia.
Qed.

(** A block is active and the next writable block after it is [n]. *)
Lemma ready_for_next m p n :
  consistent cfg m p ->
  allocated cfg m (active_block_n_ p) n -> n <> active_block_n_ p ->
  ready_for cfg m n (u16 (sequence_ p + 1)).
Proof.
  intros C (Hn & [(_ & Wn & First)|(E & _)]) D; [|contradiction].
  destruct C as [Cr Ca Cc Cv Cs Crg Cage Cgap Cpg Cpa].
  set (a := active_block_n_ p) in *. set (s := sequence_ p) in *.
  pose proof (kNumBlocks_range cfg OK) as HN.
  pose proof (kBlocksPerPage_pos cfg OK) as HB.
  assert (Hs : 0 <= s < 65536).
  { subst s a. rewrite <- Cs, <- Cc. apply Crg; assumption. }
  assert (NV : forall j, writable_at cfg m j -> ~ valid_at cfg m j)
    by (intros j; apply (writable_not_valid cfg Herased)).
  assert (Far : forall k, 0 <= k < N -> k <> n -> k <> a -> valid_at cfg m k ->
                fwd cfg k a < fwd cfg k n).
  { intros k Hk Dn Da Vk.
    pose proof (Cgap k n Hk Hn Da Vk Wn) as G.
    pose proof (fwd_zero cfg k n Hk Hn) as Z0.
    assert (fwd cfg k n <> fwd cfg k a).
    { intros F. apply (fwd_inj cfg) in F; [contradiction|assumption..]. }
    pose proof (fwd_range cfg k n Hk Hn). pose proof (fwd_range cfg k a Hk Ca).
    assert (fwd cfg k n <> 0) by (intros Z1; apply Z0 in Z1; congruence).
    lia. }
  constructor.
  - intros k Hk Dk Vk. apply Crg; assumption.
  - intros k Hk Dk Vk. rewrite age_succ.
    destruct (Z.eq_dec k a) as [->|Da].
    + rewrite Cc, Cs. fold s. rewrite age_same. change ((0 + 1) mod 65536) with 1.
      pose proof (fwd_range cfg a n Ca Hn). pose proof (fwd_zero cfg a n Ca Hn). lia.
    + pose proof (Cage k Hk Da Vk) as G. fold s a in G.
      pose proof (Far k Hk Dk Da Vk). pose proof (fwd_range cfg k n Hk Hn).
      rewrite Z.mod_small by lia. lia.
  - intros k j Hk Hj Dk Dj Vk Wj G.
    destruct (Z.eq_dec k a) as [->|Da]; [exact (First j Hj G Wj)|].
    assert (Dja : j <> a) by (intros ->; exact (NV a Wj Cv)).
    pose proof (Cgap k j Hk Hj Da Vk Wj) as G1.
    pose proof (Far k Hk Dk Da Vk) as G2.
    assert (fwd cfg k j <> fwd cfg k a).
    { intros F. apply (fwd_inj cfg) in F; [contradiction|assumption..]. }
    apply (First j Hj); [|exact Wj].
    rewrite (fwd_sub k a j), (fwd_sub k a n) by (try assumption; lia). lia.
  - intros j k Hj Hk Dj Dk Wj Vk Pg. apply (Cpg j k); assumption.
  - intros j Hj Dj Wj Pg.
    destruct (Z_lt_ge_dec n j) as [L|L]; [exact L|]. exfalso.
    assert (Dja : j <> a) by (intros ->; exact (NV a Wj Cv)).
    pose proof (First j Hj) as F.
    destruct (fwd_cases cfg a j Ca Hj) as [[? F1]|[? F1]];
      destruct (fwd_cases cfg a n Ca Hn) as [[? F2]|[? F2]];
      try (apply F; [lia | exact Wj]).
    assert (Pa : j / B = a / B).
    { pose proof (page_bounds B j HB). pose proof (page_bounds B n HB).
      symmetry. apply (page_unique B a (j / B) HB). rewrite Pg in *. nia. }
    pose proof (Cpg j a Hj Ca Wj Cv Pa). lia.
  - intros k Hk Dk Vk Pg. apply (Cpg n k); auto.
Qed.

(** A block is active, no block is writable, and the page after the
    active block's page has just been erased. *)
Lemma ready_for_rotate m p :
  consistent cfg m p ->
  (forall j, 0 <= j < N -> j <> active_block_n_ p -> ~ writable_at cfg m j) ->
  let q := u32 (active_block_n_ p / B + 1) mod P in
  ready_for cfg (Flash_erase m (q * PS) PS) (q * B) (u16 (sequence_ p + 1)).
Proof.
  intros C Full q.
  destruct C as [Cr Ca Cc Cv Cs Crg Cage Cgap Cpg Cpa].
  set (a := active_block_n_ p) in *. set (s := sequence_ p) in *.
  set (m1 := Flash_erase m (q * PS) PS).
  pose proof (kNumBlocks_range cfg OK) as HN.
  pose proof (kBlocksPerPage_pos cfg OK) as HB.
  pose proof (kPageSize_range cfg OK) as HPS.
  pose proof (kNumPages_pos cfg OK) as HP.
  pose proof (blocks_fit_pages cfg OK) as HF.
  pose proof (page_of_block cfg OK a Ca) as Pa.
  destruct (next_page_block cfg OK a Ca) as (Rq & _ & _ & Rb & _). fold q in Rq, Rb.
  assert (Hs : 0 <= s < 65536).
  { subst s a. rewrite <- Cs, <- Cc. apply Crg; assumption. }
  assert (NW : forall j, 0 <= j < N -> ~ writable_at cfg m j).
  { intros j Hj Wj. destruct (Z.eq_dec j a) as [->|Dj].
    - exact (writable_not_valid cfg Herased m a Wj Cv).
    - exact (Full j Hj Dj Wj). }
  assert (In_q : forall k, 0 <= k < N -> k / B = q ->
                 writable_at cfg m1 k /\ ~ valid_at cfg m1 k).
  { intros k Hk Pk. apply erased_not_valid.
    pose proof (block_in_page cfg OK k Hk) as [I1 I2]. rewrite Pk in I1, I2.
    apply Flash_read_erase_inside; lia. }
  assert (Out_q : forall k, 0 <= k < N -> k / B <> q ->
                  Flash_read m1 (BlockLocation cfg k) BS = Flash_read m (BlockLocation cfg k) BS).
  { intros k Hk Pk. apply Flash_read_erase_other.
    pose proof (block_in_page cfg OK k Hk) as [I1 I2].
    destruct (Z.lt_trichotomy (k / B) q) as [L|[L|L]]; [|contradiction|].
    - left. assert ((k / B + 1) * PS <= q * PS) by (apply Z.mul_le_mono_nonneg_r; lia). lia.
    - right. assert ((q + 1) * PS <= k / B * PS) by (apply Z.mul_le_mono_nonneg_r; lia). lia. }
  assert (V : forall k, 0 <= k < N -> valid_at cfg m1 k ->
              k / B <> q /\ valid_at cfg m k /\ stored cfg m1 k = stored cfg m k).
  { intros k Hk Vk. destruct (Z.eq_dec (k / B) q) as [E|E].
    - exfalso. exact (proj2 (In_q k Hk E) Vk).
    - assert (St : stored cfg m1 k = stored cfg m k)
        by (unfold stored; f_equal; apply Out_q; assumption).
      split; [exact E|]. split; [|exact St]. unfold valid_at in *. rewrite <- St. exact Vk. }
  assert (W : forall j, 0 <= j < N -> writable_at cfg m1 j -> j / B = q).
  { intros j Hj Wj. destruct (Z.eq_dec (j / B) q) as [E|E]; [exact E|]. exfalso.
    apply (NW j Hj). unfold writable_at in *. apply Flash_writable_iff.
    apply Flash_writable_iff in Wj. rewrite <- (Out_q j Hj E). exact Wj. }
  assert (Eq : q * B / B = q) by (apply Z.div_mul; lia).
  assert (Qcases : (a / B + 1 < P /\ q = a / B + 1) \/ (a / B + 1 = P /\ q = 0)).
  { unfold q. assert (HPb : P < 2 ^ 32).
    { pose proof (pages_fit_region cfg OK). destruct OK as (? & _). nia. }
    rewrite u32_small by lia.
    destruct (Z.eq_dec (a / B + 1) P) as [E|E].
    - right. rewrite E, Z.mod_same by lia. lia.
    - left. rewrite Z.mod_small by lia. lia. }
  assert (Side : forall k, 0 <= k < N -> k / B <> q -> k < q * B \/ (q + 1) * B <= k).
  { intros k Hk Pk. pose proof (page_bounds B k HB).
    destruct (Z.lt_trichotomy (k / B) q) as [L|[L|L]]; [|contradiction|].
    - left. assert ((k / B + 1) * B <= q * B) by (apply Z.mul_le_mono_nonneg_r; lia). lia.
    - right. assert ((q + 1) * B <= k / B * B) by (apply Z.mul_le_mono_nonneg_r; lia). lia. }
  pose proof (page_bounds B a HB) as Ba.
  assert (Far : forall k, 0 <= k < N -> k <> a -> k / B <> q -> valid_at cfg m k ->
                fwd cfg k a < fwd cfg k (q * B)).
  { intros k Hk Da Pk Vk.
    pose proof (page_bounds B k HB) as Bk.
    assert (Same : a <= k -> k < (a / B + 1) * B -> False).
    { intros L1 L2.
      assert (Pk' : k / B = a / B) by (apply (page_unique B k (a / B) HB); lia).
      pose proof (Cpa k Hk Da Vk Pk'). lia. }
    destruct (fwd_cases cfg k a Hk Ca) as [[? F1]|[? F1]];
      destruct (fwd_cases cfg k (q * B) Hk Rb) as [[? F2]|[? F2]];
      destruct Qcases as [(Q1 & Q2)|(Q1 & Q2)];
      destruct (Side k Hk Pk) as [S1|S1];
      rewrite Q2 in *; try lia; try (exfalso; apply Same; nia). }
  constructor.
  - intros k Hk Dk Vk. destruct (V k Hk Vk) as (_ & Vm & St). rewrite St. apply Crg; assumption.
  - intros k Hk Dk Vk. destruct (V k Hk Vk) as (Pk & Vm & St). rewrite St, age_succ.
    destruct (Z.eq_dec k a) as [->|Da].
    + rewrite Cc, Cs. fold s. rewrite age_same. change ((0 + 1) mod 65536) with 1.
      pose proof (fwd_range cfg a (q * B) Ca Rb). pose proof (fwd_zero cfg a (q * B) Ca Rb).
      assert (q * B <> a) by (intros F; apply Pk; rewrite <- F; exact Eq). lia.
    + pose proof (Cage k Hk Da Vm) as G. fold s a in G.
      pose proof (Far k Hk Da Pk Vm). pose proof (fwd_range cfg k (q * B) Hk Rb).
      rewrite Z.mod_small by lia. lia.
  - intros k j Hk Hj Dk Dj Vk Wj G.
    destruct (V k Hk Vk) as (Pk & _ & _). pose proof (W j Hj Wj) as Pj.
    pose proof (page_bounds B j HB) as Bj. rewrite Pj in Bj.
    destruct (fwd_cases cfg k j Hk Hj) as [[? F1]|[? F1]];
      destruct (fwd_cases cfg k (q * B) Hk Rb) as [[? F2]|[? F2]];
      destruct (Side k Hk Pk) as [S1|S1]; lia.
  - intros j k Hj Hk Dj Dk Wj Vk Pg.
    destruct (V k Hk Vk) as (Pk & _ & _). pose proof (W j Hj Wj) as Pj. congruence.
  - intros j Hj Dj Wj Pg. pose proof (page_bounds B j HB) as Bj.
    rewrite (W j Hj Wj) in Bj. lia.
  - intros k Hk Dk Vk Pg. destruct (V k Hk Vk) as (Pk & _ & _). congruence.
Qed.

End SaveCases.

Section SaveOnFlash.

Variable cfg : Config.
Hypothesis OK : static_asserts cfg.
Hypothesis Herased : erased_block_invalid cfg.

Local Abbreviation N := (kNumBlocks cfg).

(** On the flash device a [Save] succeeds and keeps instance and device
    consistent. *)
Lemma Save_consistent (m : Flash) p d :
  blank cfg m p \/ consistent cfg m p ->
  Z.of_nat (length d) = sizeof_TData cfg ->
  exists m' p',
    Save cfg m p d = Some (m', p', RESULT_SUCCESS) /\
    consistent cfg m' p' /\ data (block_ p') = d.
Proof.
  intros H Hd. unfold Save.
  pose proof (kNumBlocks_range cfg OK) as HN.
  destruct (DataIsSame p d) eqn:Same.
  - unfold DataIsSame in Same. apply andb_true_iff in Same. destruct Same as [S1 S2].
    apply negb_true_iff, Z.eqb_neq in S1. apply bytes_eqb_eq in S2.
    destruct H as [Hb|Hc]; [destruct Hb; contradiction|].
    exists m, p. auto.
  - clear Same.
    assert (Ra : -1 <= active_block_n_ p < N).
    { destruct H as [Hb|Hc]; [destruct Hb as [_ Hb _]; lia | destruct Hc; lia]. }
    assert (Rr : Crc16.ready (crc_ p)) by (destruct H as [Hb|Hc]; [destruct Hb | destruct Hc]; assumption).
    destruct (NextWritableBlock_Flash cfg OK m (active_block_n_ p) Ra) as (n & A & E).
    rewrite E. clear E.
    assert (Wrap : forall m1 p1 a,
              (exists m' p', Save_commit cfg m1 p1 a d = (m', p', RESULT_SUCCESS) /\
                             consistent cfg m' p' /\ data (block_ p') = d) ->
              exists m' p', Some (Save_commit cfg m1 p1 a d) = Some (m', p', RESULT_SUCCESS) /\
                            consistent cfg m' p' /\ data (block_ p') = d).
    { intros m1 p1 a (m' & p' & E & Q). exists m', p'. rewrite E. auto. }
    destruct H as [Hb|Hc].
    + destruct Hb as [_ Ha Hnone].
      assert (Ea : (active_block_n_ p =? -1) = true) by (apply Z.eqb_eq; exact Ha).
      rewrite Ea in *.
      destruct (n =? N - 1) eqn:En.
      * change (-1 =? -1) with true. cbv iota. cbn [Erase Flash_NVMem negb].
        rewrite u32_small.
        2:{ pose proof (pages_fit_region cfg OK). pose proof (kNumPages_pos cfg OK).
            pose proof (kPageSize_range cfg OK). destruct OK as (? & _). nia. }
        apply Wrap. apply (Save_commit_consistent cfg OK Herased); cbn [set_sequence sequence_ crc_];
          try assumption; try lia.
        apply (ready_for_erased cfg OK Herased).
      * apply Z.eqb_neq in En. destruct A as [Hn A'].
        assert (En' : (n =? -1) = false) by (apply Z.eqb_neq; lia).
        rewrite En'.
        apply Wrap. apply (Save_commit_consistent cfg OK Herased); cbn [set_sequence sequence_ crc_];
          try assumption; try apply u16_range.
        apply (ready_for_first cfg OK); [exact Hnone | split; assumption | exact En].
    + pose proof (c_active _ _ _ Hc) as Ha.
      assert (Ea : (active_block_n_ p =? -1) = false) by (apply Z.eqb_neq; lia).
      rewrite Ea in *.
      destruct (n =? active_block_n_ p) eqn:En.
      * apply Z.eqb_eq in En. subst n. change (-1 =? -1) with true. cbv iota.
        rewrite (u32_small (active_block_n_ p)) by lia.
        destruct (next_page_block cfg OK _ Ha) as (Rq & E1 & E2 & Rb & _).
        cbv zeta in Rq, E1, E2, Rb. rewrite E1, E2.
        cbn [Erase Flash_NVMem negb].
        apply Wrap. apply (Save_commit_consistent cfg OK Herased); cbn [set_sequence sequence_ crc_];
          try assumption; try apply u16_range.
        apply (ready_for_rotate cfg OK Herased); [exact Hc|].
        destruct A as [_ [(F & _)|(_ & F)]]; [contradiction | exact F].
      * apply Z.eqb_neq in En. pose proof A as [Hn _].
        assert (En' : (n =? -1) = false) by (apply Z.eqb_neq; lia).
        rewrite En'.
        apply Wrap. apply (Save_commit_consistent cfg OK Herased); cbn [set_sequence sequence_ crc_];
          try assumption; try apply u16_range.
        apply (ready_for_next cfg OK Herased); assumption.
Qed.

End SaveOnFlash.

(** ** [Init] on a consistent region *)

Lemma age_cases s t : 0 <= s < 65536 -> 0 <= t < 65536 ->
  (t <= s /\ age s t = s - t) \/ (s < t /\ age s t = s - t + 65536).
Proof.
  intros Hs Ht. unfold age. destruct (Z_le_gt_dec t s) as [L|L].
  - left. split; [exact L|]. apply Z.mod_small. lia.
  - right. split; [lia|]. symmetry. apply (Z.mod_unique_pos _ _ (-1)); lia.
Qed.

(** Among sequence numbers less than [n] saves old, the scanner accepts
    exactly the newer one. *)
Lemma seq_accept_window n s t1 t2 :
  0 < n <= 32768 -> 0 <= s < 65536 -> 0 <= t1 < 65536 -> 0 <= t2 < 65536 ->
  age s t1 < n -> age s t2 < n ->
  (seq_accept n t1 t2 = true <-> age s t1 < age s t2).
Proof.
  intros Hn Hs H1 H2 A1 A2. unfold seq_accept.
  rewrite orb_true_iff, !andb_true_iff, Z.gtb_ltb, !Z.ltb_lt, Z.geb_le.
  destruct (age_cases s t1 Hs H1) as [[? E1]|[? E1]];
    destruct (age_cases s t2 Hs H2) as [[? E2]|[? E2]]; lia.
Qed.

Section InitOnFlash.

Variable cfg : Config.
Hypothesis OK : static_asserts cfg.
Variable m : Flash.

Local Abbreviation N := (kNumBlocks cfg).

Section Scan.

Variable p0 : Persist.
Hypothesis C : consistent cfg m p0.

Local Abbreviation a := (active_block_n_ p0).
Local Abbreviation s := (sequence_ p0).

Lemma sequence_range : 0 <= s < 65536.
Proof.
  rewrite <- (c_sequence _ _ _ C), <- (c_cache _ _ _ C).
  apply (c_range _ _ _ C); [apply (c_active _ _ _ C) | apply (c_valid _ _ _ C)].
Qed.

Lemma active_age : age s (sequence_n (stored cfg m a)) = 0.
Proof. rewrite (c_cache _ _ _ C), (c_sequence _ _ _ C). apply age_same. Qed.

(** Every valid block is less than [kNumBlocks] saves old. *)
Lemma valid_window k : 0 <= k < N -> valid_at cfg m k ->
  0 <= sequence_n (stored cfg m k) < 65536 /\
  0 <= age s (sequence_n (stored cfg m k)) < N.
Proof.
  intros Hk Vk. split; [apply (c_range _ _ _ C); assumption|].
  pose proof (kNumBlocks_range cfg OK).
  destruct (Z.eq_dec k a) as [->|D].
  - rewrite active_age. lia.
  - pose proof (c_age _ _ _ C k Hk D Vk).
    pose proof (fwd_range cfg k a Hk (c_active _ _ _ C)). lia.
Qed.

Lemma Reset_iteration_Flash i p :
  0 <= i < N -> scanned cfg m s i p ->
  exists p1, Reset_iteration cfg i m p = (m, p1, true) /\ scanned cfg m s (i + 1) p1.
Proof.
  intros Hi (Hr & Sc). unfold Reset_iteration. cbn [Read Flash_NVMem negb].
  rewrite GetCRC_eq. cbn [set_block set_crc block_ crc_ active_block_n_ sequence_].
  rewrite (engine_crc_ready cfg _ _ Hr).
  fold (stored cfg m i). fold (block_valid cfg (stored cfg m i)).
  assert (Hr' : forall c x, Crc16.ready (Crc16.mk c (Crc16.ltable_ (crc_ p))
                                           (Crc16.htable_ (crc_ p)) x)).
  { intros c x. destruct Hr. split; assumption. }
  pose proof (kNumBlocks_range cfg OK) as HN. pose proof sequence_range as Hs.
  destruct (block_valid cfg (stored cfg m i)) eqn:Vi.
  - destruct (valid_window i Hi Vi) as (Ri & Wi).
    destruct Sc as [(Ea & None)|(Ra & Va & Es & Best)].
    + rewrite Ea. change (-1 =? -1) with true. cbn [orb].
      eexists. split; [reflexivity|]. split; [apply Hr'|]. right.
      cbn [set_sequence set_active active_block_n_ sequence_].
      split; [lia|]. split; [exact Vi|]. split; [reflexivity|].
      intros k Hk Vk. destruct (Z.eq_dec k i) as [->|D]; [lia|].
      exfalso. apply (None k); [lia | exact Vk].
    + assert (Ea : (active_block_n_ p =? -1) = false) by (apply Z.eqb_neq; lia).
      rewrite Ea. cbn [orb].
      destruct (valid_window (active_block_n_ p) ltac:(lia) Va) as (Rb & Wb).
      rewrite <- Es in Rb, Wb.
      pose proof (seq_accept_window N s (sequence_n (stored cfg m i)) (sequence_ p)
                    HN Hs Ri Rb ltac:(lia) ltac:(lia)) as Acc.
      destruct (seq_accept N (sequence_n (stored cfg m i)) (sequence_ p)) eqn:EA.
      * assert (Lt : age s (sequence_n (stored cfg m i)) < age s (sequence_ p))
          by (apply Acc; reflexivity).
        eexists. split; [reflexivity|]. split; [apply Hr'|]. right.
        cbn [set_sequence set_active active_block_n_ sequence_].
        split; [lia|]. split; [exact Vi|]. split; [reflexivity|].
        intros k Hk Vk. destruct (Z.eq_dec k i) as [->|D]; [lia|].
        pose proof (Best k ltac:(lia) Vk). lia.
      * assert (Ge : ~ age s (sequence_n (stored cfg m i)) < age s (sequence_ p)).
        { intros Lt. apply Acc in Lt. congruence. }
        eexists. split; [reflexivity|]. split; [apply Hr'|]. right.
        cbn [set_crc set_block active_block_n_ sequence_].
        split; [lia|]. split; [exact Va|]. split; [exact Es|].
        intros k Hk Vk. destruct (Z.eq_dec k i) as [->|D]; [lia|].
        apply Best; [lia | exact Vk].
  - eexists. split; [reflexivity|]. split; [apply Hr'|].
    cbn [set_crc set_block active_block_n_ sequence_].
    destruct Sc as [(Ea & None)|(Ra & Va & Es & Best)].
    + left. split; [exact Ea|]. intros k Hk Vk.
      destruct (Z.eq_dec k i) as [->|D]; [unfold valid_at in Vk; congruence|].
      apply (None k); [lia | exact Vk].
    + right. split; [lia|]. split; [exact Va|]. split; [exact Es|].
      intros k Hk Vk. destruct (Z.eq_dec k i) as [->|D]; [unfold valid_at in Vk; congruence|].
      apply Best; [lia | exact Vk].
Qed.

Lemma Reset_scan_Flash len : forall st p,
  Z.of_nat (st + len) <= N -> scanned cfg m s (Z.of_nat st) p ->
  exists p1, Reset_scan cfg (map Z.of_nat (seq st len)) m p = (m, p1, true) /\
             scanned cfg m s (Z.of_nat (st + len)) p1.
Proof.
  induction len as [|len IH]; intros st p Hl Sc; cbn [seq map Reset_scan].
  - exists p. rewrite Nat.add_0_r. auto.
  - destruct (Reset_iteration_Flash (Z.of_nat st) p ltac:(lia) Sc) as (p1 & E & Sc1).
    rewrite E. replace (Z.of_nat st + 1) with (Z.of_nat (S st)) in Sc1 by lia.
    destruct (IH (S st) p1 ltac:(lia) Sc1) as (p2 & E2 & Sc2).
    exists p2. split; [exact E2|]. replace (st + S len)%nat with (S st + len)%nat by lia.
    exact Sc2.
Qed.

(** [Init] finds the active block again. *)
Lemma Init_consistent p :
  Crc16.tables_consistent (crc_ p) ->
  exists p',
    Init cfg m p = (m, p', RESULT_SUCCESS) /\
    consistent cfg m p' /\ block_ p' = block_ p0.
Proof.
  intros Hc. unfold Init, Reset.
  set (q := set_active (set_sequence (set_crc p (Crc16.Init (crc_ p))) 0) (-1)).
  pose proof (kNumBlocks_range cfg OK) as HN.
  destruct (Reset_scan_Flash (Z.to_nat N) 0 q) as (p1 & E & Hr & Sc).
  - lia.
  - split; [apply Init_ready; exact Hc|]. left. split; [reflexivity|]. intros k Hk. lia.
  - unfold range. rewrite E. cbn [negb].
    replace (Z.of_nat (0 + Z.to_nat N)) with N in Sc by lia.
    pose proof (c_active _ _ _ C) as Ha. pose proof (c_valid _ _ _ C) as Va.
    destruct Sc as [(Ea & None)|(Ra & Vb & Es & Best)];
      [exfalso; exact (None a Ha Va)|].
    assert (Eb : active_block_n_ p1 = a).
    { destruct (Z.eq_dec (active_block_n_ p1) a) as [E1|D]; [exact E1|]. exfalso.
      pose proof (Best a Ha Va) as L. rewrite active_age in L.
      pose proof (c_age _ _ _ C _ Ra D Vb) as G. rewrite <- Es in G. lia. }
    assert (En : (active_block_n_ p1 =? -1) = false) by (apply Z.eqb_neq; lia).
    rewrite En. cbn [negb Read Flash_NVMem].
    eexists. split; [reflexivity|].
    cbn [set_block block_]. rewrite Eb. fold (stored cfg m a).
    split; [|apply (c_cache _ _ _ C)].
    assert (Es' : sequence_ p1 = s).
    { rewrite Es, Eb, (c_cache _ _ _ C). apply (c_sequence _ _ _ C). }
    destruct C as [Cr Ca Cc Cv Cs Crg Cage Cgap Cpg Cpa].
    constructor; cbn [set_block block_ active_block_n_ sequence_ crc_]; rewrite ?Eb, ?Es'; try assumption.
    + reflexivity.
    + rewrite Cc. exact Cs.
Qed.

End Scan.

(** On a region without a valid block [Init] leaves no block active. *)
Lemma Init_blank p :
  no_valid_block cfg m -> Crc16.tables_consistent (crc_ p) ->
  exists p', Init cfg m p = (m, p', RESULT_SUCCESS) /\ blank cfg m p'.
Proof.
  intros Hno Hc.
  destruct (Init_no_valid cfg m Hno p Hc) as (p' & E & Ea & Er).
  exists p'. split; [exact E|]. constructor; [exact Er | exact Ea|].
  intros k Hk Vk. destruct (Hno k Hk) as (bytes & Rd & Inv).
  cbn [Read Flash_NVMem] in Rd. inversion Rd; subst.
  unfold valid_at, stored in Vk. congruence.
Qed.

End InitOnFlash.

(** ** Saving, re-initialising and loading *)

Lemma Flash_read_virgin l s : Flash_read Flash_virgin l s = repeat kErased (Z.to_nat s).
Proof.
  unfold Flash_read. rewrite <- (length_addresses l s). apply map_const. reflexivity.
Qed.

(** A device fresh from the factory holds no valid block. *)
Lemma virgin_no_valid_block cfg :
  erased_block_invalid cfg -> no_valid_block cfg Flash_virgin.
Proof.
  intros H i _. eexists. split; [reflexivity|]. rewrite Flash_read_virgin. exact H.
Qed.

Section RoundTrip.

Variable cfg : Config.
Hypothesis OK : static_asserts cfg.
Hypothesis Herased : erased_block_invalid cfg.

Lemma consistent_tables (m : Flash) p :
  blank cfg m p \/ consistent cfg m p -> Crc16.tables_consistent (crc_ p).
Proof. intros [H|H] _; destruct H; assumption. Qed.

Lemma blank_no_valid_block (m : Flash) p : blank cfg m p -> no_valid_block cfg m.
Proof.
  intros [_ _ H] i Hi. eexists. split; [reflexivity|].
  specialize (H i Hi). unfold valid_at, stored in H.
  destruct (block_valid cfg _); [exfalso; apply H|]; reflexivity.
Qed.

Lemma run_consistent calls : forall (m : Flash) p,
  blank cfg m p \/ consistent cfg m p ->
  Forall (well_sized cfg) calls ->
  exists m' p',
    run cfg m p calls = Some (m', p') /\
    (blank cfg m' p' \/ consistent cfg m' p').
Proof.
  induction calls as [|c calls IH]; intros m p H Hs; cbn [run].
  - exists m, p. auto.
  - inversion Hs as [|? ? Hs1 Hs2]; subst. destruct c as [|d].
    + pose proof (consistent_tables m p H) as T. destruct H as [Hb|Hc].
      * destruct (Init_blank cfg m p (blank_no_valid_block m p Hb) T) as (p1 & E & B).
        rewrite E. apply IH; [left; exact B | exact Hs2].
      * destruct (Init_consistent cfg OK m p Hc p T) as (p1 & E & C & _).
        rewrite E. apply IH; [right; exact C | exact Hs2].
    + destruct (Save_consistent cfg OK Herased m p d H Hs1) as (m1 & p1 & E & C & _).
      rewrite E. apply IH; [right; exact C | exact Hs2].
Qed.

Lemma Load_consistent (m : Flash) p out :
  consistent cfg m p -> Load p out = (data (block_ p), RESULT_SUCCESS).
Proof.
  intros C. unfold Load. pose proof (c_active _ _ _ C) as Ha.
  destruct (active_block_n_ p =? -1) eqn:E; [apply Z.eqb_eq in E; lia | reflexivity].
Qed.


End RoundTrip.

Lemma erased_block_invalid_2x2 : erased_block_invalid cfg_2x2.
Proof. vm_compute. reflexivity. Qed.


(** ** The theorems at concrete inputs *)


(** The reference CRC is CRC-16/CCITT-FALSE: its check value. *)
Example spec_crc16_check :
  Crc16.spec_crc16 0xFFFF [49; 50; 51; 52; 53; 54; 55; 56; 57] = 0x29B1.
Proof. reflexivity. Qed.

Lemma Process_is_reference_crc16_witness :
  snd (Crc16.Process (Crc16.Seed (Crc16.Init Crc16.static_init) 0xFFFF)
                     [49; 50; 51; 52; 53; 54; 55; 56; 57])
  = Crc16.spec_crc16 0xFFFF [49; 50; 51; 52; 53; 54; 55; 56; 57].
Proof.
  apply Process_is_reference_crc16.
  - intros H. discriminate H.
  - lia.
  - repeat constructor; unfold is_byte; lia.
Defined.

(** When the write fails and the [Reset] that follows fails to read,
    [Save] still returns [RESULT_FAIL_WRITE]. *)
Example Save_FAIL_WRITE_when_Reset_fails :
  snd (Reset cfg_2x2 broken_device Persist_none) = RESULT_FAIL_READ /\
  option_map snd (Save cfg_2x2 broken_device Persist_none [1; 2; 3; 4])
    = Some RESULT_FAIL_WRITE.
Proof. split; vm_compute; reflexivity. Qed.

Lemma Save_FAIL_ERASE_atomic_witness :
  exists m' p',
    Save cfg_2x1 unerasable_device Persist_none [1; 2; 3; 4]
      = Some (m', p', RESULT_FAIL_ERASE) /\
    p' = Persist_none /\ n_write m' = n_write unerasable_device.
Proof.
  assert (H : Save cfg_2x1 unerasable_device Persist_none [1; 2; 3; 4]
              = Some (mkCounted (mkFaulty (fun _ => 0) true true false) 0 2 0 1,
                      Persist_none, RESULT_FAIL_ERASE))
    by (vm_compute; reflexivity).
  eexists. eexists. split; [exact H|].
  exact (Save_FAIL_ERASE_atomic cfg_2x1 _ _ _ _ _ H).
Defined.

Lemma Save_same_data_witness :
  exists m p m1 p1,
    full_2x1 = Some (m, p) /\
    Save cfg_2x1 m p [3; 3; 3; 3] = Some (m1, p1, RESULT_SUCCESS) /\
    Save cfg_2x1 m1 p1 [3; 3; 3; 3] = Some (m1, p1, RESULT_SUCCESS) /\
    (n_write m1 <= S (n_write m))%nat /\ (n_erase m1 <= S (n_erase m))%nat.
Proof.
  eexists. eexists. eexists. eexists.
  split; [vm_compute; reflexivity|].
  match goal with |- ?E /\ _ => assert (H : E) by (vm_compute; reflexivity) end.
  split; [exact H|].
  exact (proj2 (Save_same_data cfg_2x1 _ _ _) _ _ H).
Defined.

(** C7 as stated fails when the region is full: both calls of the pair
    [Save(d); Save(d)] return [RESULT_SUCCESS], and the first has issued
    an [Erase]. *)
Lemma Save_same_data_counterexample :
  exists m p m1 p1 m2 p2,
    full_2x1 = Some (m, p) /\
    Save cfg_2x1 m p [3; 3; 3; 3] = Some (m1, p1, RESULT_SUCCESS) /\
    Save cfg_2x1 m1 p1 [3; 3; 3; 3] = Some (m2, p2, RESULT_SUCCESS) /\
    n_erase m = 0%nat /\ n_erase m2 = 1%nat.
Proof.
  do 6 eexists.
  split; [vm_compute; reflexivity|].
  split; [vm_compute; reflexivity|].
  split; [vm_compute; reflexivity|].
  split; reflexivity.
Qed.



Lemma Init_Load_no_data_witness :
  exists p',
    Init cfg_2x2 Flash_virgin Persist_raw = (Flash_virgin, p', RESULT_SUCCESS) /\
    active_block_n_ p' = -1 /\
    forall out, Load p' out = (out, RESULT_FAIL_NO_DATA).
Proof.
  apply Init_Load_no_data.
  - apply virgin_no_valid_block. exact erased_block_invalid_2x2.
  - intros H. discriminate H.
Defined.

(** The scenarios of the specification on a virgin device of two pages
    of two blocks, by evaluation. *)
Example scenario_virgin :
  let '(_, p, r) := Init cfg_2x2 Flash_virgin Persist_raw in
  (r, Load p [0; 0; 0; 0]) = (RESULT_SUCCESS, ([0; 0; 0; 0], RESULT_FAIL_NO_DATA)).
Proof. vm_compute. reflexivity. Qed.

Example scenario_save_load :
  match run cfg_2x2 Flash_virgin Persist_raw
            [Call_Init; Call_Save [0xDE; 0xAD; 0xBE; 0xEF]] with
  | Some (_, p) => Load p [] = ([0xDE; 0xAD; 0xBE; 0xEF], RESULT_SUCCESS)
  | None => False
  end.
Proof. vm_compute. reflexivity. Qed.

Example scenario_rotation :
  match run cfg_2x2 Flash_virgin Persist_raw
            [Call_Init; Call_Save [1; 1; 1; 1]; Call_Save [2; 2; 2; 2];
             Call_Save [3; 3; 3; 3]; Call_Save [4; 4; 4; 4]; Call_Save [5; 5; 5; 5];
             Call_Init] with
  | Some (_, p) =>
      (active_block_n_ p, sequence_ p, Load p []) = (0, 5, ([5; 5; 5; 5], RESULT_SUCCESS))
  | None => False
  end.
Proof. vm_compute. reflexivity. Qed.

(** * Further properties *)

(** ** More on the geometry *)

(** The pad is below the granularity and completes a multiple of it. *)
Lemma PadSize_multiple (unpadded_size granularity : Z) :
  0 < granularity < 2 ^ 32 -> 0 <= unpadded_size ->
  0 <= PadSize unpadded_size granularity < granularity /\
  (unpadded_size + PadSize unpadded_size granularity) mod granularity = 0.
Proof.
  intros Hg Hu. unfold PadSize.
  pose proof (Z.mod_pos_bound unpadded_size granularity ltac:(lia)) as Hr.
  pose proof (Z.div_mod unpadded_size granularity ltac:(lia)) as Hd.
  set (rem := unpadded_size mod granularity) in *.
  set (q := unpadded_size / granularity) in *.
  rewrite (u32_small (granularity - rem)) by lia.
  destruct (Z.eq_dec rem 0) as [E|E].
  - rewrite E, Z.sub_0_r, Z.mod_same by lia.
    split; [lia|]. rewrite Z.add_0_r. exact E.
  - rewrite (Z.mod_small (granularity - rem)) by lia.
    split; [lia|].
    replace (unpadded_size + (granularity - rem)) with ((q + 1) * granularity) by lia.
    apply Z.mod_mul. lia.
Qed.

(** X1: [PadSize] is the smallest pad that rounds a size up to the
    granularity. *)
Theorem PadSize_rounds_up (unpadded_size granularity : Z) :
  0 < granularity < 2 ^ 32 -> 0 <= unpadded_size ->
  0 <= PadSize unpadded_size granularity < granularity /\
  (unpadded_size + PadSize unpadded_size granularity) mod granularity = 0 /\
  (forall k, 0 <= k -> (unpadded_size + k) mod granularity = 0 ->
             PadSize unpadded_size granularity <= k).
Proof.
  intros Hg Hu.
  destruct (PadSize_multiple unpadded_size granularity Hg Hu) as (R & Mu).
  split; [exact R|]. split; [exact Mu|].
  intros k Hk Hm.
  set (pad := PadSize unpadded_size granularity) in *.
  destruct (Z_lt_ge_dec k pad) as [L|L]; [|lia]. exfalso.
  pose proof (Z.div_mod (unpadded_size + pad) granularity ltac:(lia)) as D1.
  pose proof (Z.div_mod (unpadded_size + k) granularity ltac:(lia)) as D2.
  rewrite Mu in D1. rewrite Hm in D2.
  set (a := (unpadded_size + pad) / granularity) in *.
  set (b := (unpadded_size + k) / granularity) in *.
  assert (Hd : pad - k = granularity * (a - b)) by lia.
  assert (a - b >= 1) by nia. nia.
Qed.

Lemma PadSize_rounds_up_witness :
  0 <= PadSize 8 24 < 24 /\ (8 + PadSize 8 24) mod 24 = 0 /\
  (forall k, 0 <= k -> (8 + k) mod 24 = 0 -> PadSize 8 24 <= k).
Proof. apply PadSize_rounds_up; lia. Defined.

Lemma kBlockPaddingSize_eq cfg :
  static_asserts cfg ->
  kBlockPaddingSize cfg = PadSize (sizeof_TData cfg + 4) (kWriteGranularity cfg).
Proof.
  intros OK. pose proof OK as (Hk & He & Hw & Hs & Hb & Hp & HB & _).
  assert (Hu : u32 (sizeof_TData cfg + 2 + 2) = sizeof_TData cfg + 4).
  { pose proof (PadSize_range (u32 (sizeof_TData cfg + 2 + 2))
      (kWriteGranularity cfg) ltac:(lia)). unfold kBlockPaddingSize in Hb.
    replace (sizeof_TData cfg + 2 + 2) with (sizeof_TData cfg + 4) by lia.
    apply u32_small. lia. }
  unfold kBlockPaddingSize. rewrite Hu. reflexivity.
Qed.

(** The sum in [kPageSize] does not wrap. *)
Lemma kPageSize_eq cfg :
  static_asserts cfg ->
  kPageSize cfg = kBlockSize cfg + PadSize (kBlockSize cfg) (kEraseGranularity cfg).
Proof.
  intros OK. pose proof OK as (Hk & He & Hw & Hs & Hb & Hp & HB & _).
  pose proof (kBlockSize_eq cfg OK) as EB. pose proof (kBlockSize_pos cfg OK) as PB.
  destruct (PadSize_multiple (kBlockSize cfg) (kEraseGranularity cfg)
              ltac:(lia) ltac:(lia)) as (E1 & E2).
  assert (Ge : kBlockSize cfg <= kPageSize cfg).
  { pose proof (page_holds_blocks cfg OK). nia. }
  unfold kPageSize in *. unfold u32 in *.
  set (x := kBlockSize cfg + PadSize (kBlockSize cfg) (kEraseGranularity cfg)) in *.
  assert (Hx : 0 <= x < 2 * 4294967296).
  { unfold x. assert (kBlockSize cfg < 4294967296) by (rewrite EB; lia). lia. }
  destruct (Z_lt_ge_dec x 4294967296) as [L|L]; [apply Z.mod_small; lia|].
  exfalso. assert (F : x mod 4294967296 = x - 4294967296).
  { symmetry. apply (Z.mod_unique_pos _ _ 1); lia. }
  rewrite F in Ge. unfold x in Ge. lia.
Qed.

(** A page spans whole erase granules. *)
Lemma kPageSize_multiple cfg :
  static_asserts cfg -> kPageSize cfg mod kEraseGranularity cfg = 0.
Proof.
  intros OK. pose proof OK as (Hk & He & Hw & Hs & Hb & Hp & HB & _).
  pose proof (kBlockSize_pos cfg OK) as PB.
  rewrite (kPageSize_eq cfg OK).
  apply (PadSize_multiple (kBlockSize cfg) (kEraseGranularity cfg)); lia.
Qed.

(** X2: in an accepted geometry a block is the record, the sequence
    number and the CRC padded by less than the write granularity to a
    multiple of it; a page is a block padded by less than the erase
    granularity to a multiple of it, and holds [kBlocksPerPage] blocks but
    not one more. *)
Theorem block_and_page_sizes cfg :
  static_asserts cfg ->
  kBlockSize cfg mod kWriteGranularity cfg = 0 /\
  sizeof_TData cfg + 4 <= kBlockSize cfg < sizeof_TData cfg + 4 + kWriteGranularity cfg /\
  kPageSize cfg mod kEraseGranularity cfg = 0 /\
  kBlockSize cfg <= kPageSize cfg < kBlockSize cfg + kEraseGranularity cfg /\
  kBlocksPerPage cfg * kBlockSize cfg <= kPageSize cfg
    < (kBlocksPerPage cfg + 1) * kBlockSize cfg.
Proof.
  intros OK. pose proof OK as (Hk & He & Hw & Hs & Hb & Hp & HB & _).
  pose proof (kBlockSize_eq cfg OK) as EB. pose proof (kBlockSize_pos cfg OK) as PB.
  pose proof (kBlockPaddingSize_eq cfg OK) as EP.
  pose proof (kPageSize_eq cfg OK) as EPS.
  destruct (PadSize_multiple (sizeof_TData cfg + 4) (kWriteGranularity cfg)
              ltac:(lia) ltac:(lia)) as (W1 & W2).
  destruct (PadSize_multiple (kBlockSize cfg) (kEraseGranularity cfg)
              ltac:(lia) ltac:(lia)) as (E1 & E2).
  split; [rewrite EB, EP; exact W2|].
  split; [rewrite EB, EP; lia|].
  split; [exact (kPageSize_multiple cfg OK)|].
  split; [rewrite EPS; lia|].
  split; [apply (page_holds_blocks cfg OK)|].
  unfold kBlocksPerPage.
  pose proof (Z.div_mod (kPageSize cfg) (kBlockSize cfg) ltac:(lia)).
  pose proof (Z.mod_pos_bound (kPageSize cfg) (kBlockSize cfg) ltac:(lia)). nia.
Qed.

Lemma block_and_page_sizes_witness :
  kBlockSize cfg_capped mod kWriteGranularity cfg_capped = 0 /\
  sizeof_TData cfg_capped + 4 <= kBlockSize cfg_capped
    < sizeof_TData cfg_capped + 4 + kWriteGranularity cfg_capped /\
  kPageSize cfg_capped mod kEraseGranularity cfg_capped = 0 /\
  kBlockSize cfg_capped <= kPageSize cfg_capped
    < kBlockSize cfg_capped + kEraseGranularity cfg_capped /\
  kBlocksPerPage cfg_capped * kBlockSize cfg_capped <= kPageSize cfg_capped
    < (kBlocksPerPage cfg_capped + 1) * kBlockSize cfg_capped.
Proof. apply block_and_page_sizes. exact static_asserts_capped. Defined.

(** X3: the blocks of the region lie inside the NVMem region, in the
    order of their indices, and no two of them overlap. *)
Theorem blocks_in_region cfg i j :
  static_asserts cfg -> 0 <= i < kNumBlocks cfg -> 0 <= j < kNumBlocks cfg ->
  0 <= BlockLocation cfg i /\
  BlockLocation cfg i + kBlockSize cfg <= kNumPages cfg * kPageSize cfg <= kSize cfg /\
  (i < j -> BlockLocation cfg i + kBlockSize cfg <= BlockLocation cfg j).
Proof.
  intros OK Hi Hj.
  pose proof (block_in_page cfg OK i Hi) as [I1 I2].
  pose proof (page_of_block cfg OK i Hi) as Pi.
  pose proof (kPageSize_range cfg OK) as HPS.
  pose proof (pages_fit_region cfg OK) as HR.
  split; [nia|]. split; [split; [nia | exact HR]|].
  intros L. rewrite !BlockLocation_eq by assumption.
  pose proof (kBlocksPerPage_pos cfg OK) as HB. pose proof (kBlockSize_pos cfg OK) as HBS.
  pose proof (page_holds_blocks cfg OK) as HH.
  pose proof (Z.mod_pos_bound i (kBlocksPerPage cfg) ltac:(lia)).
  pose proof (Z.mod_pos_bound j (kBlocksPerPage cfg) ltac:(lia)).
  pose proof (Z.div_mod i (kBlocksPerPage cfg) ltac:(lia)).
  pose proof (Z.div_mod j (kBlocksPerPage cfg) ltac:(lia)).
  destruct (Z.lt_trichotomy (i / kBlocksPerPage cfg) (j / kBlocksPerPage cfg)) as [T|[T|T]].
  - nia.
  - rewrite T in *. nia.
  - exfalso. nia.
Qed.

Lemma blocks_in_region_witness :
  0 <= BlockLocation cfg_2x2 1 /\
  BlockLocation cfg_2x2 1 + kBlockSize cfg_2x2
    <= kNumPages cfg_2x2 * kPageSize cfg_2x2 <= kSize cfg_2x2 /\
  (1 < 2 -> BlockLocation cfg_2x2 1 + kBlockSize cfg_2x2 <= BlockLocation cfg_2x2 2).
Proof.
  apply blocks_in_region; [exact static_asserts_2x2 | |];
    change (kNumBlocks cfg_2x2) with 4; lia.
Defined.

(** ** The calls that [Init] and [Save] make *)

Section Accesses.

Variable cfg : Config.
Hypothesis OK : static_asserts cfg.
Context {M : Type} {nv : NVMem M}.

Local Abbreviation N := (kNumBlocks cfg).

Lemma since_nil (m : Logged M) : since m m [].
Proof. reflexivity. Qed.

Lemma since_trans (m1 m2 m3 : Logged M) n1 n2 :
  since m1 m2 n1 -> since m2 m3 n2 -> since m1 m3 (n2 ++ n1).
Proof. unfold since. intros H1 H2. rewrite H2, H1, app_assoc. reflexivity. Qed.

Lemma block_access_ok n : 0 <= n < N ->
  block_access cfg (BlockLocation cfg n) (kBlockSize cfg).
Proof. intros H. exists n. auto. Qed.

Lemma Reset_iteration_accesses i (m : Logged M) p m1 p1 ok :
  0 <= i < N ->
  Reset_iteration cfg i m p = (m1, p1, ok) ->
  since m m1 [Access_Read (BlockLocation cfg i) (kBlockSize cfg)] /\
  (active_block_n_ p1 = active_block_n_ p \/ active_block_n_ p1 = -1 \/
   active_block_n_ p1 = i).
Proof.
  intros Hi. unfold Reset_iteration. cbn [Read Logged_NVMem].
  destruct (Read (logged m) _ _) as [m' [rd bytes]].
  destruct rd; cbn [negb].
  - destruct (GetCRC cfg _ _) as [c v].
    destruct (crc _ =? v); [destruct (_ || _)|];
      intros E; inversion E; subst; (split; [reflexivity|]); cbn; auto.
  - intros E; inversion E; subst. split; [reflexivity|]. cbn. auto.
Qed.

Lemma Reset_scan_accesses blocks : forall (m : Logged M) p m1 p1 ok,
  (forall i, In i blocks -> 0 <= i < N) ->
  Reset_scan cfg blocks m p = (m1, p1, ok) ->
  exists new, since m m1 new /\
    Forall (access_ok cfg) new /\ Forall is_read new /\
    (length new <= length blocks)%nat /\
    (active_block_n_ p1 = active_block_n_ p \/ active_block_n_ p1 = -1 \/
     In (active_block_n_ p1) blocks).
Proof.
  induction blocks as [|i blocks IH]; intros m p m1 p1 ok Hin; cbn [Reset_scan].
  - intros E. inversion E. subst. exists []. repeat split; auto.
  - destruct (Reset_iteration cfg i m p) as [[m2 p2] ok2] eqn:EI.
    destruct (Reset_iteration_accesses i m p m2 p2 ok2 (Hin i (or_introl eq_refl)) EI)
      as (S1 & A1).
    assert (Ok1 : access_ok cfg (Access_Read (BlockLocation cfg i) (kBlockSize cfg))).
    { apply block_access_ok. apply Hin. left. reflexivity. }
    destruct ok2.
    + intros E. destruct (IH m2 p2 m1 p1 ok (fun j Hj => Hin j (or_intror Hj)) E)
        as (new & S2 & F1 & F2 & L & A2).
      exists (new ++ [Access_Read (BlockLocation cfg i) (kBlockSize cfg)]).
      split; [eapply since_trans; eassumption|].
      split; [apply Forall_app; split; [exact F1 | constructor; [exact Ok1 | constructor]]|].
      split; [apply Forall_app; split; [exact F2 | constructor; [exact I | constructor]]|].
      split; [rewrite length_app; cbn [length]; lia|].
      cbn [In]. destruct A2 as [A2|[A2|A2]]; [|auto|auto].
      rewrite A2. destruct A1 as [A1|[A1|A1]]; auto.
    + intros E. inversion E. subst.
      exists [Access_Read (BlockLocation cfg i) (kBlockSize cfg)].
      split; [exact S1|]. split; [constructor; [exact Ok1 | constructor]|].
      split; [constructor; [exact I | constructor]|].
      split; [cbn [length]; lia|].
      cbn [In]. destruct A1 as [A1|[A1|A1]]; auto.
Qed.

Lemma Reset_accesses (m : Logged M) p m1 p1 r :
  Reset cfg m p = (m1, p1, r) ->
  exists new, since m m1 new /\
    Forall (access_ok cfg) new /\ Forall is_read new /\
    (Z.of_nat (length new) <= N + 1) /\
    (active_block_n_ p1 = -1 \/ 0 <= active_block_n_ p1 < N).
Proof.
  unfold Reset. pose proof (kNumBlocks_range cfg OK) as HN.
  set (p0 := set_active (set_sequence p 0) (-1)).
  destruct (Reset_scan cfg (range (Z.to_nat N)) m p0) as [[m2 p2] ok] eqn:ES.
  assert (Hin : forall i, In i (range (Z.to_nat N)) -> 0 <= i < N).
  { intros i Hi. apply In_range_iff in Hi. lia. }
  destruct (Reset_scan_accesses _ _ _ _ _ _ Hin ES) as (new & S1 & F1 & F2 & L & A).
  rewrite length_range in L.
  assert (A' : active_block_n_ p2 = -1 \/ 0 <= active_block_n_ p2 < N).
  { destruct A as [A|[A|A]]; [left; exact A | left; exact A|].
    right. apply In_range_iff in A. lia. }
  destruct ok; cbn [negb].
  - destruct (active_block_n_ p2 =? -1) eqn:EA; cbn [negb].
    + intros E. inversion E. subst. exists new. repeat split; auto; lia.
    + apply Z.eqb_neq in EA. destruct A' as [A'|A']; [contradiction|].
      cbn [Read Logged_NVMem].
      destruct (Read (logged m2) _ _) as [m' [rd bytes]].
      assert (R : forall p3 r3, (mkLogged m' (Access_Read (BlockLocation cfg (active_block_n_ p2))
                     (kBlockSize cfg) :: accesses m2), p3, r3) = (m1, p1, r) ->
                   (active_block_n_ p3 = -1 \/ 0 <= active_block_n_ p3 < N) ->
                exists new0, since m m1 new0 /\ Forall (access_ok cfg) new0 /\
                  Forall is_read new0 /\ Z.of_nat (length new0) <= N + 1 /\
                  (active_block_n_ p1 = -1 \/ 0 <= active_block_n_ p1 < N)).
      { intros p3 r3 E Hp3. inversion E. subst.
        exists (Access_Read (BlockLocation cfg (active_block_n_ p2)) (kBlockSize cfg) :: new).
        split; [unfold since in *; cbn [accesses app]; rewrite S1; reflexivity|].
        split; [constructor; [apply block_access_ok; exact A' | exact F1]|].
        split; [constructor; [exact I | exact F2]|].
        split; [cbn [length]; lia | exact Hp3]. }
      destruct rd; cbn [negb]; intros E.
      * apply (R _ _ E). right. exact A'.
      * apply (R _ _ E). left. reflexivity.
  - intros E. inversion E. subst. exists new. repeat split; auto; try lia.
Qed.

(** X4: whatever the driver does, [Init] calls only [Read], each of one
    whole block of the region, at most [kNumBlocks + 1] times, and leaves
    [active_block_n_] at "none" or at a block of the region. *)
Theorem Init_accesses (m : Logged M) (p : Persist) m1 p1 r :
  Init cfg m p = (m1, p1, r) ->
  exists new, accesses m1 = new ++ accesses m /\
    Forall (access_ok cfg) new /\ Forall is_read new /\
    Z.of_nat (length new) <= kNumBlocks cfg + 1 /\
    (active_block_n_ p1 = -1 \/ 0 <= active_block_n_ p1 < kNumBlocks cfg).
Proof. unfold Init. apply Reset_accesses. Qed.

Lemma NextWritableBlock_loop_accesses fuel : forall (m : Logged M) current next m1 n1,
  NextWritableBlock_loop cfg fuel m current next = Some (m1, n1) ->
  exists new, since m m1 new /\ Forall (access_ok cfg) new /\ 0 <= n1 < N.
Proof.
  pose proof (kNumBlocks_range cfg OK) as HN.
  induction fuel as [|fuel IH]; intros m current next m1 n1; cbn [NextWritableBlock_loop].
  - discriminate.
  - assert (R : 0 <= u32 (next + 1) mod N < N) by (apply Z.mod_pos_bound; lia).
    set (n := u32 (next + 1) mod N) in *.
    cbn [Writable Logged_NVMem].
    destruct (Writable (logged m) _ _) as [m' w].
    assert (Ok1 : access_ok cfg (Access_Writable (BlockLocation cfg n) (kBlockSize cfg)))
      by (apply block_access_ok; exact R).
    assert (One : forall E : Some (mkLogged m' (Access_Writable (BlockLocation cfg n)
                     (kBlockSize cfg) :: accesses m), n) = Some (m1, n1),
              exists new, since m m1 new /\ Forall (access_ok cfg) new /\ 0 <= n1 < N).
    { intros E. inversion E. subst. eexists [_]. split; [reflexivity|].
      split; [constructor; [exact Ok1 | constructor] | exact R]. }
    destruct w; [exact One|].
    destruct (negb _); [|exact One].
    intros E. destruct (IH _ _ _ _ _ E) as (new & S & F & Rn).
    exists (new ++ [Access_Writable (BlockLocation cfg n) (kBlockSize cfg)]).
    split; [eapply since_trans; [|exact S]; reflexivity|].
    split; [apply Forall_app; split; [exact F | constructor; [exact Ok1 | constructor]]|].
    exact Rn.
Qed.

Lemma Save_commit_accesses (m : Logged M) p nb d m1 p1 r :
  0 <= nb < N ->
  Save_commit cfg m p nb d = (m1, p1, r) ->
  exists new, since m m1 new /\ Forall (access_ok cfg) new.
Proof.
  intros Hnb. unfold Save_commit. destruct (GetCRC cfg _ _) as [c v].
  cbn [Write Logged_NVMem set_active active_block_n_].
  destruct (Write (logged m) _ _ _) as [m' ok].
  assert (Ok1 : access_ok cfg (Access_Write (BlockLocation cfg nb) (kBlockSize cfg)))
    by (apply block_access_ok; exact Hnb).
  destruct ok; cbn [negb].
  - intros E. inversion E. subst. eexists [_]. split; [reflexivity|].
    constructor; [exact Ok1 | constructor].
  - destruct (Reset cfg _ _) as [[m2 p2] r2] eqn:ER.
    intros E. inversion E. subst.
    destruct (Reset_accesses _ _ _ _ _ ER) as (new & S & F & _).
    exists (new ++ [Access_Write (BlockLocation cfg nb) (kBlockSize cfg)]).
    split; [eapply since_trans; [|exact S]; reflexivity|].
    apply Forall_app; split; [exact F | constructor; [exact Ok1 | constructor]].
Qed.

Lemma erase_page_ok q : 0 <= q < kNumPages cfg ->
  access_ok cfg (Access_Erase (q * kPageSize cfg) (kPageSize cfg)).
Proof.
  intros Hq. pose proof (kPageSize_range cfg OK) as HPS.
  pose proof (pages_fit_region cfg OK) as HR.
  pose proof (kPageSize_multiple cfg OK) as A.
  assert (0 < kEraseGranularity cfg) by (destruct OK as (_ & ? & _); lia).
  cbn [access_ok]. split; [nia|]. split; [lia|]. split; [nia|]. split; [|exact A].
  rewrite <- Z.mul_mod_idemp_r, A, Z.mul_0_r by lia. apply Z.mod_0_l. lia.
Qed.

Lemma erase_region_ok :
  access_ok cfg (Access_Erase 0 (kNumPages cfg * kPageSize cfg)).
Proof.
  pose proof (kPageSize_range cfg OK) as HPS. pose proof (kNumPages_pos cfg OK) as HP.
  pose proof (pages_fit_region cfg OK) as HR.
  pose proof (kPageSize_multiple cfg OK) as A.
  assert (0 < kEraseGranularity cfg) by (destruct OK as (_ & ? & _); lia).
  cbn [access_ok]. split; [lia|]. split; [nia|]. split; [lia|].
  split; [apply Z.mod_0_l; lia|].
  rewrite <- Z.mul_mod_idemp_r, A, Z.mul_0_r by lia. apply Z.mod_0_l. lia.
Qed.

(** X5: whatever the driver does, every call that [Save] makes stays
    inside the region: reads, probes and writes cover one whole block of
    the region, and erases cover a range of the region that starts and
    ends on the erase granularity. *)
Theorem Save_accesses (m : Logged M) (p : Persist) (d : TData) m1 p1 r :
  -1 <= active_block_n_ p < kNumBlocks cfg ->
  Save cfg m p d = Some (m1, p1, r) ->
  exists new, accesses m1 = new ++ accesses m /\ Forall (access_ok cfg) new.
Proof.
  intros Ha. unfold Save. pose proof (kNumBlocks_range cfg OK) as HN.
  destruct (DataIsSame p d).
  { intros E. inversion E. subst. exists []. split; [reflexivity | constructor]. }
  unfold NextWritableBlock.
  set (c := if active_block_n_ p =? -1 then N - 1 else active_block_n_ p).
  destruct (NextWritableBlock_loop cfg (Z.to_nat N) m c c) as [[m2 n2]|] eqn:EL;
    [|discriminate].
  destruct (NextWritableBlock_loop_accesses _ _ _ _ _ _ EL) as (new & S & F & Rn).
  assert (C : forall (m3 : Logged M) p3 nb extra,
             since m2 m3 extra -> Forall (access_ok cfg) extra -> 0 <= nb < N ->
             Some (Save_commit cfg m3 p3 nb d) = Some (m1, p1, r) ->
             exists new0, accesses m1 = new0 ++ accesses m /\ Forall (access_ok cfg) new0).
  { intros m3 p3 nb extra S3 F3 Hnb E.
    assert (G : Save_commit cfg m3 p3 nb d = (m1, p1, r)) by congruence.
    destruct (Save_commit_accesses _ _ _ _ _ _ _ Hnb G) as (new3 & S4 & F4).
    exists (new3 ++ extra ++ new).
    split; [eapply since_trans; [eapply since_trans|]; eassumption|].
    repeat (apply Forall_app; split); assumption. }
  destruct (n2 =? c) eqn:En.
  - change (-1 =? -1) with true. cbv iota.
    destruct (active_block_n_ p =? -1) eqn:Ea.
    + rewrite (u32_small (kNumPages cfg * kPageSize cfg)).
      2:{ pose proof (pages_fit_region cfg OK). pose proof (kNumPages_pos cfg OK).
          pose proof (kPageSize_range cfg OK). destruct OK as (? & _). nia. }
      cbn [Erase Logged_NVMem]. destruct (Erase (logged m2) _ _) as [m3 ok].
      destruct ok; cbn [negb].
      * apply (C _ _ _ [Access_Erase 0 (kNumPages cfg * kPageSize cfg)]);
          [reflexivity | constructor; [apply erase_region_ok | constructor] | lia].
      * intros E. inversion E. subst.
        exists (Access_Erase 0 (kNumPages cfg * kPageSize cfg) :: new).
        split; [unfold since in *; cbn [accesses app]; rewrite S; reflexivity|].
        constructor; [apply erase_region_ok | exact F].
    + apply Z.eqb_neq in Ea. assert (Ha' : 0 <= active_block_n_ p < N) by lia.
      rewrite (u32_small (active_block_n_ p)) by lia.
      destruct (next_page_block cfg OK _ Ha') as (Rq & E1 & E2 & Rb & _).
      cbv zeta in Rq, E1, E2, Rb. rewrite E1, E2.
      set (q := u32 (active_block_n_ p / kBlocksPerPage cfg + 1) mod kNumPages cfg) in *.
      cbn [Erase Logged_NVMem]. destruct (Erase (logged m2) _ _) as [m3 ok].
      destruct ok; cbn [negb].
      * apply (C _ _ _ [Access_Erase (q * kPageSize cfg) (kPageSize cfg)]);
          [reflexivity | constructor; [apply erase_page_ok; exact Rq | constructor] | exact Rb].
      * intros E. inversion E. subst.
        exists (Access_Erase (q * kPageSize cfg) (kPageSize cfg) :: new).
        split; [unfold since in *; cbn [accesses app]; rewrite S; reflexivity|].
        constructor; [apply erase_page_ok; exact Rq | exact F].
  - assert (En' : (n2 =? -1) = false) by (apply Z.eqb_neq; lia).
    rewrite En'. apply (C _ _ _ []); [apply since_nil | constructor | exact Rn].
Qed.

End Accesses.

(** ** [Init] that fails, and [NextWritableBlock] *)

Section InitFails.

Variable cfg : Config.
Context {M : Type} {nv : NVMem M}.

Lemma Reset_scan_failed blocks : forall (m : M) p m1 p1,
  Reset_scan cfg blocks m p = (m1, p1, false) -> active_block_n_ p1 = -1.
Proof.
  induction blocks as [|i blocks IH]; intros m p m1 p1; cbn [Reset_scan].
  - discriminate.
  - destruct (Reset_iteration cfg i m p) as [[m2 p2] ok] eqn:EI.
    destruct ok; [apply IH|].
    intros E. inversion E. subst. clear E. revert EI. unfold Reset_iteration.
    destruct (Read m _ _) as [m' [rd bytes]]. destruct rd; cbn [negb].
    + destruct (GetCRC cfg _ _) as [c v].
      destruct (crc _ =? v); [destruct (_ || _)|]; discriminate.
    + intros E. inversion E. reflexivity.
Qed.

(** X6: [Init] returns [RESULT_SUCCESS] or [RESULT_FAIL_READ]; when a
    read has failed no block is active, so that the [Load] that follows
    returns [RESULT_FAIL_NO_DATA] and leaves its argument as it was. *)
Theorem Init_FAIL_READ (m : M) (p : Persist) :
  let '(m1, p1, r) := Init cfg m p in
  r = RESULT_SUCCESS \/
  (r = RESULT_FAIL_READ /\ active_block_n_ p1 = -1 /\
   forall out, Load p1 out = (out, RESULT_FAIL_NO_DATA)).
Proof.
  unfold Init, Reset.
  set (p0 := set_active (set_sequence (set_crc p (Crc16.Init (crc_ p))) 0) (-1)).
  assert (L : forall q, active_block_n_ q = -1 ->
              forall out, Load q out = (out, RESULT_FAIL_NO_DATA)).
  { intros q Hq out. unfold Load. rewrite Hq. reflexivity. }
  destruct (Reset_scan cfg _ m p0) as [[m1 p1] ok] eqn:ES.
  destruct ok; cbn [negb].
  - destruct (active_block_n_ p1 =? -1); cbn [negb]; [left; reflexivity|].
    destruct (Read m1 _ _) as [m2 [rd bytes]]. destruct rd; cbn [negb].
    + left. reflexivity.
    + right. split; [reflexivity|]. split; [reflexivity|]. apply L. reflexivity.
  - right. split; [reflexivity|].
    pose proof (Reset_scan_failed _ _ _ _ _ ES) as A. split; [exact A|]. apply L. exact A.
Qed.

End InitFails.

Section Probes.

Variable cfg : Config.
Hypothesis OK : static_asserts cfg.
Context {M : Type} {nv : NVMem M}.

Local Abbreviation N := (kNumBlocks cfg).

Lemma NextWritableBlock_loop_probes fuel : forall (m : Logged M) current next m1 n1,
  NextWritableBlock_loop cfg fuel m current next = Some (m1, n1) ->
  exists new, since m m1 new /\ Forall is_probe new /\
              (1 <= length new <= fuel)%nat.
Proof.
  induction fuel as [|fuel IH]; intros m current next m1 n1; cbn [NextWritableBlock_loop].
  - discriminate.
  - cbn [Writable Logged_NVMem].
    destruct (Writable (logged m) _ _) as [m' w].
    assert (One : forall a (E : Some (mkLogged m' (Access_Writable a (kBlockSize cfg)
                      :: accesses m), u32 (next + 1) mod N) = Some (m1, n1)),
              exists new, since m m1 new /\ Forall is_probe new /\
                          (1 <= length new <= S fuel)%nat).
    { intros a E. inversion E. subst. eexists [_]. split; [reflexivity|].
      split; [constructor; [exact I | constructor] | cbn [length]; lia]. }
    destruct w; [apply One|].
    destruct (negb _); [|apply One].
    intros E. destruct (IH _ _ _ _ _ E) as (new & S & F & L).
    eexists (new ++ [_]). split; [unfold since in *; rewrite S; cbn [accesses];
      rewrite <- app_assoc; reflexivity|].
    split; [apply Forall_app; split; [exact F | constructor; [exact I | constructor]]|].
    rewrite length_app. cbn [length]. lia.
Qed.

(** X7: with [current_block_n] at "none" or at a block of the region,
    [NextWritableBlock] returns after at least one and at most
    [kNumBlocks] calls of [Writable] and no other call; it returns "none"
    or a block of the region, and never the block it started from (the
    last block of the region when it is called with "none"). *)
Theorem NextWritableBlock_probes (m : Logged M) (current_block_n : Z) :
  -1 <= current_block_n < kNumBlocks cfg ->
  exists m1 n new,
    NextWritableBlock cfg m current_block_n = Some (m1, n) /\
    accesses m1 = new ++ accesses m /\ Forall is_probe new /\
    1 <= Z.of_nat (length new) <= kNumBlocks cfg /\
    (n = -1 \/
     (0 <= n < kNumBlocks cfg /\ n <> current_block_n /\
      (current_block_n = -1 -> n <> kNumBlocks cfg - 1))).
Proof.
  intros Hc. pose proof (kNumBlocks_range cfg OK) as HN.
  unfold NextWritableBlock.
  set (c := if current_block_n =? -1 then N - 1 else current_block_n).
  assert (Rc : 0 <= c < N).
  { unfold c. destruct (current_block_n =? -1) eqn:E; [lia|]. apply Z.eqb_neq in E. lia. }
  destruct (NextWritableBlock_loop_total cfg (Z.to_nat N) m c c Rc Rc) as (m1 & n1 & E & R).
  { unfold laps_left. rewrite Z.ltb_irrefl. lia. }
  rewrite E. destruct (NextWritableBlock_loop_probes _ _ _ _ _ _ E) as (new & S & F & L).
  exists m1. eexists. exists new. split; [reflexivity|]. split; [exact S|].
  split; [exact F|]. split; [lia|].
  destruct (n1 =? c) eqn:En; [left; reflexivity|]. right. apply Z.eqb_neq in En.
  split; [exact R|]. unfold c in En.
  destruct (current_block_n =? -1) eqn:Ec.
  - apply Z.eqb_eq in Ec. split; [lia | intros _; exact En].
  - apply Z.eqb_neq in Ec. split; [exact En | intros F0; contradiction].
Qed.

End Probes.

(** X8: on the flash device [NextWritableBlock] leaves the device as it
    is and returns the first writable block after the block it starts
    from (the last block of the region when no block is active), in circular
    order; it returns "none" exactly when no other block is writable, also
    when the block it starts from is. *)
Theorem NextWritableBlock_first_writable cfg (m : Flash) (current_block_n : Z) :
  static_asserts cfg -> -1 <= current_block_n < kNumBlocks cfg ->
  let start := if current_block_n =? -1 then kNumBlocks cfg - 1 else current_block_n in
  exists n,
    NextWritableBlock cfg m current_block_n = Some (m, n) /\
    ((n = -1 /\
      forall j, 0 <= j < kNumBlocks cfg -> j <> start ->
                Flash_writable m (BlockLocation cfg j) (kBlockSize cfg) = false) \/
     (0 <= n < kNumBlocks cfg /\ n <> start /\
      Flash_writable m (BlockLocation cfg n) (kBlockSize cfg) = true /\
      forall j, 0 <= j < kNumBlocks cfg ->
                0 < (j - start) mod kNumBlocks cfg < (n - start) mod kNumBlocks cfg ->
                Flash_writable m (BlockLocation cfg j) (kBlockSize cfg) = false)).
Proof.
  intros OK Hc start.
  destruct (NextWritableBlock_Flash cfg OK m current_block_n Hc) as (n & A & E).
  fold start in A, E. destruct A as [Rn [(D & W & First)|(D & None)]].
  - exists n. assert (En : (n =? start) = false) by (apply Z.eqb_neq; exact D).
    rewrite En in E. split; [exact E|]. right.
    split; [exact Rn|]. split; [exact D|]. split; [exact W|].
    intros j Hj G. specialize (First j Hj G). unfold writable_at in First.
    destruct (Flash_writable m _ _); [exfalso; apply First; reflexivity | reflexivity].
  - exists (-1). subst n. rewrite Z.eqb_refl in E. split; [exact E|]. left.
    split; [reflexivity|]. intros j Hj D. specialize (None j Hj D).
    unfold writable_at in None.
    destruct (Flash_writable m _ _); [exfalso; apply None; reflexivity | reflexivity].
Qed.

(** ** More on the CRC-16 engine *)

Lemma table_entries_checked : table_entries_check = true.
Proof. vm_compute. reflexivity. Qed.

Lemma table_entry_eq i : 0 <= i < 256 ->
  table_entry i = Crc16.ComputeTableEntry i /\ 0 <= table_entry i < 65536.
Proof.
  intros H. pose proof table_entries_checked as C. unfold table_entries_check in C.
  rewrite forallb_forall in C.
  specialize (C i (range_In 256 i ltac:(change (Z.of_nat 256) with 256; lia))).
  rewrite !andb_true_iff, Z.eqb_eq, Z.leb_le, Z.ltb_lt in C. lia.
Qed.

(** X9: once [Init] has run, the two tables of sixteen entries stand for
    the table of 256 entries: for every byte [i],
    [ltable_[i & 0xF] ^ htable_[i >> 4]] is [ComputeTableEntry(i)]. *)
Theorem nibble_tables_entry (c : Crc16.t) (i : Z) :
  Crc16.tables_consistent c -> 0 <= i < 256 ->
  Z.lxor (nth (Z.to_nat (Z.land i 0xF)) (Crc16.ltable_ (Crc16.Init c)) 0)
         (nth (Z.to_nat (Z.shiftr i 4)) (Crc16.htable_ (Crc16.Init c)) 0)
  = Crc16.ComputeTableEntry i.
Proof.
  intros Hc Hi. destruct (Init_ready c Hc) as [L H]. rewrite L, H.
  apply (table_entry_eq i Hi).
Qed.

Lemma nibble_tables_entry_witness :
  Z.lxor (nth (Z.to_nat (Z.land 0xA7 0xF)) (Crc16.ltable_ (Crc16.Init Crc16.static_init)) 0)
         (nth (Z.to_nat (Z.shiftr 0xA7 4)) (Crc16.htable_ (Crc16.Init Crc16.static_init)) 0)
  = Crc16.ComputeTableEntry 0xA7.
Proof.
  apply nibble_tables_entry; [intros H; discriminate H | lia].
Defined.

(** One step of [Process] through the byte-wide table. *)
Lemma process_byte_table crc b :
  0 <= crc < 65536 -> is_byte b ->
  0 <= Z.lxor (Z.shiftr crc 8) b < 256 /\
  Crc16.process_byte Crc16.the_ltable Crc16.the_htable crc b
  = Z.lxor (table_entry (Z.lxor (Z.shiftr crc 8) b)) (Z.shiftl (Z.land crc 255) 8).
Proof.
  intros Hc Hb. unfold is_byte in Hb.
  assert (Hi : 0 <= Z.lxor (Z.shiftr crc 8) b < 2 ^ 8).
  { apply lxor_range; try lia. rewrite Z.shiftr_div_pow2 by lia.
    split; [apply Z.div_pos; lia | apply Z.div_lt_upper_bound; lia]. }
  split; [exact Hi|].
  destruct (table_entry_eq _ Hi) as [_ R].
  assert (Hu : u16 (Z.shiftl crc 8) = Z.shiftl (Z.land crc 255) 8).
  { unfold u16. rewrite !Z.shiftl_mul_pow2 by lia. change 255 with (Z.ones 8).
    rewrite Z.land_ones by lia. change 65536 with (2 ^ 8 * 2 ^ 8).
    rewrite Zmult_mod_distr_r. reflexivity. }
  unfold Crc16.process_byte. unfold u8.
  rewrite (Z.mod_small (Z.lxor (Z.shiftr crc 8) b)) by lia.
  rewrite Z.lxor_assoc. fold (table_entry (Z.lxor (Z.shiftr crc 8) b)).
  rewrite u16_land, land_lxor_distr, <- !u16_land, Hu.
  unfold u16 at 1. rewrite Z.mod_small by lia. apply Z.lxor_comm.
Qed.

Lemma lxor_cancel a b c : Z.lxor a b = Z.lxor a c -> b = c.
Proof.
  intros H. rewrite <- (Z.lxor_0_l b), <- (Z.lxor_0_l c), <- (Z.lxor_nilpotent a).
  rewrite !Z.lxor_assoc. f_equal. exact H.
Qed.

Lemma low_byte_lxor_shiftl a b : 0 <= b -> (Z.lxor a (Z.shiftl b 8)) mod 256 = a mod 256.
Proof.
  intros Hb. change 256 with (2 ^ 8). rewrite <- !Z.land_ones by lia.
  rewrite land_lxor_distr. replace (Z.land (Z.shiftl b 8) (Z.ones 8)) with 0.
  - apply Z.lxor_0_r.
  - rewrite Z.land_ones, Z.shiftl_mul_pow2 by lia. symmetry. apply Z.mod_mul. lia.
Qed.

(** The low bytes of the entries of the byte-wide table are all
    different. *)
Lemma low_bytes_differ_checked :
  forallb (fun x =>
    forallb (fun y => (x =? y) || negb (table_entry x mod 256 =? table_entry y mod 256))
            (range 256))
    (range 256) = true.
Proof. vm_compute. reflexivity. Qed.

Lemma table_entry_low_inj x y : 0 <= x < 256 -> 0 <= y < 256 ->
  table_entry x mod 256 = table_entry y mod 256 -> x = y.
Proof.
  intros Hx Hy E.
  pose proof low_bytes_differ_checked as C.
  rewrite forallb_forall in C.
  specialize (C x (range_In 256 x ltac:(change (Z.of_nat 256) with 256; lia))).
  rewrite forallb_forall in C.
  specialize (C y (range_In 256 y ltac:(change (Z.of_nat 256) with 256; lia))).
  apply orb_true_iff in C. destruct C as [C|C]; [apply Z.eqb_eq; exact C|].
  apply negb_true_iff, Z.eqb_neq in C. contradiction.
Qed.

Lemma split_16 crc : 0 <= crc < 65536 ->
  crc = 256 * Z.shiftr crc 8 + Z.land crc 255 /\
  0 <= Z.shiftr crc 8 < 256 /\ 0 <= Z.land crc 255 < 256.
Proof.
  intros H. rewrite Z.shiftr_div_pow2 by lia. change 255 with (Z.ones 8).
  rewrite Z.land_ones by lia. change (2 ^ 8) with 256.
  pose proof (Z.div_mod crc 256 ltac:(lia)). pose proof (Z.mod_pos_bound crc 256 ltac:(lia)).
  split; [lia|]. split; [|lia].
  split; [apply Z.div_pos; lia | apply Z.div_lt_upper_bound; lia].
Qed.

(** One step of [Process] loses nothing: it determines the register and
    the byte up to the xor of the byte with the high half of the
    register. *)
Lemma process_byte_inj crc b crc' b' :
  0 <= crc < 65536 -> is_byte b -> 0 <= crc' < 65536 -> is_byte b' ->
  Crc16.process_byte Crc16.the_ltable Crc16.the_htable crc b
  = Crc16.process_byte Crc16.the_ltable Crc16.the_htable crc' b' ->
  Z.lxor (Z.shiftr crc 8) b = Z.lxor (Z.shiftr crc' 8) b' /\
  Z.land crc 255 = Z.land crc' 255.
Proof.
  intros Hc Hb Hc' Hb' E.
  destruct (process_byte_table crc b Hc Hb) as [R1 E1].
  destruct (process_byte_table crc' b' Hc' Hb') as [R2 E2].
  rewrite E1, E2 in E.
  destruct (split_16 crc Hc) as (_ & _ & L1). destruct (split_16 crc' Hc') as (_ & _ & L2).
  assert (X : Z.lxor (Z.shiftr crc 8) b = Z.lxor (Z.shiftr crc' 8) b').
  { apply table_entry_low_inj; [assumption..|].
    rewrite <- (low_byte_lxor_shiftl _ (Z.land crc 255)) by lia.
    rewrite <- (low_byte_lxor_shiftl (table_entry (Z.lxor (Z.shiftr crc' 8) b'))
                  (Z.land crc' 255)) by lia.
    rewrite E. reflexivity. }
  split; [exact X|]. rewrite X in E. apply lxor_cancel in E.
  rewrite !Z.shiftl_mul_pow2 in E by lia. lia.
Qed.

Lemma process_bytes_in_range crc l : 0 <= crc < 65536 ->
  0 <= Crc16.process_bytes Crc16.the_ltable Crc16.the_htable crc l < 65536.
Proof.
  intros H. destruct l as [|x l]; [exact H|].
  apply process_bytes_range. discriminate.
Qed.

Lemma process_byte_in_range crc b :
  0 <= Crc16.process_byte Crc16.the_ltable Crc16.the_htable crc b < 65536.
Proof. unfold Crc16.process_byte. apply u16_range. Qed.

(** Over the same bytes, different registers stay different. *)
Lemma process_bytes_seed_inj l : forall crc crc',
  0 <= crc < 65536 -> 0 <= crc' < 65536 -> Forall is_byte l ->
  Crc16.process_bytes Crc16.the_ltable Crc16.the_htable crc l
  = Crc16.process_bytes Crc16.the_ltable Crc16.the_htable crc' l ->
  crc = crc'.
Proof.
  induction l as [|b l IH]; intros crc crc' Hc Hc' Hl E; [exact E|].
  inversion Hl as [|? ? Hb Hl']; subst. cbn [Crc16.process_bytes fold_left] in E.
  apply IH in E; [|apply process_byte_in_range..|exact Hl'].
  destruct (process_byte_inj _ _ _ _ Hc Hb Hc' Hb E) as [X L].
  rewrite (Z.lxor_comm (Z.shiftr crc 8)), (Z.lxor_comm (Z.shiftr crc' 8)) in X.
  apply lxor_cancel in X.
  destruct (split_16 crc Hc) as (S1 & _). destruct (split_16 crc' Hc') as (S2 & _). lia.
Qed.

Lemma process_bytes_byte_inj l1 l2 b b' crc :
  0 <= crc < 65536 -> Forall is_byte l1 -> Forall is_byte l2 -> is_byte b -> is_byte b' ->
  Crc16.process_bytes Crc16.the_ltable Crc16.the_htable crc (l1 ++ b :: l2)
  = Crc16.process_bytes Crc16.the_ltable Crc16.the_htable crc (l1 ++ b' :: l2) ->
  b = b'.
Proof.
  intros Hc H1 H2 Hb Hb' E. unfold Crc16.process_bytes in E.
  rewrite !fold_left_app in E. cbn [fold_left] in E.
  fold (Crc16.process_bytes Crc16.the_ltable Crc16.the_htable crc l1) in E.
  set (t := Crc16.process_bytes Crc16.the_ltable Crc16.the_htable crc l1) in *.
  assert (Ht : 0 <= t < 65536) by (apply process_bytes_in_range; exact Hc).
  apply (process_bytes_seed_inj l2) in E; [|apply process_byte_in_range..|exact H2].
  destruct (process_byte_inj _ _ _ _ Ht Hb Ht Hb' E) as [X _].
  apply lxor_cancel in X. exact X.
Qed.

Lemma Process_ready c seed l :
  Crc16.tables_consistent c ->
  snd (Crc16.Process (Crc16.Seed (Crc16.Init c) seed) l)
  = Crc16.process_bytes Crc16.the_ltable Crc16.the_htable seed l.
Proof.
  intros Hc. destruct (Init_ready c Hc) as [L H].
  unfold Crc16.Process, Crc16.Seed. cbn [snd Crc16.ltable_ Crc16.htable_ Crc16.crc_].
  rewrite L, H. reflexivity.
Qed.

(** X10: [Process] detects the corruption of any one byte: two sequences
    of bytes that differ in exactly one place have different CRCs from
    the same seed. *)
Theorem Process_detects_one_byte (c : Crc16.t) (seed : Z) (l1 l2 : list Z) (b b' : Z) :
  Crc16.tables_consistent c -> 0 <= seed < 65536 ->
  Forall is_byte l1 -> Forall is_byte l2 -> is_byte b -> is_byte b' -> b <> b' ->
  snd (Crc16.Process (Crc16.Seed (Crc16.Init c) seed) (l1 ++ b :: l2))
  <> snd (Crc16.Process (Crc16.Seed (Crc16.Init c) seed) (l1 ++ b' :: l2)).
Proof.
  intros Hc Hs H1 H2 Hb Hb' D E. rewrite !(Process_ready c) in E by exact Hc.
  apply D. exact (process_bytes_byte_inj l1 l2 b b' seed Hs H1 H2 Hb Hb' E).
Qed.

(** X11: over the same bytes, [Process] keeps different seeds apart. *)
Theorem Process_separates_seeds (c : Crc16.t) (seed seed' : Z) (l : list Z) :
  Crc16.tables_consistent c -> 0 <= seed < 65536 -> 0 <= seed' < 65536 ->
  Forall is_byte l -> seed <> seed' ->
  snd (Crc16.Process (Crc16.Seed (Crc16.Init c) seed) l)
  <> snd (Crc16.Process (Crc16.Seed (Crc16.Init c) seed') l).
Proof.
  intros Hc Hs Hs' Hl D E. rewrite !(Process_ready c) in E by exact Hc.
  apply D. exact (process_bytes_seed_inj l seed seed' Hs Hs' Hl E).
Qed.

(** X12: the CRC of a sequence of bytes followed by its own CRC, high
    byte first, is zero. *)
Theorem Process_residue (c : Crc16.t) (seed : Z) (l : list Z) :
  Crc16.tables_consistent c -> 0 <= seed < 65536 -> Forall is_byte l ->
  let r := snd (Crc16.Process (Crc16.Seed (Crc16.Init c) seed) l) in
  snd (Crc16.Process (Crc16.Seed (Crc16.Init c) seed)
                     (l ++ [Z.shiftr r 8; Z.land r 0xFF])) = 0.
Proof.
  intros Hc Hs Hl r. unfold r. rewrite !(Process_ready c) by exact Hc.
  set (t := Crc16.process_bytes Crc16.the_ltable Crc16.the_htable seed l).
  assert (Ht : 0 <= t < 65536) by (apply process_bytes_in_range; exact Hs).
  destruct (split_16 t Ht) as (_ & Hh & Hlo).
  unfold Crc16.process_bytes. rewrite fold_left_app. cbn [fold_left].
  fold (Crc16.process_bytes Crc16.the_ltable Crc16.the_htable seed l). fold t.
  destruct (process_byte_table t (Z.shiftr t 8) Ht Hh) as [_ E1]. rewrite E1.
  rewrite Z.lxor_nilpotent. change (table_entry 0) with 0. rewrite Z.lxor_0_l.
  set (u := Z.shiftl (Z.land t 255) 8).
  assert (Hu : 0 <= u < 65536) by (unfold u; rewrite Z.shiftl_mul_pow2 by lia; lia).
  destruct (process_byte_table u (Z.land t 255) Hu Hlo) as [_ E2]. rewrite E2.
  assert (S1 : Z.shiftr u 8 = Z.land t 255).
  { unfold u. rewrite Z.shiftr_shiftl_l by lia. reflexivity. }
  assert (S2 : Z.land u 255 = 0).
  { unfold u. rewrite Z.shiftl_mul_pow2 by lia. change 255 with (Z.ones 8).
    rewrite !Z.land_ones by lia. apply Z.mod_mul. lia. }
  rewrite S1, S2, Z.lxor_nilpotent. reflexivity.
Qed.

(** ** The block: layout, verification, sequence numbers *)

Lemma le16_bytes_value lo hi : is_byte lo -> is_byte hi ->
  le16_bytes (le16_value lo hi) = [lo; hi].
Proof.
  unfold is_byte, le16_bytes, le16_value. intros Hl Hh.
  assert (E1 : (lo + 256 * hi) mod 256 = lo).
  { symmetry. apply (Z.mod_unique_pos _ _ hi); lia. }
  assert (E2 : (lo + 256 * hi) / 256 = hi).
  { symmetry. apply (Z.div_unique_pos _ _ _ lo); lia. }
  rewrite E1, E2, (Z.mod_small hi) by lia. reflexivity.
Qed.

Lemma skipn_four n (bs : list Z) :
  (n + 4 <= length bs)%nat ->
  skipn n bs = nth n bs 0 :: nth (n + 1) bs 0 :: nth (n + 2) bs 0 :: nth (n + 3) bs 0
               :: skipn (n + 4) bs.
Proof.
  intros H. rewrite <- !(nth_skipn n bs), (Nat.add_comm n 4), <- skipn_skipn.
  rewrite <- (Nat.add_0_r n) at 2. rewrite <- (nth_skipn n bs 0).
  assert (L : (4 <= length (skipn n bs))%nat) by (rewrite length_skipn; lia).
  destruct (skipn n bs) as [|x0 [|x1 [|x2 [|x3 rest]]]]; cbn [length] in L; try lia.
  reflexivity.
Qed.

(** X13: the layout of a block is a bijection between blocks and byte
    images: a block whose data have the size of the record and whose
    sequence number and CRC are 16-bit values is read back from its image;
    an image of at least [sizeof(TData) + 4] bytes is the image of the
    block read from it. *)
Theorem Block_layout_round_trip cfg :
  (forall b, length (data b) = Z.to_nat (sizeof_TData cfg) ->
             0 <= sequence_n b < 65536 -> 0 <= crc b < 65536 ->
             Block_of_bytes cfg (Block_bytes b) = b) /\
  (forall bs, (Z.to_nat (sizeof_TData cfg) + 4 <= length bs)%nat ->
              Forall is_byte bs ->
              Block_bytes (Block_of_bytes cfg bs) = bs).
Proof.
  split; [apply Block_of_bytes_bytes|].
  intros bs Hl Hb. unfold Block_of_bytes, Block_bytes.
  cbn [data sequence_n crc padding].
  set (n := Z.to_nat (sizeof_TData cfg)) in *.
  assert (B : forall k, (k < 4)%nat -> is_byte (nth (n + k) bs 0)).
  { intros k Hk. rewrite Forall_forall in Hb. apply Hb. apply nth_In. lia. }
  pose proof (B 0%nat ltac:(lia)) as B0. rewrite Nat.add_0_r in B0.
  rewrite !le16_bytes_value by (try exact B0; apply B; lia).
  cbn [app]. rewrite <- (skipn_four n bs Hl). apply firstn_skipn.
Qed.

Lemma Block_layout_round_trip_witness :
  Block_of_bytes cfg_2x2 (Block_bytes (mkBlock [1; 2; 3; 4] 513 65534 [255]))
    = mkBlock [1; 2; 3; 4] 513 65534 [255] /\
  Block_bytes (Block_of_bytes cfg_2x2 [1; 2; 3; 4; 5; 6; 7; 8; 9]) = [1; 2; 3; 4; 5; 6; 7; 8; 9].
Proof.
  split.
  - apply (proj1 (Block_layout_round_trip cfg_2x2)); cbn; [reflexivity | lia | lia].
  - apply (proj2 (Block_layout_round_trip cfg_2x2)).
    + cbn. lia.
    + repeat constructor; unfold is_byte; lia.
Defined.

(** Different version bytes give different seeds. *)
Lemma seeds_differ_checked :
  forallb (fun x =>
    forallb (fun y => (x =? y) || negb (seed_of_version x =? seed_of_version y))
            (range 256))
    (range 256) = true.
Proof. vm_compute. reflexivity. Qed.

Lemma crc_seed_inj cfg cfg' :
  crc_seed cfg = crc_seed cfg' -> u8 (datatype_version cfg) = u8 (datatype_version cfg').
Proof.
  intros E.
  assert (R : forall c, 0 <= u8 (datatype_version c) < 256)
    by (intros c; unfold u8; apply Z.mod_pos_bound; lia).
  pose proof seeds_differ_checked as C.
  rewrite forallb_forall in C.
  specialize (C _ (range_In 256 _ (R cfg))).
  rewrite forallb_forall in C.
  specialize (C _ (range_In 256 _ (R cfg'))).
  apply orb_true_iff in C. destruct C as [C|C]; [apply Z.eqb_eq; exact C|].
  apply negb_true_iff, Z.eqb_neq in C. exfalso. apply C. exact E.
Qed.

Lemma le16_bytes_are_bytes x : Forall is_byte (le16_bytes x).
Proof.
  unfold le16_bytes, is_byte. repeat constructor; apply Z.mod_pos_bound; lia.
Qed.

Lemma crc_seed_range cfg : 0 <= crc_seed cfg < 65536.
Proof. unfold crc_seed. apply u16_range. Qed.

(** X14: a block that passes CRC verification under one version tag fails
    it under every other: the version tags seed the CRC differently. *)
Theorem version_separation cfg cfg' (b : Block) :
  u8 (datatype_version cfg) <> u8 (datatype_version cfg') ->
  Forall is_byte (data b) ->
  block_valid cfg b = true -> block_valid cfg' b = false.
Proof.
  intros D Hb V. unfold block_valid, Block_crc in *. apply Z.eqb_eq in V.
  apply Z.eqb_neq. intros V'. rewrite V in V'.
  apply process_bytes_seed_inj in V'.
  - apply D. apply crc_seed_inj. exact V'.
  - apply crc_seed_range.
  - apply crc_seed_range.
  - apply Forall_app. split; [exact Hb | apply le16_bytes_are_bytes].
Qed.

(** X15: a block that passes CRC verification fails it once any one of the
    bytes that the CRC covers (the data and the sequence number) has
    changed. *)
Theorem corruption_detected cfg (b b' : Block) (l1 l2 : list Z) (x x' : Z) :
  data b ++ le16_bytes (sequence_n b) = l1 ++ x :: l2 ->
  data b' ++ le16_bytes (sequence_n b') = l1 ++ x' :: l2 ->
  Forall is_byte l1 -> Forall is_byte l2 -> is_byte x -> is_byte x' -> x <> x' ->
  crc b' = crc b ->
  block_valid cfg b = true -> block_valid cfg b' = false.
Proof.
  intros E E' H1 H2 Hx Hx' D Ec V. unfold block_valid, Block_crc in *.
  apply Z.eqb_eq in V. apply Z.eqb_neq. intros V'.
  rewrite E in V. rewrite E' in V'. rewrite Ec, V in V'.
  apply D. exact (process_bytes_byte_inj l1 l2 x x' _ (crc_seed_range cfg) H1 H2 Hx Hx' V').
Qed.

Section Sequence.

Variable cfg : Config.
Context {M : Type} {nv : NVMem M}.



End Sequence.

(** ** Fault tolerance on the flash device *)

Section Rotation.

Variable cfg : Config.
Hypothesis OK : static_asserts cfg.
Hypothesis Herased : erased_block_invalid cfg.

Local Abbreviation N := (kNumBlocks cfg).
Local Abbreviation BS := (kBlockSize cfg).
Local Abbreviation PS := (kPageSize cfg).
Local Abbreviation B := (kBlocksPerPage cfg).
Local Abbreviation P := (kNumPages cfg).

(** With at least two pages, the region stays consistent with the
    instance when the page after the active block's page is erased. *)
Lemma consistent_after_erase (m : Flash) p :
  consistent cfg m p -> P >= 2 ->
  (forall j, 0 <= j < N -> j <> active_block_n_ p -> ~ writable_at cfg m j) ->
  let q := u32 (active_block_n_ p / B + 1) mod P in
  consistent cfg (Flash_erase m (q * PS) PS) p.
Proof.
  intros C HP2 Full q.
  destruct C as [Cr Ca Cc Cv Cs Crg Cage Cgap Cpg Cpa].
  set (a := active_block_n_ p) in *.
  set (m1 := Flash_erase m (q * PS) PS).
  pose proof (kNumBlocks_range cfg OK) as HN.
  pose proof (kBlocksPerPage_pos cfg OK) as HB.
  pose proof (kPageSize_range cfg OK) as HPS.
  pose proof (blocks_fit_pages cfg OK) as HF.
  pose proof (page_of_block cfg OK a Ca) as Pa.
  destruct (next_page_block cfg OK a Ca) as (Rq & _ & _ & Rb & _). fold q in Rq, Rb.
  assert (NW : forall j, 0 <= j < N -> ~ writable_at cfg m j).
  { intros j Hj Wj. destruct (Z.eq_dec j a) as [->|Dj].
    - exact (writable_not_valid cfg Herased m a Wj Cv).
    - exact (Full j Hj Dj Wj). }
  assert (In_q : forall k, 0 <= k < N -> k / B = q ->
                 writable_at cfg m1 k /\ ~ valid_at cfg m1 k).
  { intros k Hk Pk. apply (erased_not_valid cfg Herased).
    pose proof (block_in_page cfg OK k Hk) as [I1 I2]. rewrite Pk in I1, I2.
    apply Flash_read_erase_inside; lia. }
  assert (Out_q : forall k, 0 <= k < N -> k / B <> q ->
                  Flash_read m1 (BlockLocation cfg k) BS = Flash_read m (BlockLocation cfg k) BS).
  { intros k Hk Pk. apply Flash_read_erase_other.
    pose proof (block_in_page cfg OK k Hk) as [I1 I2].
    destruct (Z.lt_trichotomy (k / B) q) as [L|[L|L]]; [|contradiction|].
    - left. assert ((k / B + 1) * PS <= q * PS) by (apply Z.mul_le_mono_nonneg_r; lia). lia.
    - right. assert ((q + 1) * PS <= k / B * PS) by (apply Z.mul_le_mono_nonneg_r; lia). lia. }
  assert (St : forall k, 0 <= k < N -> k / B <> q -> stored cfg m1 k = stored cfg m k).
  { intros k Hk Pk. unfold stored. f_equal. apply Out_q; assumption. }
  assert (V : forall k, 0 <= k < N -> valid_at cfg m1 k ->
              k / B <> q /\ valid_at cfg m k /\ stored cfg m1 k = stored cfg m k).
  { intros k Hk Vk. destruct (Z.eq_dec (k / B) q) as [E|E].
    - exfalso. exact (proj2 (In_q k Hk E) Vk).
    - split; [exact E|]. split; [|apply St; assumption].
      unfold valid_at in *. rewrite <- (St k Hk E). exact Vk. }
  assert (W : forall j, 0 <= j < N -> writable_at cfg m1 j -> j / B = q).
  { intros j Hj Wj. destruct (Z.eq_dec (j / B) q) as [E|E]; [exact E|]. exfalso.
    apply (NW j Hj). unfold writable_at in *. apply Flash_writable_iff.
    apply Flash_writable_iff in Wj. rewrite <- (Out_q j Hj E). exact Wj. }
  assert (Qcases : (a / B + 1 < P /\ q = a / B + 1) \/ (a / B + 1 = P /\ q = 0)).
  { unfold q. assert (HPb : P < 2 ^ 32).
    { pose proof (pages_fit_region cfg OK). destruct OK as (? & _). nia. }
    rewrite u32_small by lia.
    destruct (Z.eq_dec (a / B + 1) P) as [E|E].
    - right. rewrite E, Z.mod_same by lia. lia.
    - left. rewrite Z.mod_small by lia. lia. }
  assert (Qa : a / B <> q) by (destruct Qcases as [(? & ?)|(? & ?)]; lia).
  pose proof (page_bounds B a HB) as Ba.
  constructor; fold a.
  - exact Cr.
  - exact Ca.
  - rewrite (St a Ca Qa). exact Cc.
  - unfold valid_at. rewrite (St a Ca Qa). exact Cv.
  - exact Cs.
  - intros k Hk Vk. destruct (V k Hk Vk) as (_ & Vm & E). rewrite E. apply Crg; assumption.
  - intros k Hk D Vk. destruct (V k Hk Vk) as (_ & Vm & E). rewrite E. apply Cage; assumption.
  - intros k j Hk Hj D Vk Wj G.
    destruct (V k Hk Vk) as (Pk & Vm & _). pose proof (W j Hj Wj) as Pj.
    pose proof (page_bounds B j HB) as Bj. pose proof (page_bounds B k HB) as Bk.
    rewrite Pj in Bj.
    assert (Same : a <= k -> k < (a / B + 1) * B -> False).
    { intros L1 L2.
      assert (Pk' : k / B = a / B) by (apply (page_unique B k (a / B) HB); lia).
      pose proof (Cpa k Hk D Vm Pk'). lia. }
    assert (Kq : k < q * B \/ (q + 1) * B <= k).
    { destruct (Z.lt_trichotomy (k / B) q) as [L|[L|L]]; [|contradiction|].
      - left. assert ((k / B + 1) * B <= q * B) by (apply Z.mul_le_mono_nonneg_r; lia). lia.
      - right. assert ((q + 1) * B <= k / B * B) by (apply Z.mul_le_mono_nonneg_r; lia). lia. }
    destruct (fwd_cases cfg k j Hk Hj) as [[? F1]|[? F1]];
      destruct (fwd_cases cfg k a Hk Ca) as [[? F2]|[? F2]];
      destruct Qcases as [(Q1 & Q2)|(Q1 & Q2)];
      destruct Kq as [K1|K1];
      rewrite Q2 in *; try lia; try (exfalso; apply Same; nia).
  - intros j k Hj Hk Wj Vk Pg.
    destruct (V k Hk Vk) as (Pk & _ & _). pose proof (W j Hj Wj) as Pj. congruence.
  - intros k Hk D Vk Pg. destruct (V k Hk Vk) as (_ & Vm & _). apply Cpa; assumption.
Qed.


(** X17: power lost between the erase and the write of a [Save] loses
    nothing: with at least two pages, when the region is full and [Save]
    has erased the page after the active block's page, an [Init] on the
    device as the erase left it finds the record saved before. *)
Theorem power_loss_after_erase (m : Flash) (p p3 : Persist) (out : TData) :
  consistent cfg m p -> kNumPages cfg >= 2 ->
  (forall j, 0 <= j < kNumBlocks cfg -> j <> active_block_n_ p ->
             Flash_writable m (BlockLocation cfg j) (kBlockSize cfg) = false) ->
  Crc16.tables_consistent (crc_ p3) ->
  let current_page := u32 (active_block_n_ p) / kBlocksPerPage cfg in
  let next_page := u32 (current_page + 1) mod kNumPages cfg in
  let m1 := Flash_erase m (u32 (next_page * kPageSize cfg)) (kPageSize cfg) in
  exists p4,
    Init cfg m1 p3 = (m1, p4, RESULT_SUCCESS) /\
    Load p4 out = (data (block_ p), RESULT_SUCCESS).
Proof.
  intros C HP2 Full T. cbv zeta.
  pose proof (c_active _ _ _ C) as Ha. pose proof (kNumBlocks_le cfg) as HNle.
  rewrite (u32_small (active_block_n_ p)) by lia.
  destruct (next_page_block cfg OK _ Ha) as (_ & E1 & _). cbv zeta in E1. rewrite E1.
  assert (Full' : forall j, 0 <= j < N -> j <> active_block_n_ p -> ~ writable_at cfg m j).
  { intros j Hj D Wj. unfold writable_at in Wj. rewrite (Full j Hj D) in Wj. discriminate. }
  pose proof (consistent_after_erase m p C HP2 Full') as C1. cbv zeta in C1.
  destruct (Init_consistent cfg OK _ p C1 p3 T) as (p4 & E4 & C4 & B4).
  exists p4. split; [exact E4|].
  rewrite (Load_consistent cfg _ p4 out C4), B4. reflexivity.
Qed.

End Rotation.

(** ** A failing write *)

Section Lift.

Variable cfg : Config.
Context {M : Type} {nv : NVMem M}.

Lemma NextWritableBlock_loop_Faulty fuel : forall (f : Faulty M) c n,
  NextWritableBlock_loop cfg fuel f c n =
  match NextWritableBlock_loop cfg fuel (healthy f) c n with
  | Some (m, r) => Some (with_flags f m, r)
  | None => None
  end.
Proof.
  induction fuel as [|fuel IH]; intros f c n; [reflexivity|].
  cbn [NextWritableBlock_loop Writable Faulty_NVMem].
  destruct (Writable (healthy f) _ _) as [m1 w].
  destruct w; [reflexivity|].
  destruct (negb _); [|reflexivity].
  fold (with_flags f m1). rewrite IH. cbn [with_flags healthy].
  destruct (NextWritableBlock_loop cfg fuel m1 c _) as [[m r]|]; reflexivity.
Qed.

Lemma NextWritableBlock_Faulty (f : Faulty M) c :
  NextWritableBlock cfg f c =
  match NextWritableBlock cfg (healthy f) c with
  | Some (m, r) => Some (with_flags f m, r)
  | None => None
  end.
Proof.
  unfold NextWritableBlock. rewrite NextWritableBlock_loop_Faulty.
  destruct (NextWritableBlock_loop cfg _ (healthy f) _ _) as [[m r]|]; reflexivity.
Qed.




End Lift.

Section FailingWrite.

Variable cfg : Config.
Hypothesis OK : static_asserts cfg.
Hypothesis Herased : erased_block_invalid cfg.

Local Abbreviation N := (kNumBlocks cfg).



End FailingWrite.

(** ** The legacy chain *)

Lemma share_statics_tables from to :
  Crc16.tables_consistent (crc_ from) ->
  Crc16.tables_consistent (crc_ (share_statics from to)).
Proof. intros H I. destruct (H I) as [L T]. split; assumption. Qed.

Lemma ready_tables_consistent c : Crc16.ready c -> Crc16.tables_consistent c.
Proof. intros H _. exact H. Qed.

Section LegacyAnyDevice.

Context {M : Type} {nv : NVMem M}.

Lemma LoadLegacy_own (legacy : list Legacy) (m : M) (p : Persist) (out : TData) :
  active_block_n_ p <> -1 ->
  LoadLegacy legacy m p out = (m, p, data (block_ p), RESULT_SUCCESS).
Proof.
  intros Ha. apply Z.eqb_neq in Ha.
  destruct legacy as [|First Rest]; cbn [LoadLegacy]; unfold Load; rewrite Ha; reflexivity.
Qed.

(** X19: an instance that has a record of its own never consults the
    prior generations: [LoadLegacy] yields the cached record, whatever
    the type list, and neither the device nor the instance is touched. *)
Theorem LoadLegacy_own_record (legacy : list Legacy) (m : M) (p : Persist) (out : TData) :
  active_block_n_ p <> -1 ->
  LoadLegacy legacy m p out = (m, p, data (block_ p), RESULT_SUCCESS).
Proof. apply LoadLegacy_own. Qed.

(** X20: when no generation has a record, the current one included,
    [LoadLegacy] returns [RESULT_FAIL_NO_DATA] and leaves [data] and the
    device as they were. *)
Theorem LoadLegacy_no_record (legacy : list Legacy) (m : M) :
  Forall (fun l => no_valid_block (legacy_config l) m) legacy ->
  forall (p : Persist) (out : TData),
  active_block_n_ p = -1 -> Crc16.tables_consistent (crc_ p) ->
  exists p',
    LoadLegacy legacy m p out = (m, p', out, RESULT_FAIL_NO_DATA) /\
    block_ p' = block_ p /\ active_block_n_ p' = -1 /\
    Crc16.tables_consistent (crc_ p').
Proof.
  induction 1 as [|First Rest Hno _ IH]; intros p out Ha T; cbn [LoadLegacy]; unfold Load.
  - rewrite Ha. exists p. auto.
  - rewrite Ha. change (-1 =? -1) with true. cbv iota.
    destruct (Init_no_valid (legacy_config First) m Hno
                (share_statics p (legacy_members First)) (share_statics_tables _ _ T))
      as (p1 & E & A1 & R1).
    rewrite E.
    destruct (IH p1 (legacy_data First) A1 (ready_tables_consistent _ R1))
      as (p2 & E2 & _ & _ & T2).
    rewrite E2. eexists. split; [reflexivity|].
    split; [reflexivity|]. split; [exact Ha|]. apply share_statics_tables. exact T2.
Qed.

End LegacyAnyDevice.

(** X21: a record that a prior generation saved is found and converted.
    On the flash device, when the current instance and the generations
    [pre] that come first in the type list have no record, and the region
    is as a generation [old] left it, [LoadLegacy] returns
    [RESULT_SUCCESS] with that record, converted by [old] and then by the
    generations of [pre], the nearest to [old] first; the generations
    after [old] are not consulted. *)
Theorem LoadLegacy_migrates (pre : list Legacy) (old : Legacy) (rest : list Legacy)
    (m : Flash) (q : Persist) :
  Forall (fun l => no_valid_block (legacy_config l) m) pre ->
  static_asserts (legacy_config old) ->
  consistent (legacy_config old) m q ->
  forall (p : Persist) (out : TData),
  active_block_n_ p = -1 -> Crc16.tables_consistent (crc_ p) ->
  exists p',
    LoadLegacy (pre ++ old :: rest) m p out
      = (m, p', cast_chain pre (legacy_cast old (data (block_ q))), RESULT_SUCCESS) /\
    block_ p' = block_ p /\ active_block_n_ p' = -1.
Proof.
  intros Hpre OK C.
  induction Hpre as [|First pre Hno _ IH]; intros p out Ha T;
    cbn [app LoadLegacy cast_chain fold_right]; unfold Load; rewrite Ha;
    change (-1 =? -1) with true; cbv iota.
  - destruct (Init_consistent (legacy_config old) OK m q C
                (share_statics p (legacy_members old)) (share_statics_tables _ _ T))
      as (p1 & E & C1 & B1).
    rewrite E.
    assert (A1 : active_block_n_ p1 <> -1) by (pose proof (c_active _ _ _ C1); lia).
    rewrite (LoadLegacy_own rest m p1 (legacy_data old) A1), B1.
    eexists. split; [reflexivity|]. split; [reflexivity | exact Ha].
  - destruct (Init_no_valid (legacy_config First) m Hno
                (share_statics p (legacy_members First)) (share_statics_tables _ _ T))
      as (p1 & E & A1 & R1).
    rewrite E.
    destruct (IH p1 (legacy_data First) A1 (ready_tables_consistent _ R1))
      as (p2 & E2 & _).
    fold (cast_chain pre (legacy_cast old (data (block_ q)))) . rewrite E2.
    eexists. split; [reflexivity|]. split; [reflexivity | exact Ha].
Qed.

Section LegacyReads.

Context {M : Type} {nv : NVMem M}.

Lemma Reset_iteration_reads cfg i (m : Logged M) p :
  let '(m1, _, _) := Reset_iteration cfg i m p in
  exists new, accesses m1 = new ++ accesses m /\ Forall is_read new.
Proof.
  unfold Reset_iteration. cbn [Read Logged_NVMem].
  destruct (Read (logged m) _ _) as [m0 [ok bytes]].
  assert (G : exists new,
            Access_Read (BlockLocation cfg i) (kBlockSize cfg) :: accesses m
            = new ++ accesses m /\ Forall is_read new).
  { exists [Access_Read (BlockLocation cfg i) (kBlockSize cfg)].
    split; [reflexivity|]. repeat constructor. }
  destruct (negb ok); [exact G|].
  destruct (GetCRC cfg _ _) as [c v].
  destruct (_ =? v); [|exact G].
  destruct (_ || _); exact G.
Qed.

Lemma Reset_scan_reads cfg blocks : forall (m : Logged M) p,
  let '(m1, _, _) := Reset_scan cfg blocks m p in
  exists new, accesses m1 = new ++ accesses m /\ Forall is_read new.
Proof.
  induction blocks as [|i rest IH]; intros m p; cbn [Reset_scan].
  - exists []. split; [reflexivity | constructor].
  - pose proof (Reset_iteration_reads cfg i m p) as H1.
    destruct (Reset_iteration cfg i m p) as [[m1 p1] ok].
    destruct ok; [|exact H1].
    specialize (IH m1 p1). destruct (Reset_scan cfg rest m1 p1) as [[m2 p2] ok2].
    destruct H1 as (n1 & S1 & R1), IH as (n2 & S2 & R2).
    exists (n2 ++ n1). split.
    + rewrite S2, S1, app_assoc. reflexivity.
    + apply Forall_app. split; assumption.
Qed.

(** [Init] only reads, and returns [RESULT_SUCCESS] or
    [RESULT_FAIL_READ]. *)
Lemma Init_reads cfg (m : Logged M) p :
  let '(m1, _, r) := Init cfg m p in
  (exists new, accesses m1 = new ++ accesses m /\ Forall is_read new) /\
  (r = RESULT_SUCCESS \/ r = RESULT_FAIL_READ).
Proof.
  unfold Init, Reset.
  match goal with |- context [Reset_scan cfg ?bl m ?q] =>
    pose proof (Reset_scan_reads cfg bl m q) as H1;
    destruct (Reset_scan cfg bl m q) as [[m1 p1] ok] end.
  destruct (negb ok); [split; [exact H1 | right; reflexivity]|].
  destruct (negb _); [|split; [exact H1 | left; reflexivity]].
  cbn [Read Logged_NVMem].
  destruct (Read (logged m1) _ _) as [m2 [ok2 bytes]].
  destruct H1 as (n1 & S1 & R1).
  assert (G : exists new,
            Access_Read (BlockLocation cfg (active_block_n_ p1)) (kBlockSize cfg)
              :: accesses m1 = new ++ accesses m /\ Forall is_read new).
  { exists (Access_Read (BlockLocation cfg (active_block_n_ p1)) (kBlockSize cfg) :: n1).
    split; [rewrite S1; reflexivity|]. constructor; [exact I | exact R1]. }
  destruct (negb ok2); (split; [exact G | auto]).
Qed.

(** X22: whatever the driver does, [LoadLegacy] only reads.  For every
    type list, every call it makes is a [Read]; it returns
    [RESULT_SUCCESS], [RESULT_FAIL_NO_DATA] or [RESULT_FAIL_READ], leaves
    [data] as it was unless it returns [RESULT_SUCCESS], and leaves the
    cached block, the active block and the sequence number of the
    instance as they were. *)
Theorem LoadLegacy_reads_only (legacy : list Legacy) :
  forall (m : Logged M) (p : Persist) (out : TData),
  let '(m1, p1, o, r) := LoadLegacy legacy m p out in
  (exists new, accesses m1 = new ++ accesses m /\ Forall is_read new) /\
  (r = RESULT_SUCCESS \/ r = RESULT_FAIL_NO_DATA \/ r = RESULT_FAIL_READ) /\
  (r <> RESULT_SUCCESS -> o = out) /\
  block_ p1 = block_ p /\ active_block_n_ p1 = active_block_n_ p /\
  sequence_ p1 = sequence_ p.
Proof.
  induction legacy as [|First Rest IH]; intros m p out; cbn [LoadLegacy]; unfold Load.
  - destruct (active_block_n_ p =? -1).
    + split; [exists []; split; [reflexivity | constructor]|].
      split; [auto|]. repeat split.
    + split; [exists []; split; [reflexivity | constructor]|].
      split; [auto|]. split; [intros F; contradiction|]. repeat split.
  - destruct (active_block_n_ p =? -1).
    2:{ split; [exists []; split; [reflexivity | constructor]|].
        split; [auto|]. split; [intros F; contradiction|]. repeat split. }
    pose proof (Init_reads (legacy_config First) m
                  (share_statics p (legacy_members First))) as H1.
    destruct (Init (legacy_config First) m (share_statics p (legacy_members First)))
      as [[m1 p1] r1].
    destruct H1 as ((new1 & S1 & R1) & Hr1).
    destruct r1.
    + specialize (IH m1 p1 (legacy_data First)).
      destruct (LoadLegacy Rest m1 p1 (legacy_data First)) as [[[m2 p2] l_data] r2].
      destruct IH as ((new2 & S2 & R2) & Hr2 & _).
      assert (Acc : exists new, accesses m2 = new ++ accesses m /\ Forall is_read new).
      { exists (new2 ++ new1). split.
        - rewrite S2, S1, app_assoc. reflexivity.
        - apply Forall_app. split; assumption. }
      destruct r2; (split; [exact Acc|]); (split; [auto|]);
        (split; [try (intros F; contradiction); reflexivity|]); repeat split.
    + destruct Hr1 as [F|F]; discriminate F.
    + destruct Hr1 as [F|F]; discriminate F.
    + destruct Hr1 as [F|F]; discriminate F.
    + split; [exists new1; split; assumption|].
      split; [auto|]. repeat split.
Qed.

End LegacyReads.

(** ** The further properties at concrete inputs *)

Lemma erased_block_invalid_2x1 : erased_block_invalid cfg_2x1.
Proof. vm_compute. reflexivity. Qed.

Lemma static_init_tables_consistent : Crc16.tables_consistent Crc16.static_init.
Proof. intros H. discriminate H. Qed.

(** After [Init] and further calls on a device fresh from the factory,
    an instance with an active block is consistent with the region. *)
Lemma run_Init_consistent cfg calls :
  static_asserts cfg -> erased_block_invalid cfg ->
  Forall (well_sized cfg) calls ->
  let s := run cfg Flash_virgin Persist_raw (Call_Init :: calls) in
  active_block_n_ (instance_of s) <> -1 ->
  consistent cfg (device_of s) (instance_of s).
Proof.
  intros OK Her Hs. cbn [run].
  destruct (Init_blank cfg Flash_virgin Persist_raw (virgin_no_valid_block cfg Her)
              static_init_tables_consistent) as (p1 & E & B).
  rewrite E.
  destruct (run_consistent cfg OK Her calls Flash_virgin p1 (or_introl B) Hs)
    as (m' & p' & E' & H).
  rewrite E'. cbn [device_of instance_of]. intros Ha.
  destruct H as [Bl|C]; [destruct Bl; contradiction | exact C].
Qed.

Lemma saved_2x2_consistent :
  consistent cfg_2x2 (device_of saved_2x2) (instance_of saved_2x2).
Proof.
  apply (run_Init_consistent cfg_2x2 [Call_Save [1; 2; 3; 4]]
           static_asserts_2x2 erased_block_invalid_2x2).
  - repeat constructor.
  - vm_compute. discriminate.
Qed.

Lemma full_flash_2x1_consistent :
  consistent cfg_2x1 (device_of full_flash_2x1) (instance_of full_flash_2x1).
Proof.
  apply (run_Init_consistent cfg_2x1 [Call_Save [1; 1; 1; 1]; Call_Save [2; 2; 2; 2]]
           static_asserts_2x1 erased_block_invalid_2x1).
  - repeat constructor.
  - vm_compute. discriminate.
Qed.

Lemma Init_accesses_witness :
  let '(m1, p1, r) := Init cfg_2x2 blank_log Persist_raw in
  exists new, accesses m1 = new ++ accesses blank_log /\
    Forall (access_ok cfg_2x2) new /\ Forall is_read new /\
    Z.of_nat (length new) <= kNumBlocks cfg_2x2 + 1 /\
    (active_block_n_ p1 = -1 \/ 0 <= active_block_n_ p1 < kNumBlocks cfg_2x2).
Proof.
  destruct (Init cfg_2x2 blank_log Persist_raw) as [[m1 p1] r] eqn:E.
  exact (Init_accesses cfg_2x2 static_asserts_2x2 blank_log Persist_raw m1 p1 r E).
Defined.

Lemma Save_accesses_witness :
  match Save cfg_2x2 blank_log Persist_none [1; 2; 3; 4] with
  | Some (m1, _, _) =>
      exists new, accesses m1 = new ++ accesses blank_log /\
                  Forall (access_ok cfg_2x2) new
  | None => False
  end.
Proof.
  destruct (Save cfg_2x2 blank_log Persist_none [1; 2; 3; 4]) as [[[m1 p1] r]|] eqn:E.
  - apply (Save_accesses cfg_2x2 static_asserts_2x2 blank_log Persist_none
             [1; 2; 3; 4] m1 p1 r); [|exact E].
    change (kNumBlocks cfg_2x2) with 4. cbn [active_block_n_ Persist_none]. lia.
  - vm_compute in E. discriminate E.
Defined.

Lemma NextWritableBlock_probes_witness :
  exists m1 n new,
    NextWritableBlock cfg_2x2 blank_log (-1) = Some (m1, n) /\
    accesses m1 = new ++ accesses blank_log /\ Forall is_probe new /\
    1 <= Z.of_nat (length new) <= kNumBlocks cfg_2x2 /\
    (n = -1 \/
     (0 <= n < kNumBlocks cfg_2x2 /\ n <> -1 /\
      (-1 = -1 -> n <> kNumBlocks cfg_2x2 - 1))).
Proof.
  apply (NextWritableBlock_probes cfg_2x2 static_asserts_2x2).
  change (kNumBlocks cfg_2x2) with 4. lia.
Defined.

Lemma NextWritableBlock_first_writable_witness :
  exists n,
    NextWritableBlock cfg_2x2 one_block_2x2 0 = Some (one_block_2x2, n) /\
    ((n = -1 /\
      forall j, 0 <= j < kNumBlocks cfg_2x2 -> j <> 0 ->
                Flash_writable one_block_2x2 (BlockLocation cfg_2x2 j) (kBlockSize cfg_2x2)
                = false) \/
     (0 <= n < kNumBlocks cfg_2x2 /\ n <> 0 /\
      Flash_writable one_block_2x2 (BlockLocation cfg_2x2 n) (kBlockSize cfg_2x2) = true /\
      forall j, 0 <= j < kNumBlocks cfg_2x2 ->
                0 < (j - 0) mod kNumBlocks cfg_2x2 < (n - 0) mod kNumBlocks cfg_2x2 ->
                Flash_writable one_block_2x2 (BlockLocation cfg_2x2 j) (kBlockSize cfg_2x2)
                = false)).
Proof.
  apply (NextWritableBlock_first_writable cfg_2x2 one_block_2x2 0 static_asserts_2x2).
  change (kNumBlocks cfg_2x2) with 4. lia.
Defined.

Lemma Process_detects_one_byte_witness :
  snd (Crc16.Process (Crc16.Seed (Crc16.Init Crc16.static_init) 0xFFFF) ([1] ++ 2 :: [3]))
  <> snd (Crc16.Process (Crc16.Seed (Crc16.Init Crc16.static_init) 0xFFFF) ([1] ++ 7 :: [3])).
Proof.
  apply Process_detects_one_byte.
  - exact static_init_tables_consistent.
  - lia.
  - repeat constructor; unfold is_byte; lia.
  - repeat constructor; unfold is_byte; lia.
  - unfold is_byte; lia.
  - unfold is_byte; lia.
  - lia.
Defined.

Lemma Process_separates_seeds_witness :
  snd (Crc16.Process (Crc16.Seed (Crc16.Init Crc16.static_init) 0xFE01) [1; 2; 3])
  <> snd (Crc16.Process (Crc16.Seed (Crc16.Init Crc16.static_init) 0xFD02) [1; 2; 3]).
Proof.
  apply Process_separates_seeds.
  - exact static_init_tables_consistent.
  - lia.
  - lia.
  - repeat constructor; unfold is_byte; lia.
  - lia.
Defined.

Lemma Process_residue_witness :
  let r := snd (Crc16.Process (Crc16.Seed (Crc16.Init Crc16.static_init) 0xFFFF)
                              [49; 50; 51; 52; 53; 54; 55; 56; 57]) in
  snd (Crc16.Process (Crc16.Seed (Crc16.Init Crc16.static_init) 0xFFFF)
                     ([49; 50; 51; 52; 53; 54; 55; 56; 57]
                        ++ [Z.shiftr r 8; Z.land r 0xFF])) = 0.
Proof.
  apply Process_residue.
  - exact static_init_tables_consistent.
  - lia.
  - repeat constructor; unfold is_byte; lia.
Defined.

Lemma version_separation_witness :
  block_valid cfg_2x2 block_v1 = true /\ block_valid cfg_2x2_v2 block_v1 = false.
Proof.
  assert (V : block_valid cfg_2x2 block_v1 = true) by (vm_compute; reflexivity).
  split; [exact V|].
  apply (version_separation cfg_2x2 cfg_2x2_v2 block_v1).
  - vm_compute. discriminate.
  - repeat constructor; unfold is_byte; lia.
  - exact V.
Defined.

Lemma corruption_detected_witness :
  block_valid cfg_2x2 block_v1 = true /\ block_valid cfg_2x2 block_v1_corrupt = false.
Proof.
  assert (V : block_valid cfg_2x2 block_v1 = true) by (vm_compute; reflexivity).
  split; [exact V|].
  apply (corruption_detected cfg_2x2 block_v1 block_v1_corrupt [1; 2] [4; 1; 0] 3 9).
  - reflexivity.
  - reflexivity.
  - repeat constructor; unfold is_byte; lia.
  - repeat constructor; unfold is_byte; lia.
  - unfold is_byte; lia.
  - unfold is_byte; lia.
  - lia.
  - reflexivity.
  - exact V.
Defined.


Lemma power_loss_after_erase_witness :
  let m := device_of full_flash_2x1 in
  let p := instance_of full_flash_2x1 in
  let current_page := u32 (active_block_n_ p) / kBlocksPerPage cfg_2x1 in
  let next_page := u32 (current_page + 1) mod kNumPages cfg_2x1 in
  let m1 := Flash_erase m (u32 (next_page * kPageSize cfg_2x1)) (kPageSize cfg_2x1) in
  data (block_ p) = [2; 2; 2; 2] /\
  exists p4,
    Init cfg_2x1 m1 Persist_raw = (m1, p4, RESULT_SUCCESS) /\
    Load p4 [] = (data (block_ p), RESULT_SUCCESS).
Proof.
  cbv zeta. split; [vm_compute; reflexivity|].
  apply (power_loss_after_erase cfg_2x1 static_asserts_2x1 erased_block_invalid_2x1
           (device_of full_flash_2x1) (instance_of full_flash_2x1) Persist_raw []
           full_flash_2x1_consistent).
  - vm_compute. discriminate.
  - intros j Hj D.
    assert (Ej : j = 0).
    { change (kNumBlocks cfg_2x1) with 2 in Hj.
      assert (Ea : active_block_n_ (instance_of full_flash_2x1) = 1)
        by (vm_compute; reflexivity).
      rewrite Ea in D. lia. }
    subst j. vm_compute. reflexivity.
  - exact static_init_tables_consistent.
Defined.


Lemma LoadLegacy_own_record_witness :
  LoadLegacy [legacy_v1] Flash_virgin (instance_of saved_2x2) []
  = (Flash_virgin, instance_of saved_2x2, data (block_ (instance_of saved_2x2)),
     RESULT_SUCCESS).
Proof.
  apply LoadLegacy_own_record. vm_compute. discriminate.
Defined.

Lemma no_valid_block_v2 : no_valid_block cfg_2x2_v2 (device_of saved_2x2).
Proof.
  intros i Hi. change (kNumBlocks cfg_2x2_v2) with 4 in Hi.
  eexists. split; [reflexivity|].
  assert (C : i = 0 \/ i = 1 \/ i = 2 \/ i = 3) by lia.
  destruct C as [->|[->|[->| ->]]]; vm_compute; reflexivity.
Qed.

Lemma LoadLegacy_migrates_witness :
  exists p',
    LoadLegacy ([legacy_v2] ++ legacy_v1 :: []) (device_of saved_2x2) Persist_none []
      = (device_of saved_2x2, p', [4; 3; 2; 1], RESULT_SUCCESS) /\
    block_ p' = block_ Persist_none /\ active_block_n_ p' = -1.
Proof.
  assert (Ed : cast_chain [legacy_v2]
                 (legacy_cast legacy_v1 (data (block_ (instance_of saved_2x2))))
               = [4; 3; 2; 1]) by (vm_compute; reflexivity).
  rewrite <- Ed.
  apply (LoadLegacy_migrates [legacy_v2] legacy_v1 [] (device_of saved_2x2)
           (instance_of saved_2x2)).
  - constructor; [exact no_valid_block_v2 | constructor].
  - exact static_asserts_2x2.
  - exact saved_2x2_consistent.
  - reflexivity.
  - exact static_init_tables_consistent.
Defined.

Lemma LoadLegacy_no_record_witness :
  exists p',
    LoadLegacy [legacy_v2; legacy_v1] Flash_virgin Persist_none [0; 0; 0; 0]
      = (Flash_virgin, p', [0; 0; 0; 0], RESULT_FAIL_NO_DATA) /\
    block_ p' = block_ Persist_none /\ active_block_n_ p' = -1 /\
    Crc16.tables_consistent (crc_ p').
Proof.
  apply LoadLegacy_no_record.
  - constructor; [|constructor; [|constructor]].
    + apply virgin_no_valid_block. vm_compute. reflexivity.
    + apply virgin_no_valid_block. exact erased_block_invalid_2x2.
  - reflexivity.
  - exact static_init_tables_consistent.
Defined.

(** * [Save] under observation *)

(** ** The results of [Save] and the answers of the driver *)

Section Answers.

Variable cfg : Config.
Context {M : Type} {nv : NVMem M}.

Lemma NextWritableBlock_loop_answers fuel : forall (m : Traced M) current next m1 n1,
  NextWritableBlock_loop cfg fuel m current next = Some (m1, n1) ->
  exists new, answers m1 = new ++ answers m /\ Forall (of_kind is_probe) new.
Proof.
  induction fuel as [|fuel IH]; intros m current next m1 n1;
    cbn [NextWritableBlock_loop]; [discriminate|].
  cbn [Writable Traced_NVMem].
  destruct (Writable (traced m) _ _) as [m' w].
  set (e := (Access_Writable (BlockLocation cfg (u32 (next + 1) mod kNumBlocks cfg))
                             (kBlockSize cfg), w)).
  assert (One : exists new, e :: answers m = new ++ answers m /\ Forall (of_kind is_probe) new).
  { exists [e]. split; [reflexivity|]. repeat constructor. }
  destruct w.
  - intros E. inversion E. subst. exact One.
  - destruct (negb _).
    + intros E. destruct (IH _ _ _ _ _ E) as (new & S & F).
      exists (new ++ [e]). split.
      * rewrite S. cbn [answers]. rewrite <- app_assoc. reflexivity.
      * apply Forall_app. split; [exact F|]. repeat constructor.
    + intros E. inversion E. subst. exact One.
Qed.

Lemma NextWritableBlock_answers (m : Traced M) current m1 n1 :
  NextWritableBlock cfg m current = Some (m1, n1) ->
  exists new, answers m1 = new ++ answers m /\ Forall (of_kind is_probe) new.
Proof.
  unfold NextWritableBlock.
  destruct (NextWritableBlock_loop cfg _ m _ _) as [[m' n']|] eqn:E; [|discriminate].
  intros F. inversion F. subst. exact (NextWritableBlock_loop_answers _ _ _ _ _ _ E).
Qed.

Lemma Reset_iteration_answers i (m : Traced M) p :
  let '(m1, _, _) := Reset_iteration cfg i m p in
  exists new, answers m1 = new ++ answers m /\ Forall (of_kind is_read) new.
Proof.
  unfold Reset_iteration. cbn [Read Traced_NVMem].
  destruct (Read (traced m) _ _) as [m0 [ok bytes]].
  assert (G : exists new,
            (Access_Read (BlockLocation cfg i) (kBlockSize cfg), ok) :: answers m
            = new ++ answers m /\ Forall (of_kind is_read) new).
  { exists [(Access_Read (BlockLocation cfg i) (kBlockSize cfg), ok)].
    split; [reflexivity|]. repeat constructor. }
  destruct (negb ok); [exact G|].
  destruct (GetCRC cfg _ _) as [c v].
  destruct (_ =? v); [|exact G].
  destruct (_ || _); exact G.
Qed.

Lemma Reset_scan_answers blocks : forall (m : Traced M) p,
  let '(m1, _, _) := Reset_scan cfg blocks m p in
  exists new, answers m1 = new ++ answers m /\ Forall (of_kind is_read) new.
Proof.
  induction blocks as [|i rest IH]; intros m p; cbn [Reset_scan].
  - exists []. split; [reflexivity | constructor].
  - pose proof (Reset_iteration_answers i m p) as H1.
    destruct (Reset_iteration cfg i m p) as [[m1 p1] ok].
    destruct ok; [|exact H1].
    specialize (IH m1 p1). destruct (Reset_scan cfg rest m1 p1) as [[m2 p2] ok2].
    destruct H1 as (n1 & S1 & R1), IH as (n2 & S2 & R2).
    exists (n2 ++ n1). split.
    + rewrite S2, S1, app_assoc. reflexivity.
    + apply Forall_app. split; assumption.
Qed.

Lemma Reset_answers (m : Traced M) p :
  let '(m1, _, _) := Reset cfg m p in
  exists new, answers m1 = new ++ answers m /\ Forall (of_kind is_read) new.
Proof.
  unfold Reset.
  match goal with |- context [Reset_scan cfg ?bl m ?q] =>
    pose proof (Reset_scan_answers bl m q) as H1;
    destruct (Reset_scan cfg bl m q) as [[m1 p1] ok] end.
  destruct (negb ok); [exact H1|].
  destruct (negb _); [|exact H1].
  cbn [Read Traced_NVMem].
  destruct (Read (traced m1) _ _) as [m2 [ok2 bytes]].
  destruct H1 as (n1 & S1 & R1).
  assert (G : exists new,
            (Access_Read (BlockLocation cfg (active_block_n_ p1)) (kBlockSize cfg), ok2)
              :: answers m1 = new ++ answers m /\ Forall (of_kind is_read) new).
  { exists ((Access_Read (BlockLocation cfg (active_block_n_ p1)) (kBlockSize cfg), ok2) :: n1).
    split; [rewrite S1; reflexivity|]. constructor; [exact I | exact R1]. }
  destruct (negb ok2); exact G.
Qed.

(** [Save_commit] writes once; only when that write has failed does it
    read, and then it returns [RESULT_FAIL_WRITE] whatever the reads
    answer. *)
Lemma Save_commit_answers (m : Traced M) p nb d :
  let '(m1, _, r) := Save_commit cfg m p nb d in
  exists rd l s ok,
    answers m1 = rd ++ (Access_Write l s, ok) :: answers m /\
    Forall (of_kind is_read) rd /\
    ((ok = true /\ rd = [] /\ r = RESULT_SUCCESS) \/
     (ok = false /\ r = RESULT_FAIL_WRITE)).
Proof.
  unfold Save_commit. destruct (GetCRC cfg _ _) as [c v].
  cbn [Write Traced_NVMem].
  destruct (Write (traced m) _ _ _) as [m' ok].
  destruct ok; cbn [negb].
  - exists [], (BlockLocation cfg (active_block_n_ (set_active p nb))), (kBlockSize cfg), true.
    split; [reflexivity|]. split; [constructor|]. left. auto.
  - match goal with |- context [Reset cfg ?m0 ?q] =>
      pose proof (Reset_answers m0 q) as H1;
      destruct (Reset cfg m0 q) as [[m2 p2] r2] end.
    destruct H1 as (rd & S & F). cbn [answers] in S.
    exists rd, (BlockLocation cfg (active_block_n_ (set_active p nb))), (kBlockSize cfg), false.
    split; [exact S|]. split; [exact F|]. right. auto.
Qed.

(** The calls of a [Save], the latest first: nothing when the data are
    the same; else the probes of [NextWritableBlock], at most one erase,
    and, unless the erase has failed, one write, followed by the reads of
    [Reset] when it has failed. *)
Lemma Save_answers (m : Traced M) p d m1 p1 r :
  Save cfg m p d = Some (m1, p1, r) ->
  exists new, answers m1 = new ++ answers m /\
    ((DataIsSame p d = true /\ new = [] /\ r = RESULT_SUCCESS) \/
     (DataIsSame p d = false /\
      exists probes erases,
        Forall (of_kind is_probe) probes /\
        Forall (fun e => is_erase (fst e) /\ snd e = true) erases /\
        ((exists l s, new = (Access_Erase l s, false) :: probes /\ r = RESULT_FAIL_ERASE) \/
         (exists rd l s ok,
            new = rd ++ (Access_Write l s, ok) :: erases ++ probes /\
            Forall (of_kind is_read) rd /\
            ((ok = true /\ rd = [] /\ r = RESULT_SUCCESS) \/
             (ok = false /\ r = RESULT_FAIL_WRITE)))))).
Proof.
  unfold Save. destruct (DataIsSame p d) eqn:Same.
  { intros E. inversion E. subst. exists []. split; [reflexivity|]. left. auto. }
  destruct (NextWritableBlock cfg m (active_block_n_ p)) as [[m2 n]|] eqn:EN; [|discriminate].
  destruct (NextWritableBlock_answers _ _ _ _ EN) as (probes & S & F).
  assert (Commit : forall (m3 : Traced M) q nb erases,
            answers m3 = erases ++ answers m2 ->
            Forall (fun e => is_erase (fst e) /\ snd e = true) erases ->
            Some (Save_commit cfg m3 q nb d) = Some (m1, p1, r) ->
            exists new, answers m1 = new ++ answers m /\
              ((false = true /\ new = [] /\ r = RESULT_SUCCESS) \/
               (false = false /\
                exists probes erases,
                  Forall (of_kind is_probe) probes /\
                  Forall (fun e => is_erase (fst e) /\ snd e = true) erases /\
                  ((exists l s, new = (Access_Erase l s, false) :: probes
                                /\ r = RESULT_FAIL_ERASE) \/
                   (exists rd l s ok,
                      new = rd ++ (Access_Write l s, ok) :: erases ++ probes /\
                      Forall (of_kind is_read) rd /\
                      ((ok = true /\ rd = [] /\ r = RESULT_SUCCESS) \/
                       (ok = false /\ r = RESULT_FAIL_WRITE))))))).
  { intros m3 q nb erases S3 F3 E.
    pose proof (Save_commit_answers m3 q nb d) as H.
    destruct (Save_commit cfg m3 q nb d) as [[m4 p4] r4].
    assert (G : (m4, p4, r4) = (m1, p1, r)) by congruence.
    inversion G. subst. clear G E.
    destruct H as (rd & l & s & ok & S4 & F4 & Hr).
    exists (rd ++ (Access_Write l s, ok) :: erases ++ probes). split.
    - rewrite S4, S3, S. rewrite <- !app_assoc. cbn [app]. rewrite <- app_assoc. reflexivity.
    - right. split; [reflexivity|]. exists probes, erases.
      split; [exact F|]. split; [exact F3|]. right.
      exists rd, l, s, ok. auto. }
  assert (Failed : forall (m3 : Traced M) l s,
            answers m3 = (Access_Erase l s, false) :: answers m2 ->
            Some (m3, p, RESULT_FAIL_ERASE) = Some (m1, p1, r) ->
            exists new, answers m1 = new ++ answers m /\
              ((false = true /\ new = [] /\ r = RESULT_SUCCESS) \/
               (false = false /\
                exists probes erases,
                  Forall (of_kind is_probe) probes /\
                  Forall (fun e => is_erase (fst e) /\ snd e = true) erases /\
                  ((exists l s, new = (Access_Erase l s, false) :: probes
                                /\ r = RESULT_FAIL_ERASE) \/
                   (exists rd l s ok,
                      new = rd ++ (Access_Write l s, ok) :: erases ++ probes /\
                      Forall (of_kind is_read) rd /\
                      ((ok = true /\ rd = [] /\ r = RESULT_SUCCESS) \/
                       (ok = false /\ r = RESULT_FAIL_WRITE))))))).
  { intros m3 l s S3 E. inversion E. subst.
    exists ((Access_Erase l s, false) :: probes). split.
    - rewrite S3, S. reflexivity.
    - right. split; [reflexivity|]. exists probes, [].
      split; [exact F|]. split; [constructor|]. left. exists l, s. auto. }
  destruct (n =? -1).
  - destruct (active_block_n_ p =? -1); cbv zeta; cbn [Erase Traced_NVMem];
      destruct (Erase (traced m2) _ _) as [m3 ok]; destruct ok; cbn [negb].
    + match goal with |- context [mkTraced m3 (?e :: _)] =>
        apply (Commit _ _ _ [e]); [reflexivity | repeat constructor] end.
    + eapply Failed. reflexivity.
    + match goal with |- context [mkTraced m3 (?e :: _)] =>
        apply (Commit _ _ _ [e]); [reflexivity | repeat constructor] end.
    + eapply Failed. reflexivity.
  - apply (Commit m2 _ _ []); [reflexivity | constructor].
Qed.

End Answers.

Lemma in_kind (kind : Access -> Prop) (l : list (Access * bool)) e :
  Forall (of_kind kind) l -> In e l -> kind (fst e).
Proof. intros F H. rewrite Forall_forall in F. exact (F e H). Qed.

Lemma in_erases (l : list (Access * bool)) e :
  Forall (fun e => is_erase (fst e) /\ snd e = true) l -> In e l ->
  is_erase (fst e) /\ snd e = true.
Proof. intros F H. rewrite Forall_forall in F. exact (F e H). Qed.

Ltac in_cases :=
  repeat match goal with
  | H : In _ (_ ++ _) |- _ => apply in_app_or in H; destruct H as [H|H]
  | H : In _ (_ :: _) |- _ => destruct H as [H|H]
  | H : In _ [] |- _ => destruct H
  end.

Ltac wrong_kind :=
  match goal with
  | F : Forall (of_kind _) ?l, H : In _ ?l |- _ =>
      exfalso; exact (in_kind _ _ _ F H)
  | F : Forall _ ?l, H : In _ ?l |- _ =>
      exfalso; destruct (in_erases _ _ F H) as [K1 K2]; cbn in K1, K2;
      (contradiction || discriminate)
  | H : (_, _) = (_, _) |- _ => discriminate H
  end.

(** C5: [Save] returns, and returns [RESULT_SUCCESS], [RESULT_FAIL_ERASE]
    or [RESULT_FAIL_WRITE], never [RESULT_FAIL_READ] or
    [RESULT_FAIL_NO_DATA], whatever the driver does.  With the calls and
    their answers recorded: it returns [RESULT_FAIL_WRITE] exactly when
    its [Write] has failed, [RESULT_FAIL_ERASE] exactly when its [Erase]
    has failed, and [RESULT_SUCCESS] exactly when the data were the same
    or its [Write] has succeeded; a [Read] that fails, which can only be
    one of the [Reset] that follows a failed [Write], leaves the result
    at [RESULT_FAIL_WRITE]. *)
Theorem Save_result_codes cfg {M : Type} {nv : NVMem M}
    (m : M) (p : Persist) (d : TData) (t : list (Access * bool)) :
  kNumBlocks cfg > 0 -> -1 <= active_block_n_ p < kNumBlocks cfg ->
  (exists m' p' r,
     Save cfg m p d = Some (m', p', r) /\
     (r = RESULT_SUCCESS \/ r = RESULT_FAIL_ERASE \/ r = RESULT_FAIL_WRITE)) /\
  (exists m' p' r new,
     Save cfg (mkTraced m t) p d = Some (m', p', r) /\
     answers m' = new ++ t /\
     (r = RESULT_SUCCESS \/ r = RESULT_FAIL_ERASE \/ r = RESULT_FAIL_WRITE) /\
     (r = RESULT_FAIL_WRITE <-> exists l s, In (Access_Write l s, false) new) /\
     (r = RESULT_FAIL_ERASE <-> exists l s, In (Access_Erase l s, false) new) /\
     (r = RESULT_SUCCESS <->
        DataIsSame p d = true \/ exists l s, In (Access_Write l s, true) new) /\
     (forall l s, In (Access_Read l s, false) new -> r = RESULT_FAIL_WRITE)).
Proof.
  intros HN Ha. split; [exact (Save_returns cfg m p d HN Ha)|].
  destruct (Save_returns cfg (mkTraced m t) p d HN Ha) as (m' & p' & r & E & Hr).
  exists m', p', r.
  destruct (Save_answers cfg _ _ _ _ _ _ E) as (new & S & Sh). cbn [answers] in S.
  exists new. split; [exact E|]. split; [exact S|]. split; [exact Hr|].
  destruct Sh as [(Same & -> & ->)|(Same & probes & erases & Fp & Fe & Sh)].
  { split; [split; [discriminate | intros (l & s & H); destruct H]|].
    split; [split; [discriminate | intros (l & s & H); destruct H]|].
    split; [split; auto|]. intros l s H. destruct H. }
  destruct Sh as [(l0 & s0 & -> & ->)|(rd & l0 & s0 & ok & -> & Fr & Hok)].
  { split; [split; [discriminate | intros (l & s & H); in_cases; wrong_kind]|].
    split; [split; [intros _; exists l0, s0; left; reflexivity | reflexivity]|].
    split; [split; [discriminate|]|].
    - intros [F|(l & s & H)]; [congruence|]. in_cases; wrong_kind.
    - intros l s H. in_cases; wrong_kind. }
  destruct Hok as [(-> & -> & ->)|(-> & ->)]; cbn [app].
  - split; [split; [discriminate | intros (l & s & H); in_cases; wrong_kind]|].
    split; [split; [discriminate | intros (l & s & H); in_cases; wrong_kind]|].
    split; [split; [intros _; right; exists l0, s0; left; reflexivity | reflexivity]|].
    intros l s H. in_cases; wrong_kind.
  - split; [split; [intros _; exists l0, s0; apply in_or_app; right; left; reflexivity
                   | reflexivity]|].
    split; [split; [discriminate | intros (l & s & H); in_cases; wrong_kind]|].
    split; [split; [discriminate|]|].
    + intros [F|(l & s & H)]; [congruence|]. in_cases; wrong_kind.
    + reflexivity.
Qed.

Lemma Save_result_codes_witness :
  (exists m' p' r,
     Save cfg_2x2 broken_device Persist_none [1; 2; 3; 4] = Some (m', p', r) /\
     (r = RESULT_SUCCESS \/ r = RESULT_FAIL_ERASE \/ r = RESULT_FAIL_WRITE)) /\
  (exists m' p' r new,
     Save cfg_2x2 (mkTraced broken_device []) Persist_none [1; 2; 3; 4] = Some (m', p', r) /\
     answers m' = new ++ [] /\
     (r = RESULT_SUCCESS \/ r = RESULT_FAIL_ERASE \/ r = RESULT_FAIL_WRITE) /\
     (r = RESULT_FAIL_WRITE <-> exists l s, In (Access_Write l s, false) new) /\
     (r = RESULT_FAIL_ERASE <-> exists l s, In (Access_Erase l s, false) new) /\
     (r = RESULT_SUCCESS <->
        DataIsSame Persist_none [1; 2; 3; 4] = true
        \/ exists l s, In (Access_Write l s, true) new) /\
     (forall l s, In (Access_Read l s, false) new -> r = RESULT_FAIL_WRITE)).
Proof.
  apply Save_result_codes.
  - reflexivity.
  - change (kNumBlocks cfg_2x2) with 4. cbn [active_block_n_ Persist_none]. lia.
Defined.

(** On the device whose writes and reads fail, the write of [Save] fails,
    the first read of the [Reset] that follows fails too, and [Save]
    returns [RESULT_FAIL_WRITE]. *)
Example Save_FAIL_WRITE_trace :
  option_map (fun x => (answers (fst (fst x)), snd x))
             (Save cfg_2x2 (mkTraced broken_device []) Persist_none [1; 2; 3; 4])
  = Some ([(Access_Read 0 8, false); (Access_Write 0 8, false); (Access_Writable 0 8, true)],
          RESULT_FAIL_WRITE).
Proof. vm_compute. reflexivity. Qed.

(** ** What [Save] erases and writes while a block is active *)

Section Spares.

Variable cfg : Config.
Hypothesis OK : static_asserts cfg.

Local Abbreviation N := (kNumBlocks cfg).
Local Abbreviation BS := (kBlockSize cfg).
Local Abbreviation PS := (kPageSize cfg).
Local Abbreviation B := (kBlocksPerPage cfg).
Local Abbreviation P := (kNumPages cfg).

Section AnyDriver.

Context {M : Type} {nv : NVMem M}.

Lemma Save_commit_calls (m : Logged M) p nb d m1 p1 r :
  Save_commit cfg m p nb d = (m1, p1, r) ->
  exists rd, accesses m1 = rd ++ Access_Write (BlockLocation cfg nb) BS :: accesses m /\
             Forall is_read rd.
Proof.
  unfold Save_commit. destruct (GetCRC cfg _ _) as [c v].
  cbn [Write Logged_NVMem set_active active_block_n_].
  destruct (Write (logged m) _ _ _) as [m' ok].
  destruct ok; cbn [negb].
  - intros E. inversion E. subst. exists []. split; [reflexivity | constructor].
  - destruct (Reset cfg _ _) as [[m2 p2] r2] eqn:ER.
    intros E. inversion E. subst.
    destruct (Reset_accesses cfg OK _ _ _ _ _ ER) as (rd & S & _ & F & _).
    exists rd. split; [exact S | exact F].
Qed.

(** [NextWritableBlock] only probes, and never returns the active
    block. *)
Lemma NextWritableBlock_other (m : Logged M) a m1 n :
  0 <= a < N ->
  NextWritableBlock cfg m a = Some (m1, n) ->
  (exists new, accesses m1 = new ++ accesses m /\ Forall is_probe new) /\
  (n = -1 \/ (0 <= n < N /\ n <> a)).
Proof.
  intros Ha. unfold NextWritableBlock.
  assert (Ea : (a =? -1) = false) by (apply Z.eqb_neq; lia). rewrite Ea.
  destruct (NextWritableBlock_loop cfg _ m a a) as [[m' n']|] eqn:E; [|discriminate].
  intros F. inversion F. subst. clear F.
  destruct (NextWritableBlock_loop_probes cfg _ _ _ _ _ _ E) as (new & S & Fp & _).
  destruct (NextWritableBlock_loop_accesses cfg OK _ _ _ _ _ _ E) as (_ & _ & _ & R).
  split; [exists new; split; [exact S | exact Fp]|].
  destruct (n' =? a) eqn:En; [left; reflexivity|].
  right. apply Z.eqb_neq in En. split; assumption.
Qed.

End AnyDriver.

Lemma u32_next_page a : 0 <= a < N -> u32 (u32 a / B + 1) = a / B + 1.
Proof.
  intros Ha. pose proof (kNumBlocks_le cfg). rewrite (u32_small a) by lia.
  pose proof (page_of_block cfg OK a Ha). pose proof (pages_fit_region cfg OK).
  pose proof (kPageSize_range cfg OK). destruct OK as (? & _).
  apply u32_small. nia.
Qed.

(** The device that [Reset] leaves is the device it found. *)
Lemma Reset_iteration_Faulty_Flash i (f : Faulty Flash) p :
  fst (fst (Reset_iteration cfg i f p)) = f.
Proof.
  unfold Reset_iteration. destruct f as [m r w e].
  cbn [Read Faulty_NVMem Flash_NVMem read_ok write_ok erase_ok healthy].
  destruct r; cbn [negb]; [|reflexivity].
  destruct (GetCRC cfg _ _) as [c v].
  destruct (_ =? v); [|reflexivity].
  destruct (_ || _); reflexivity.
Qed.

Lemma Reset_scan_Faulty_Flash blocks : forall (f : Faulty Flash) p,
  fst (fst (Reset_scan cfg blocks f p)) = f.
Proof.
  induction blocks as [|i rest IH]; intros f p; cbn [Reset_scan]; [reflexivity|].
  pose proof (Reset_iteration_Faulty_Flash i f p) as H.
  destruct (Reset_iteration cfg i f p) as [[m1 p1] ok]. cbn [fst] in H. subst m1.
  destruct ok; [apply IH | reflexivity].
Qed.

Lemma Reset_Faulty_Flash (f : Faulty Flash) p : fst (fst (Reset cfg f p)) = f.
Proof.
  unfold Reset.
  match goal with |- context [Reset_scan cfg ?bl f ?q] =>
    pose proof (Reset_scan_Faulty_Flash bl f q) as H;
    destruct (Reset_scan cfg bl f q) as [[m1 p1] ok] end.
  cbn [fst] in H. subst m1.
  destruct (negb ok); [reflexivity|].
  destruct (negb _); [|reflexivity].
  destruct f as [m r w e].
  cbn [Read Faulty_NVMem Flash_NVMem read_ok write_ok erase_ok healthy].
  destruct r; reflexivity.
Qed.

(** [Save_commit] changes the block it writes, or nothing. *)
Lemma Save_commit_Faulty_Flash (f : Faulty Flash) p nb d :
  let f1 := fst (fst (Save_commit cfg f p nb d)) in
  healthy f1 = healthy f \/
  exists src, healthy f1 = Flash_write (healthy f) (BlockLocation cfg nb) src BS.
Proof.
  unfold Save_commit. destruct (GetCRC cfg _ _) as [c v].
  cbn [Write Faulty_NVMem Flash_NVMem set_active active_block_n_].
  destruct (write_ok f); cbn [negb fst healthy].
  - right. eexists. reflexivity.
  - match goal with |- context [Reset cfg f ?q] =>
      pose proof (Reset_Faulty_Flash f q) as H;
      destruct (Reset cfg f q) as [[m2 p2] r2] end.
    cbn [fst] in *. subst m2. left. reflexivity.
Qed.

(** C4: with at least two pages, while a block is active, whatever the
    driver does: the only range that [Save] erases is the page after the
    active block's page, modulo [kNumPages], and neither that range nor
    the range [Save] writes shares a byte with the active block.  On
    the flash device, at whichever call [Save] stops because the call has
    failed, and when it runs to the end, the bytes of the block that was
    active are as they were. *)
Theorem Save_spares_active_block :
  kNumPages cfg >= 2 ->
  (forall (M : Type) (nv : NVMem M) (m : Logged M) (p : Persist) (d : TData) m1 p1 r,
     0 <= active_block_n_ p < kNumBlocks cfg ->
     Save cfg m p d = Some (m1, p1, r) ->
     exists new, accesses m1 = new ++ accesses m /\
       forall location size,
         (In (Access_Erase location size) new ->
            location = (active_block_n_ p / kBlocksPerPage cfg + 1) mod kNumPages cfg
                       * kPageSize cfg /\
            size = kPageSize cfg) /\
         (In (Access_Erase location size) new \/ In (Access_Write location size) new ->
            forall x, in_range location size x = true ->
                      in_range (BlockLocation cfg (active_block_n_ p)) (kBlockSize cfg) x = true ->
                      False)) /\
  (forall (f : Faulty Flash) (p : Persist) (d : TData) f1 p1 r,
     0 <= active_block_n_ p < kNumBlocks cfg ->
     Save cfg f p d = Some (f1, p1, r) ->
     Flash_read (healthy f1) (BlockLocation cfg (active_block_n_ p)) (kBlockSize cfg)
     = Flash_read (healthy f) (BlockLocation cfg (active_block_n_ p)) (kBlockSize cfg)).
Proof.
  intros HP. split.
  - intros M nv m p d m1 p1 r Ha. set (a := active_block_n_ p) in *.
    destruct (next_page_spares_block cfg a OK HP Ha) as (Dis & _). cbv zeta in Dis.
    destruct (next_page_block cfg OK a Ha) as (Rq & E1 & E2 & Rb & E3). cbv zeta in *.
    pose proof (u32_next_page a Ha) as Eu.
    pose proof (kNumBlocks_le cfg) as HNle.
    assert (Eq : u32 (u32 a / B + 1) mod P = (a / B + 1) mod P) by (rewrite Eu; reflexivity).
    assert (Eq' : u32 (a / B + 1) mod P = (a / B + 1) mod P).
    { rewrite <- Eq. rewrite (u32_small a) by lia. reflexivity. }
    rewrite (u32_small a) in Dis by lia.
    set (q := (a / B + 1) mod P) in *. rewrite Eq' in *.
    assert (Pq : q <> a / B).
    { intros F. pose proof (block_in_page cfg OK a Ha) as [I1 I2].
      pose proof (kBlockSize_pos cfg OK). pose proof (kPageSize_range cfg OK).
      apply (Dis (BlockLocation cfg a)); apply in_range_iff; rewrite ?E1, ?F; lia. }
    assert (Wr : forall nb, 0 <= nb < N -> nb <> a ->
              forall x, in_range (BlockLocation cfg nb) BS x = true ->
                        in_range (BlockLocation cfg a) BS x = true -> False).
    { intros nb Hnb D x H1 H2. apply in_range_iff in H1, H2.
      destruct (blocks_disjoint cfg OK nb a Hnb Ha D); lia. }
    assert (Nb : q * B <> a).
    { intros F. apply Pq. rewrite <- F. rewrite Z.div_mul; [reflexivity|].
      pose proof (kBlocksPerPage_pos cfg OK). lia. }
    unfold Save. fold a. destruct (DataIsSame p d).
    { intros E. inversion E. subst. exists []. split; [reflexivity|].
      intros l s. split; [intros []|intros [[]|[]]]. }
    destruct (NextWritableBlock cfg m a) as [[m2 n]|] eqn:EN; [|discriminate].
    destruct (NextWritableBlock_other m a m2 n Ha EN) as ((probes & S & Fp) & Hn).
    assert (Commit : forall (m3 : Logged M) q0 nb erases,
              accesses m3 = erases ++ accesses m2 ->
              0 <= nb < N -> nb <> a ->
              (forall l s, In (Access_Erase l s) erases -> l = q * PS /\ s = PS) ->
              (forall l s, In (Access_Write l s) erases -> False) ->
              Some (Save_commit cfg m3 q0 nb d) = Some (m1, p1, r) ->
              exists new, accesses m1 = new ++ accesses m /\
                forall location size,
                  (In (Access_Erase location size) new ->
                     location = q * PS /\ size = PS) /\
                  (In (Access_Erase location size) new \/
                   In (Access_Write location size) new ->
                     forall x, in_range location size x = true ->
                               in_range (BlockLocation cfg a) BS x = true -> False)).
    { intros m3 q0 nb erases S3 Hnb Dnb He Hw E.
      destruct (Save_commit cfg m3 q0 nb d) as [[m4 p4] r4] eqn:EC.
      assert (G : (m4, p4, r4) = (m1, p1, r)) by congruence.
      inversion G. subst m4 p4 r4. clear G E.
      destruct (Save_commit_calls _ _ _ _ _ _ _ EC) as (rd & S4 & Fr).
      exists (rd ++ Access_Write (BlockLocation cfg nb) BS :: erases ++ probes). split.
      { rewrite S4, S3, S. rewrite <- !app_assoc. cbn [app]. rewrite <- app_assoc.
        reflexivity. }
      assert (Er : forall l s,
                In (Access_Erase l s)
                   (rd ++ Access_Write (BlockLocation cfg nb) BS :: erases ++ probes) ->
                l = q * PS /\ s = PS).
      { intros l s H. apply in_app_or in H. destruct H as [H|H].
        - exfalso. rewrite Forall_forall in Fr. exact (Fr _ H).
        - destruct H as [H|H]; [discriminate H|].
          apply in_app_or in H. destruct H as [H|H]; [exact (He l s H)|].
          exfalso. rewrite Forall_forall in Fp. exact (Fp _ H). }
      intros l s. split; [apply Er|].
      intros [H|H] x H1 H2.
      - destruct (Er l s H) as [-> ->]. apply (Dis x); [rewrite E1|]; assumption.
      - apply in_app_or in H. destruct H as [H|H].
        + rewrite Forall_forall in Fr. exact (Fr _ H).
        + destruct H as [H|H].
          * inversion H. subst l s. exact (Wr nb Hnb Dnb x H1 H2).
          * apply in_app_or in H. destruct H as [H|H]; [exact (Hw l s H)|].
            rewrite Forall_forall in Fp. exact (Fp _ H). }
    destruct Hn as [->|(Rn & Dn)].
    + change (-1 =? -1) with true. cbv iota.
      assert (Ea : (a =? -1) = false) by (apply Z.eqb_neq; lia). rewrite Ea.
      cbv zeta. fold a. rewrite Eu. fold q. rewrite E1, E2.
      cbn [Erase Logged_NVMem].
      destruct (Erase (logged m2) _ _) as [m3 ok]. destruct ok; cbn [negb].
      * apply (Commit _ _ _ [Access_Erase (q * PS) PS]); [reflexivity | exact Rb | exact Nb | |].
        -- intros l s [H|[]]. inversion H. auto.
        -- intros l s [H|[]]. discriminate H.
      * intros E. inversion E. subst.
        exists (Access_Erase (q * PS) PS :: probes). split; [cbn [accesses]; rewrite S; reflexivity|].
        assert (Er : forall l s, In (Access_Erase l s) (Access_Erase (q * PS) PS :: probes) ->
                                 l = q * PS /\ s = PS).
        { intros l s [H|H]; [inversion H; auto|].
          exfalso. rewrite Forall_forall in Fp. exact (Fp _ H). }
        intros l s. split; [apply Er|].
        intros [H|H] x H1 H2.
        -- destruct (Er l s H) as [-> ->]. apply (Dis x); [rewrite E1|]; assumption.
        -- destruct H as [H|H]; [discriminate H|].
           rewrite Forall_forall in Fp. exact (Fp _ H).
    + assert (En : (n =? -1) = false) by (apply Z.eqb_neq; lia). rewrite En.
      apply (Commit m2 _ n []); [reflexivity | exact Rn | exact Dn | |];
        intros l s [].
  - intros f p d f1 p1 r Ha. set (a := active_block_n_ p) in *.
    destruct (next_page_spares_block cfg a OK HP Ha) as (_ & Keep). cbv zeta in Keep.
    pose proof (kNumBlocks_le cfg) as HNle.
    unfold Save. fold a. destruct (DataIsSame p d).
    { intros E. inversion E. reflexivity. }
    rewrite NextWritableBlock_Faulty.
    destruct (NextWritableBlock_Flash cfg OK (healthy f) a ltac:(lia)) as (n & A & E).
    cbv zeta in A, E.
    assert (Ea : (a =? -1) = false) by (apply Z.eqb_neq; lia). rewrite Ea in A, E.
    rewrite E. clear E.
    assert (Ef : with_flags f (healthy f) = f) by (destruct f; reflexivity). rewrite Ef.
    destruct A as (Rn & A).
    destruct (n =? a) eqn:En.
    + change (-1 =? -1) with true. cbv iota. fold a. rewrite Ea. cbv zeta.
      cbn [Erase Faulty_NVMem Flash_NVMem].
      destruct (erase_ok f) eqn:Er; cbn [negb].
      * intros E.
        match type of E with Some (Save_commit cfg ?f2 ?q ?nb d) = _ =>
          pose proof (Save_commit_Faulty_Flash f2 q nb d) as H;
          destruct (Save_commit cfg f2 q nb d) as [[f3 p3] r3] end.
        assert (G : (f3, p3, r3) = (f1, p1, r)) by congruence.
        inversion G. subst f3 p3 r3. cbn [fst healthy] in H.
        destruct H as [H|(src & H)]; rewrite H.
        -- apply (proj1 (Keep (healthy f) [])).
        -- apply (proj2 (Keep (healthy f) src)).
      * intros E. inversion E. reflexivity.
    + apply Z.eqb_neq in En.
      assert (Dn : (n =? -1) = false) by (apply Z.eqb_neq; lia). rewrite Dn.
      intros E.
      match type of E with Some (Save_commit cfg ?f2 ?q ?nb d) = _ =>
        pose proof (Save_commit_Faulty_Flash f2 q nb d) as H;
        destruct (Save_commit cfg f2 q nb d) as [[f3 p3] r3] end.
      assert (G : (f3, p3, r3) = (f1, p1, r)) by congruence.
      inversion G. subst f3 p3 r3. cbn [fst] in H.
      destruct H as [H|(src & H)]; rewrite H; [reflexivity|].
      apply Flash_read_write_other.
      destruct (blocks_disjoint cfg OK a n Ha Rn ltac:(lia)); lia.
Qed.

End Spares.

(** ** The full region, and an erased block that passes CRC verification *)

Lemma Save_spares_active_block_witness :
  match Save cfg_2x1 full_log_2x1 (instance_of full_flash_2x1) [3; 3; 3; 3] with
  | Some (m1, _, _) =>
      In (Access_Erase 0 8) (accesses m1) /\
      forall x, in_range 0 8 x = true ->
                in_range (BlockLocation cfg_2x1 (active_block_n_ (instance_of full_flash_2x1)))
                         (kBlockSize cfg_2x1) x = true -> False
  | None => False
  end /\
  match Save cfg_2x1 worn_2x1 (instance_of full_flash_2x1) [3; 3; 3; 3] with
  | Some (f1, _, r) =>
      r = RESULT_FAIL_WRITE /\
      Flash_read (healthy f1)
                 (BlockLocation cfg_2x1 (active_block_n_ (instance_of full_flash_2x1)))
                 (kBlockSize cfg_2x1)
      = Flash_read (healthy worn_2x1)
                   (BlockLocation cfg_2x1 (active_block_n_ (instance_of full_flash_2x1)))
                   (kBlockSize cfg_2x1)
  | None => False
  end.
Proof.
  assert (HP : kNumPages cfg_2x1 >= 2) by (vm_compute; discriminate).
  assert (Ha : 0 <= active_block_n_ (instance_of full_flash_2x1) < kNumBlocks cfg_2x1)
    by (vm_compute; split; [discriminate | reflexivity]).
  destruct (Save_spares_active_block cfg_2x1 static_asserts_2x1 HP) as [A B].
  split.
  - assert (Acc : option_map (fun x => accesses (fst (fst x)))
                    (Save cfg_2x1 full_log_2x1 (instance_of full_flash_2x1) [3; 3; 3; 3])
                  = Some [Access_Write 0 8; Access_Erase 0 8;
                          Access_Writable 8 8; Access_Writable 0 8])
      by (vm_compute; reflexivity).
    destruct (Save cfg_2x1 full_log_2x1 (instance_of full_flash_2x1) [3; 3; 3; 3])
      as [[[m1 p1] r]|] eqn:E; [|discriminate Acc].
    cbn [option_map fst] in Acc. injection Acc as Acc.
    destruct (A _ _ full_log_2x1 _ _ m1 p1 r Ha E) as (new & S & H).
    cbn [accesses full_log_2x1] in S. rewrite app_nil_r in S.
    assert (I : In (Access_Erase 0 8) new) by (rewrite <- S, Acc; right; left; reflexivity).
    split; [rewrite S; exact I|].
    exact (proj2 (H 0 8) (or_introl I)).
  - assert (Res : option_map snd
                    (Save cfg_2x1 worn_2x1 (instance_of full_flash_2x1) [3; 3; 3; 3])
                  = Some RESULT_FAIL_WRITE) by (vm_compute; reflexivity).
    destruct (Save cfg_2x1 worn_2x1 (instance_of full_flash_2x1) [3; 3; 3; 3])
      as [[[f1 p1] r]|] eqn:E; [|discriminate Res].
    cbn [option_map snd] in Res. injection Res as Res.
    split; [exact Res|].
    exact (B worn_2x1 _ _ f1 p1 r Ha E).
Defined.



(** On that geometry an erased block passes CRC verification. *)
Example erased_block_valid_example :
  block_valid cfg_erased_valid
    (Block_of_bytes cfg_erased_valid
       (repeat kErased (Z.to_nat (kBlockSize cfg_erased_valid)))) = true.
Proof. vm_compute. reflexivity. Qed.

(** Without the condition on the erased block a failing write can cost
    the record saved before: on that geometry, two saves later, the region
    is full again and its newest block has sequence number 65533; [Save]
    erases the page of blocks 0 and 1, its write fails, and the [Reset]
    that follows takes the erased block 0 for the newest. *)
Example Save_failed_write_erased_valid :
  let p := snd (fst (Init cfg_erased_valid later_device Persist_raw)) in
  (active_block_n_ p, sequence_ p, Load p []) = (3, 65533, (repeat 254 196, RESULT_SUCCESS)) /\
  match Save cfg_erased_valid (mkFaulty later_device true false true) p (repeat 7 196) with
  | Some (_, p1, r) =>
      (r, active_block_n_ p1, Load p1 [])
      = (RESULT_FAIL_WRITE, 0, (repeat 255 196, RESULT_SUCCESS))
  | None => False
  end.
Proof. split; vm_compute; reflexivity. Qed.
